(** * etcdraft: membership calculator, block pullers and chain state machine

    A shallow embedding of [orderer/consensus/etcdraft/util.go] and the parts
    of [orderer/consensus/etcdraft/chain.go] that decide block writing,
    snapshot handling and the [errorC] channel, with the properties of the
    specification proved (or refuted) on it.

    Conventions.
    - [uint64] values are [N]; additions and subtractions that Go performs
      modulo 2^64 are written [add64] and [sub64].
    - [[]byte] certificates are [string]s, as the code itself converts them
      with [string(...)] before using them as map keys.
    - Go maps are [gmap]s; a [range] over a map visits [map_to_list] of it.
      Go leaves that order unspecified; [ComputeMembershipChanges_order]
      shows the one result that depends on a map range does not depend on
      the order.
    - A run-time panic ([logger.Panicf], a nil dereference, closing a closed
      channel) is the [PanicAt] outcome, which keeps the state the call had
      reached; a returned [error] is a value.
    - A Go pointer that the code dereferences without a test is an
      [option]; dereferencing [None] is the panic [PanicNilDereference].
    - What the package calls outside itself is a parameter: the decoders are
      the class [Codec], and a collaborator that answers by its state is a
      function of the calls made so far.
    - Logging, metrics and locks are not modelled. *)

From stdpp Require Import gmap strings pretty list fin_maps.
From Stdlib Require Import NArith ZArith Lia.

Local Open Scope N_scope.

(** ** Machine integers *)

Definition two64 : N := 2 ^ 64.

Definition add64 (a b : N) : N := (a + b) mod two64.

Definition sub64 (a b : N) : N := (a + (two64 - b mod two64)) mod two64.

Definition MaxUint64 : N := two64 - 1.

(** ** Outcomes *)

Inductive panic :=
| PanicMsg (msg : string)
| PanicNilDereference
| PanicCloseOfClosedChannel.

(** The outcomes of a call.  A panic comes with the state [s] the call had
    reached: what was written before a panic stays written.  [OutOfFuel] is
    not an outcome of the program: it is what a loop of the embedding answers
    when the fuel it was given does not reach the end. *)
Inductive outcome (S A : Type) :=
| Ret (a : A)
| PanicAt (p : panic) (s : S)
| OutOfFuel.
Arguments Ret {S A} a.
Arguments PanicAt {S A} p s.
Arguments OutOfFuel {S A}.

(** The outcomes of a function that has no state of its own. *)
Abbreviation run := (outcome unit).
Abbreviation Panic p := (PanicAt p tt).

#[global] Instance run_ret : MRet run := fun A a => Ret a.

#[global] Instance run_bind : MBind run := fun A B k r =>
  match r with
  | Ret a => k a
  | Panic p => Panic p
  | OutOfFuel => OutOfFuel
  end.

(** A Go [(T, error)] result. *)
Inductive result (E A : Type) :=
| Ok (a : A)
| Err (e : E).
Arguments Ok {E A} a.
Arguments Err {E A} e.

Definition is_err {E A} (r : result E A) : bool :=
  match r with Ok _ => false | Err _ => true end.

(** ** Protobuf messages of [protos/orderer/etcdraft] and [raftpb] *)

Record Consenter := {
  Host : string;
  Port : N;
  ClientTlsCert : string;
  ServerTlsCert : string;
}.

Record BlockMetadata := {
  Consenters : gmap N Consenter;
  NextConsenterId : N;
  RaftIndex : N;
}.

Inductive ConfChangeType :=
| ConfChangeAddNode
| ConfChangeRemoveNode
| ConfChangeUpdateNode
| ConfChangeAddLearnerNode.

Record ConfChange := {
  Type_ : ConfChangeType;
  NodeID : N;
}.

#[global] Instance ConfChangeType_eq_dec : EqDecision ConfChangeType.
Proof. solve_decision. Defined.

#[global] Instance ConfChange_eq_dec : EqDecision ConfChange.
Proof. solve_decision. Defined.

Record ConfigOptions := {
  SnapshotInterval : N;
}.

(** [ConfigMetadata.Consenters] is a slice of pointers; [MetadataHasDuplication]
    tests them for nil, so the pointer is kept as an [option]. *)
Record ConfigMetadata := {
  CM_Consenters : list (option Consenter);
  CM_Options : option ConfigOptions;
}.

(** ** Blocks and snapshots *)

Record BlockHeader := {
  Number : N;
  PreviousHash : string;
  DataHash : string;
}.

Record Block := {
  Header : BlockHeader;
  Data : list string;
  Metadata : list string;
}.

Record ConfState := {
  Nodes : list N;
  Learners : list N;
}.

Record SnapshotMetadata := {
  SM_ConfState : ConfState;
  Index : N;
  Term : N;
}.

Record Snapshot := {
  Snap_Data : string;
  Snap_Metadata : SnapshotMetadata;
}.

(** [&raftpb.Snapshot{Data: data}]: every other field has its zero value. *)
Definition SnapshotOfData (data : string) : Snapshot :=
  {| Snap_Data := data;
     Snap_Metadata := {| SM_ConfState := {| Nodes := []; Learners := [] |};
                         Index := 0; Term := 0 |} |}.

(** ** Messages of [protos/common] and [raft] used by the chain *)

Record Envelope := {
  Env_Payload : string;
  Env_Signature : string;
}.

Record ChannelHeader := {
  CH_Type : Z;
}.

(** [Payload.Header] is a pointer, nil when the payload has no header:
    [P_Header] is [None] then, and otherwise the [ChannelHeader] bytes of the
    header. *)
Record Payload := {
  P_Header : option string;
  P_Data : string;
}.

Record ConfigValue := {
  Value : string;
}.

(** A [ConfigGroup] as far as the package looks into it: its values.  The
    map holds pointers: a key may be bound to nil. *)
Record ConfigGroup := {
  Values : gmap string (option ConfigValue);
}.

(** [ConfigUpdate.WriteSet] is a pointer to a [ConfigGroup], of which the
    package reads the sub-groups: [WriteSet] is [None] for a nil write set,
    and otherwise the [Groups] map of the write set, a map of pointers. *)
Record ConfigUpdate := {
  WriteSet : option (gmap string (option ConfigGroup));
}.

Record ConsensusType := {
  CT_Metadata : string;
}.

(** [common.HeaderType] values, from [protos/common]. *)
Definition HeaderType_CONFIG : Z := 1.
Definition HeaderType_ORDERER_TRANSACTION : Z := 4.

Inductive StateType :=
| StateFollower
| StateCandidate
| StateLeader
| StatePreCandidate.

#[global] Instance StateType_eq_dec : EqDecision StateType.
Proof. solve_decision. Defined.

Record SoftState := {
  Lead : N;
  RaftState : StateType;
}.

(** [raft.None] *)
Definition raft_None : N := 0.

Inductive EntryType :=
| EntryNormal
| EntryConfChange.

Record Entry := {
  E_Type : EntryType;
  E_Index : N;
  E_Term : N;
  E_Data : string;
}.

Inductive MigrationState :=
| MIG_STATE_NONE
| MIG_STATE_START
| MIG_STATE_COMMIT
| MIG_STATE_ABORT
| MIG_STATE_CONTEXT.

#[global] Instance MigrationState_eq_dec : EqDecision MigrationState.
Proof. solve_decision. Defined.

#[global] Instance result_ret {E} : MRet (result E) := fun A a => Ok a.

#[global] Instance result_bind {E} : MBind (result E) := fun A B k r =>
  match r with
  | Ok a => k a
  | Err e => Err e
  end.

(** The decoders and encoders of [protos/utils], [configtx], [proto], [pem]
    and [raftpb] the package calls; they are outside the package.  The
    channel header of a payload is kept in its encoded form. *)
Class Codec := {
  MarshalBlock : Block -> string;
  UnmarshalBlock : string -> result string Block;
  IsConfigBlock : Block -> bool;
  ExtractEnvelope : Block -> nat -> result string Envelope;
  utils_ChannelHeader : Envelope -> result string ChannelHeader;
  UnmarshalPayload : string -> result string Payload;
  UnmarshalEnvelope : string -> result string Envelope;
  ExtractPayload : Envelope -> result string Payload;
  UnmarshalConfigUpdateFromPayload : Payload -> result string ConfigUpdate;
  UnmarshalConsensusType : string -> result string ConsensusType;
  UnmarshalConfigMetadata : string -> result string ConfigMetadata;
  UnmarshalConfChange : string -> result string ConfChange;
  UnmarshalChannelHeader : string -> result string ChannelHeader;
  GetLastConfigIndexFromBlock : Block -> result string N;
  HeaderHash : BlockHeader -> string;
  pem_Decode : string -> option string;
}.

(** ** util.go: membership changes *)

Record MembershipChanges := {
  NewBlockMetadata : BlockMetadata;
  AddedNodes : list Consenter;
  RemovedNodes : list Consenter;
  MC_ConfChange : option ConfChange;
  RotatedNode : N;
}.

Definition Changed (mc : MembershipChanges) : bool :=
  bool_decide (0 < length (AddedNodes mc))%nat || bool_decide (0 < length (RemovedNodes mc))%nat.

Definition Rotated (mc : MembershipChanges) : bool :=
  bool_decide (length (AddedNodes mc) = 1%nat) && bool_decide (length (RemovedNodes mc) = 1%nat).

Inductive util_error :=
| ErrNilMetadata
| ErrNilConsenter
| ErrDuplicateConsenter (serverKey clientKey : string)
| ErrMultipleConsenters (added removed : nat).

(** [ConsentersToMap]: the set of client TLS certificates of a slice. *)
Definition ConsentersToMap (consenters : list Consenter) : gset string :=
  foldl (fun set c => {[ ClientTlsCert c ]} ∪ set) ∅ consenters.

(** [MembershipByCert]: the same for the values of a map. *)
Definition MembershipByCert (consenters : gmap N Consenter) : gset string :=
  foldl (fun set kc => {[ ClientTlsCert kc.2 ]} ∪ set) ∅ (map_to_list consenters).

(** First loop of [ComputeMembershipChanges]: the new consenters whose client
    certificate is not in the current set, appended in slice order. *)
Definition addedLoop (currentConsentersSet : gset string)
    (newConsenters : list Consenter) : list Consenter :=
  foldl (fun added c =>
           if decide (ClientTlsCert c ∈ currentConsentersSet) then added
           else added ++ [c])
        [] newConsenters.

(** Second loop: the old consenters whose certificate is not in the new set,
    and [deletedNodeID], the key of the last of them visited. *)
Definition removedLoop (newConsentersSet : gset string)
    (visited : list (N * Consenter)) : list Consenter * N :=
  foldl (fun acc kc =>
           if decide (ClientTlsCert kc.2 ∈ newConsentersSet) then acc
           else (acc.1 ++ [kc.2], kc.1))
        ([], 0) visited.

(** [ComputeMembershipChanges], with the order in which the range over the
    old consenters visits them made explicit.  The function reads a field of
    every consenter it is given, old or new, before it returns: the
    embedding takes the consenters the pointers point to, and a caller that
    holds pointers dereferences them first ([derefConsenters] below), where a
    nil one is a run-time panic.  [proto.Clone] copies the old metadata; a
    value needs no copy. *)
Definition ComputeMembershipChangesIn (visited : list (N * Consenter))
    (oldMetadata : BlockMetadata) (newConsenters : list Consenter)
    : result util_error MembershipChanges :=
  let clone := oldMetadata in
  let currentConsentersSet := MembershipByCert (Consenters oldMetadata) in
  let added := addedLoop currentConsentersSet newConsenters in
  let newConsentersSet := ConsentersToMap newConsenters in
  let '(removed, deletedNodeID) := removedLoop newConsentersSet visited in
  match added, removed with
  | [a], [_] =>
      (* cert rotation *)
      Ok {| NewBlockMetadata :=
              {| Consenters := <[deletedNodeID := a]> (Consenters clone);
                 NextConsenterId := NextConsenterId clone;
                 RaftIndex := RaftIndex clone |};
            AddedNodes := added;
            RemovedNodes := removed;
            MC_ConfChange := None;
            RotatedNode := deletedNodeID |}
  | [a], [] =>
      (* new node *)
      let nodeID := NextConsenterId clone in
      Ok {| NewBlockMetadata :=
              {| Consenters := <[nodeID := a]> (Consenters clone);
                 NextConsenterId := add64 (NextConsenterId clone) 1;
                 RaftIndex := RaftIndex clone |};
            AddedNodes := added;
            RemovedNodes := removed;
            MC_ConfChange := Some {| Type_ := ConfChangeAddNode; NodeID := nodeID |};
            RotatedNode := 0 |}
  | [], [_] =>
      (* removed node *)
      let nodeID := deletedNodeID in
      Ok {| NewBlockMetadata :=
              {| Consenters := delete nodeID (Consenters clone);
                 NextConsenterId := NextConsenterId clone;
                 RaftIndex := RaftIndex clone |};
            AddedNodes := added;
            RemovedNodes := removed;
            MC_ConfChange := Some {| Type_ := ConfChangeRemoveNode; NodeID := nodeID |};
            RotatedNode := 0 |}
  | [], [] =>
      (* no change *)
      Ok {| NewBlockMetadata := clone;
            AddedNodes := added;
            RemovedNodes := removed;
            MC_ConfChange := None;
            RotatedNode := 0 |}
  | _, _ =>
      Err (ErrMultipleConsenters (length added) (length removed))
  end.

Definition ComputeMembershipChanges (oldMetadata : BlockMetadata)
    (newConsenters : list Consenter) : result util_error MembershipChanges :=
  ComputeMembershipChangesIn (map_to_list (Consenters oldMetadata)) oldMetadata newConsenters.

(** [MetadataHasDuplication].  The first loop rejects a nil consenter; the
    second keeps the set [seen] of certificates of the consenters visited so
    far and rejects a consenter one of whose certificates is in it. *)
Fixpoint duplicationLoop (seen : gset string) (consenters : list (option Consenter))
    : run (option util_error) :=
  match consenters with
  | [] => Ret None
  | None :: _ => Panic PanicNilDereference
  | Some consenter :: rest =>
      let serverKey := ServerTlsCert consenter in
      let clientKey := ClientTlsCert consenter in
      let duplicateServerCert := bool_decide (serverKey ∈ seen) in
      let duplicateClientCert := bool_decide (clientKey ∈ seen) in
      if duplicateServerCert || duplicateClientCert then
        Ret (Some (ErrDuplicateConsenter serverKey clientKey))
      else
        duplicationLoop ({[ clientKey ]} ∪ ({[ serverKey ]} ∪ seen)) rest
  end.

Definition MetadataHasDuplication (md : option ConfigMetadata) : run (option util_error) :=
  match md with
  | None => Ret (Some ErrNilMetadata)
  | Some md =>
      if existsb (fun consenter => bool_decide (consenter = None)) (CM_Consenters md) then
        Ret (Some ErrNilConsenter)
      else
        duplicationLoop ∅ (CM_Consenters md)
  end.


(** ** util.go: reading configuration blocks *)

Section UtilCodec.

Context `{Codec}.

Definition MetadataFromConfigValue (configValue : ConfigValue) : result string ConfigMetadata :=
  match UnmarshalConsensusType (Value configValue) with
  | Err _ => Err "failed to unmarshal consensusType config update"
  | Ok consensusTypeValue =>
      match UnmarshalConfigMetadata (CT_Metadata consensusTypeValue) with
      | Err _ => Err "failed to unmarshal updated (new) etcdraft metadata configuration"
      | Ok updatedMetadata => Ok updatedMetadata
      end
  end.

(** Returns [(nil, nil)] when the write set does not touch the consensus
    type.  The write set, the orderer group and the value are dereferenced
    without a test ([update.WriteSet.Groups], [ordererConfigGroup.Values],
    and [configValue.Value] in [MetadataFromConfigValue]). *)
Definition MetadataFromConfigUpdate (update : ConfigUpdate)
    : run (result string (option ConfigMetadata)) :=
  match WriteSet update with
  | None => Panic PanicNilDereference
  | Some groups =>
      match groups !! "Orderer" with
      | Some None => Panic PanicNilDereference
      | Some (Some ordererConfigGroup) =>
          match Values ordererConfigGroup !! "ConsensusType" with
          | Some None => Panic PanicNilDereference
          | Some (Some val) => Ret (md ← MetadataFromConfigValue val; Ok (Some md))
          | None => Ret (Ok None)
          end
      | None => Ret (Ok None)
      end
  end.

Definition ConfigChannelHeader (block : Block) : result string ChannelHeader :=
  match ExtractEnvelope block 0 with
  | Err _ => Err "failed to extract envelope from the block"
  | Ok envelope =>
      match utils_ChannelHeader envelope with
      | Err _ => Err "cannot extract channel header"
      | Ok channelHeader => Ok channelHeader
      end
  end.

Definition ConfigEnvelopeFromBlock (block : option Block) : result string Envelope :=
  match block with
  | None => Err "nil block"
  | Some block =>
      match ExtractEnvelope block 0 with
      | Err _ => Err "failed to extract envelope from the block"
      | Ok envelope =>
          match utils_ChannelHeader envelope with
          | Err _ => Err "cannot extract channel header"
          | Ok channelHeader =>
              if bool_decide (CH_Type channelHeader = HeaderType_ORDERER_TRANSACTION) then
                match UnmarshalPayload (Env_Payload envelope) with
                | Err _ => Err "failed to unmarshal envelope to extract config payload for orderer transaction"
                | Ok payload =>
                    match UnmarshalEnvelope (P_Data payload) with
                    | Err _ => Err "failed to unmarshal config envelope for orderer type transaction"
                    | Ok configEnvelop => Ok configEnvelop
                    end
                end
              else if bool_decide (CH_Type channelHeader = HeaderType_CONFIG) then
                Ok envelope
              else Err "unexpected header type"
          end
      end
  end.

Definition ConsensusMetadataFromConfigBlock (block : option Block)
    : run (result string (option ConfigMetadata)) :=
  match block with
  | None => Ret (Err "nil block")
  | Some b =>
      if negb (IsConfigBlock b) then Ret (Err "not a config block")
      else
        match ConfigEnvelopeFromBlock block with
        | Err _ => Ret (Err "cannot read config update")
        | Ok configEnvelope =>
            match ExtractPayload configEnvelope with
            | Err _ => Ret (Err "failed to extract payload from config envelope")
            | Ok payload =>
                match UnmarshalConfigUpdateFromPayload payload with
                | Err _ => Ret (Err "could not read config update")
                | Ok configUpdate => MetadataFromConfigUpdate configUpdate
                end
            end
        end
  end.

(** [SliceOfConsentersIDs] *)
Definition SliceOfConsentersIDs (consenters : gmap N Consenter) : list N :=
  foldl (fun result kc => result ++ [kc.1]) [] (map_to_list consenters).

(** [NodeExists] *)
Definition NodeExists (id : N) (nodes : list N) : bool :=
  existsb (fun nodeID => bool_decide (nodeID = id)) nodes.

(** The function [ConfChange] (the message has the name): the change that
    reconciles Raft's nodes with the consenters. *)
Definition ConfChangeFromState (raftMetadata : BlockMetadata) (confState : ConfState)
    : ConfChange :=
  if bool_decide (length (Nodes confState) < length (map_to_list (Consenters raftMetadata)))%nat then
    {| Type_ := ConfChangeAddNode;
       NodeID := foldl (fun nodeID kc =>
                          if NodeExists kc.1 (Nodes confState) then nodeID else kc.1)
                       0 (map_to_list (Consenters raftMetadata)) |}
  else
    let consentersIDs := SliceOfConsentersIDs (Consenters raftMetadata) in
    {| Type_ := ConfChangeRemoveNode;
       NodeID := foldl (fun nodeID' nodeID =>
                          if NodeExists nodeID consentersIDs then nodeID' else nodeID)
                       0 (Nodes confState) |}.

End UtilCodec.

(** ** util.go: LedgerBlockPuller *)

(** What a [BlockPuller] is asked for here: one block per sequence number. *)
Record BlockPuller := {
  BP_PullBlock : N -> option Block;
}.

Record LedgerBlockPuller := {
  LBP_BlockPuller : BlockPuller;
  BlockRetriever : N -> option Block;
  LBP_Height : unit -> N;
}.

(** Where [LedgerBlockPuller.PullBlock] took the block from. *)
Inductive block_source :=
| FromLedger (seq : N)
| FromRemote (seq : N).

Definition LedgerBlockPuller_PullBlock (ledgerPuller : LedgerBlockPuller) (seq : N)
    : block_source * option Block :=
  let lastSeq := sub64 (LBP_Height ledgerPuller tt) 1 in
  if seq <=? lastSeq then
    (FromLedger seq, BlockRetriever ledgerPuller seq)
  else
    (FromRemote seq, BP_PullBlock (LBP_BlockPuller ledgerPuller) seq).

(** ** util.go: evictionSuspector *)

Inductive membership_error :=
| ErrNotInChannel
| ErrForbidden
| ErrOther (msg : string).

#[global] Instance membership_error_eq_dec : EqDecision membership_error.
Proof. solve_decision. Defined.

(** The calls [confirmSuspicion] makes on its collaborators, in order. *)
Inductive es_call :=
| CallCreatePuller
| CallPullLastConfigBlock
| CallHeight
| CallAmIInChannel (configBlock : Block)
| CallTriggerCatchUp (sn : Snapshot)
| CallHalt
| CallPullBlock (seq : N)
| CallWriteBlock (block : option Block).

(** The function-valued fields of the Go struct.  [createPuller], [height]
    and [amIInChannel] are called at most once in a run of [confirmSuspicion];
    [writeBlock] is called once per block and is given the blocks this run
    has already written, so that a ledger that answers by its state is
    covered.  [pullLastConfigBlock] stands for [cluster.PullLastConfigBlock]
    applied to the puller. *)
Record evictionSuspector := {
  evictionSuspicionThreshold : Z;
  createPuller : unit -> result string BlockPuller;
  pullLastConfigBlock : BlockPuller -> result string Block;
  height : unit -> N;
  amIInChannel : Block -> option membership_error;
  es_writeBlock : list (option Block) -> option Block -> option string;
  halted : bool;
}.

Definition set_halted (es : evictionSuspector) (b : bool) : evictionSuspector :=
  {| evictionSuspicionThreshold := evictionSuspicionThreshold es;
     createPuller := createPuller es;
     pullLastConfigBlock := pullLastConfigBlock es;
     height := height es;
     amIInChannel := amIInChannel es;
     es_writeBlock := es_writeBlock es;
     halted := b |}.

(** The loop [for seq := nextBlock; seq <= last; seq++].  [seq++] wraps, so
    the loop is given fuel. *)
Fixpoint pullAndWrite (fuel : nat) (es : evictionSuspector) (puller : BlockPuller)
    (last seq : N) (written : list (option Block)) (calls : list es_call)
    : list es_call * run unit :=
  match fuel with
  | O => (calls, OutOfFuel)
  | S fuel =>
      if seq <=? last then
        let block := BP_PullBlock puller seq in
        let calls := calls ++ [CallPullBlock seq; CallWriteBlock block] in
        match es_writeBlock es written block with
        | Some err => (calls, Panic (PanicMsg "Failed writing block to the ledger"))
        | None => pullAndWrite fuel es puller last (add64 seq 1) (written ++ [block]) calls
        end
      else (calls, Ret tt)
  end.

Section EvictionSuspector.

Context `{Codec}.

Definition confirmSuspicion (fuel : nat) (es : evictionSuspector) (cumulativeSuspicion : Z)
    : list es_call * run evictionSuspector :=
  if bool_decide (evictionSuspicionThreshold es > cumulativeSuspicion)%Z || halted es then
    ([], Ret es)
  else
    match createPuller es tt with
    | Err _ => ([CallCreatePuller], Panic (PanicMsg "Failed creating a block puller"))
    | Ok puller =>
        match pullLastConfigBlock es puller with
        | Err _ => ([CallCreatePuller; CallPullLastConfigBlock], Ret es)
        | Ok lastConfigBlock =>
            let height := height es tt in
            let calls := [CallCreatePuller; CallPullLastConfigBlock; CallHeight] in
            if add64 (Number (Header lastConfigBlock)) 1 <=? height then
              (calls, Ret es)
            else
              let err := amIInChannel es lastConfigBlock in
              let calls := calls ++ [CallAmIInChannel lastConfigBlock] in
              if bool_decide (err ≠ Some ErrNotInChannel) && bool_decide (err ≠ Some ErrForbidden) then
                (calls ++ [CallTriggerCatchUp (SnapshotOfData (MarshalBlock lastConfigBlock))],
                 Ret es)
              else
                let calls := calls ++ [CallHalt] in
                let es := set_halted es true in
                let nextBlock := height in
                let '(calls, r) :=
                  pullAndWrite fuel es puller (Number (Header lastConfigBlock)) nextBlock [] calls in
                (calls, _ ← r; Ret es)
        end
    end.

End EvictionSuspector.


(** ** chain.go: the chain and what it does to the outside *)

Record RemoteNode := {
  RN_ID : N;
  Endpoint : string * N;
  ServerTLSCert : string;
  ClientTLSCert : string;
}.

(** A snapshot request, sent to the snapshotter on [gcC]. *)
Record gc := {
  gc_index : N;
  gc_state : ConfState;
  gc_data : string;
}.

(** The calls the chain makes on its collaborators (ledger, communication
    layer, Raft node, block cutter, pullers), the messages it sends and the
    tasks it starts, in the order it makes them.  A metadata argument is the
    [BlockMetadata] whose encoding is passed, or [None] for [nil].  A
    collaborator that answers is given the calls made before the call. *)
Inductive effect :=
| WriteBlock (block : Block) (encodedMetadataValue : option BlockMetadata)
| WriteConfigBlock (block : Block) (encodedMetadataValue : option BlockMetadata)
| Configure (channel : string) (newNodes : list RemoteNode)
| GoProposeConfChange (cc : ConfChange)
| ApplyConfChange (cc : ConfChange)
| NodeStart (fresh isJoin isMigration : bool)
| SendGc (g : gc)
| GoHalt
| CreatePuller
| PullBlock (seq : N)
| PullerClose
| BlockCutterCut
| BlockCutterOrdered (msg : Envelope)
| ProcessConfigMsg (msg : Envelope)
| ProcessNormalMsg (msg : Envelope)
| ReplyLeader (lead : N)
| SendBlock (b : Block)
| GoGc
| GoServeRequest
| PeriodicCheckerRun
| PeriodicCheckerStop
| GoProposer
| CancelProposer
| OfferObserve (soft : SoftState).

(** [consensus.ConsenterSupport], as far as the chain asks it for answers.
    What answers by the state of the ledger, of the channel configuration or
    of the block cutter is given the calls made so far. *)
Record ConsenterSupport := {
  Height : list effect -> N;
  Sequence : list effect -> N;
  support_ProcessConfigMsg : list effect -> Envelope -> result string Envelope;
  support_ProcessNormalMsg : list effect -> Envelope -> option string;
  BlockCutter_Cut : list effect -> list Envelope;
  BlockCutter_Ordered : list effect -> Envelope -> list (list Envelope) * bool;
  Kafka2RaftMigration : bool;
  IsSystemChannel : bool;
  ConsensusMigrationState : MigrationState;
}.

(** The Raft node: [ApplyConfChange] answers with the node's configuration
    state, given the calls made so far. *)
Record node := {
  Node_ApplyConfChange : list effect -> ConfChange -> ConfState;
}.

Record blockCreator := {
  bc_hash : string;
  bc_number : N;
}.

(** [createNextBlock] of the package's block creator, which is not among
    the sources: the next block for a batch, and the creator after it. *)
Class BlockCreator := {
  createNextBlock : blockCreator -> list Envelope -> Block * blockCreator;
}.

Record SubmitRequest := {
  Channel : string;
  LastValidationSeq : N;
  SR_Payload : Envelope;
}.

(** The fields of [Chain] the modelled methods read or write.  [errorC] is
    the identity of the channel the field holds ([make] numbers them) and
    [errorC_closed] tells whether that channel is closed; [startC_closed] and
    [doneC_closed] do the same for two channels that are never replaced.
    [trace] is the list of calls made so far. *)
Record Chain := {
  raftID : N;
  channelID : string;
  lastKnownLeader : N;
  startC_closed : bool;
  doneC_closed : bool;
  errorC : nat;
  errorC_closed : bool;
  confChangeInProgress : option ConfChange;
  justElected : bool;
  configInflight : bool;
  blockInflight : Z;
  lastBlock : Block;
  appliedIndex : N;
  sizeLimit : N;
  accDataSize : N;
  lastSnapBlockNum : N;
  confState : ConfState;
  fresh : bool;
  opts_BlockMetadata : BlockMetadata;
  opts_MaxInflightMsgs : Z;
  support : ConsenterSupport;
  chain_createPuller : list effect -> result string BlockPuller;
  Node : node;
  trace : list effect;
}.

(** Field updates. *)

Definition set_lastKnownLeader (v : N) (c : Chain) : Chain :=
  {| raftID := raftID c; channelID := channelID c; lastKnownLeader := v;
     startC_closed := startC_closed c; doneC_closed := doneC_closed c; errorC := errorC c;
     errorC_closed := errorC_closed c; confChangeInProgress := confChangeInProgress c;
     justElected := justElected c; configInflight := configInflight c;
     blockInflight := blockInflight c; lastBlock := lastBlock c;
     appliedIndex := appliedIndex c; sizeLimit := sizeLimit c; accDataSize := accDataSize c;
     lastSnapBlockNum := lastSnapBlockNum c; confState := confState c; fresh := fresh c;
     opts_BlockMetadata := opts_BlockMetadata c;
     opts_MaxInflightMsgs := opts_MaxInflightMsgs c; support := support c;
     chain_createPuller := chain_createPuller c; Node := Node c; trace := trace c |}.

Definition set_startC_closed (v : bool) (c : Chain) : Chain :=
  {| raftID := raftID c; channelID := channelID c; lastKnownLeader := lastKnownLeader c;
     startC_closed := v; doneC_closed := doneC_closed c; errorC := errorC c;
     errorC_closed := errorC_closed c; confChangeInProgress := confChangeInProgress c;
     justElected := justElected c; configInflight := configInflight c;
     blockInflight := blockInflight c; lastBlock := lastBlock c;
     appliedIndex := appliedIndex c; sizeLimit := sizeLimit c; accDataSize := accDataSize c;
     lastSnapBlockNum := lastSnapBlockNum c; confState := confState c; fresh := fresh c;
     opts_BlockMetadata := opts_BlockMetadata c;
     opts_MaxInflightMsgs := opts_MaxInflightMsgs c; support := support c;
     chain_createPuller := chain_createPuller c; Node := Node c; trace := trace c |}.

Definition set_doneC_closed (v : bool) (c : Chain) : Chain :=
  {| raftID := raftID c; channelID := channelID c; lastKnownLeader := lastKnownLeader c;
     startC_closed := startC_closed c; doneC_closed := v; errorC := errorC c;
     errorC_closed := errorC_closed c; confChangeInProgress := confChangeInProgress c;
     justElected := justElected c; configInflight := configInflight c;
     blockInflight := blockInflight c; lastBlock := lastBlock c;
     appliedIndex := appliedIndex c; sizeLimit := sizeLimit c; accDataSize := accDataSize c;
     lastSnapBlockNum := lastSnapBlockNum c; confState := confState c; fresh := fresh c;
     opts_BlockMetadata := opts_BlockMetadata c;
     opts_MaxInflightMsgs := opts_MaxInflightMsgs c; support := support c;
     chain_createPuller := chain_createPuller c; Node := Node c; trace := trace c |}.

Definition set_errorC (v : nat) (c : Chain) : Chain :=
  {| raftID := raftID c; channelID := channelID c; lastKnownLeader := lastKnownLeader c;
     startC_closed := startC_closed c; doneC_closed := doneC_closed c; errorC := v;
     errorC_closed := errorC_closed c; confChangeInProgress := confChangeInProgress c;
     justElected := justElected c; configInflight := configInflight c;
     blockInflight := blockInflight c; lastBlock := lastBlock c;
     appliedIndex := appliedIndex c; sizeLimit := sizeLimit c; accDataSize := accDataSize c;
     lastSnapBlockNum := lastSnapBlockNum c; confState := confState c; fresh := fresh c;
     opts_BlockMetadata := opts_BlockMetadata c;
     opts_MaxInflightMsgs := opts_MaxInflightMsgs c; support := support c;
     chain_createPuller := chain_createPuller c; Node := Node c; trace := trace c |}.

Definition set_errorC_closed (v : bool) (c : Chain) : Chain :=
  {| raftID := raftID c; channelID := channelID c; lastKnownLeader := lastKnownLeader c;
     startC_closed := startC_closed c; doneC_closed := doneC_closed c; errorC := errorC c;
     errorC_closed := v; confChangeInProgress := confChangeInProgress c;
     justElected := justElected c; configInflight := configInflight c;
     blockInflight := blockInflight c; lastBlock := lastBlock c;
     appliedIndex := appliedIndex c; sizeLimit := sizeLimit c; accDataSize := accDataSize c;
     lastSnapBlockNum := lastSnapBlockNum c; confState := confState c; fresh := fresh c;
     opts_BlockMetadata := opts_BlockMetadata c;
     opts_MaxInflightMsgs := opts_MaxInflightMsgs c; support := support c;
     chain_createPuller := chain_createPuller c; Node := Node c; trace := trace c |}.

Definition set_confChangeInProgress (v : option ConfChange) (c : Chain) : Chain :=
  {| raftID := raftID c; channelID := channelID c; lastKnownLeader := lastKnownLeader c;
     startC_closed := startC_closed c; doneC_closed := doneC_closed c; errorC := errorC c;
     errorC_closed := errorC_closed c; confChangeInProgress := v;
     justElected := justElected c; configInflight := configInflight c;
     blockInflight := blockInflight c; lastBlock := lastBlock c;
     appliedIndex := appliedIndex c; sizeLimit := sizeLimit c; accDataSize := accDataSize c;
     lastSnapBlockNum := lastSnapBlockNum c; confState := confState c; fresh := fresh c;
     opts_BlockMetadata := opts_BlockMetadata c;
     opts_MaxInflightMsgs := opts_MaxInflightMsgs c; support := support c;
     chain_createPuller := chain_createPuller c; Node := Node c; trace := trace c |}.

Definition set_justElected (v : bool) (c : Chain) : Chain :=
  {| raftID := raftID c; channelID := channelID c; lastKnownLeader := lastKnownLeader c;
     startC_closed := startC_closed c; doneC_closed := doneC_closed c; errorC := errorC c;
     errorC_closed := errorC_closed c; confChangeInProgress := confChangeInProgress c;
     justElected := v; configInflight := configInflight c; blockInflight := blockInflight c;
     lastBlock := lastBlock c; appliedIndex := appliedIndex c; sizeLimit := sizeLimit c;
     accDataSize := accDataSize c; lastSnapBlockNum := lastSnapBlockNum c;
     confState := confState c; fresh := fresh c; opts_BlockMetadata := opts_BlockMetadata c;
     opts_MaxInflightMsgs := opts_MaxInflightMsgs c; support := support c;
     chain_createPuller := chain_createPuller c; Node := Node c; trace := trace c |}.

Definition set_configInflight (v : bool) (c : Chain) : Chain :=
  {| raftID := raftID c; channelID := channelID c; lastKnownLeader := lastKnownLeader c;
     startC_closed := startC_closed c; doneC_closed := doneC_closed c; errorC := errorC c;
     errorC_closed := errorC_closed c; confChangeInProgress := confChangeInProgress c;
     justElected := justElected c; configInflight := v; blockInflight := blockInflight c;
     lastBlock := lastBlock c; appliedIndex := appliedIndex c; sizeLimit := sizeLimit c;
     accDataSize := accDataSize c; lastSnapBlockNum := lastSnapBlockNum c;
     confState := confState c; fresh := fresh c; opts_BlockMetadata := opts_BlockMetadata c;
     opts_MaxInflightMsgs := opts_MaxInflightMsgs c; support := support c;
     chain_createPuller := chain_createPuller c; Node := Node c; trace := trace c |}.

Definition set_blockInflight (v : Z) (c : Chain) : Chain :=
  {| raftID := raftID c; channelID := channelID c; lastKnownLeader := lastKnownLeader c;
     startC_closed := startC_closed c; doneC_closed := doneC_closed c; errorC := errorC c;
     errorC_closed := errorC_closed c; confChangeInProgress := confChangeInProgress c;
     justElected := justElected c; configInflight := configInflight c; blockInflight := v;
     lastBlock := lastBlock c; appliedIndex := appliedIndex c; sizeLimit := sizeLimit c;
     accDataSize := accDataSize c; lastSnapBlockNum := lastSnapBlockNum c;
     confState := confState c; fresh := fresh c; opts_BlockMetadata := opts_BlockMetadata c;
     opts_MaxInflightMsgs := opts_MaxInflightMsgs c; support := support c;
     chain_createPuller := chain_createPuller c; Node := Node c; trace := trace c |}.

Definition set_lastBlock (v : Block) (c : Chain) : Chain :=
  {| raftID := raftID c; channelID := channelID c; lastKnownLeader := lastKnownLeader c;
     startC_closed := startC_closed c; doneC_closed := doneC_closed c; errorC := errorC c;
     errorC_closed := errorC_closed c; confChangeInProgress := confChangeInProgress c;
     justElected := justElected c; configInflight := configInflight c;
     blockInflight := blockInflight c; lastBlock := v; appliedIndex := appliedIndex c;
     sizeLimit := sizeLimit c; accDataSize := accDataSize c;
     lastSnapBlockNum := lastSnapBlockNum c; confState := confState c; fresh := fresh c;
     opts_BlockMetadata := opts_BlockMetadata c;
     opts_MaxInflightMsgs := opts_MaxInflightMsgs c; support := support c;
     chain_createPuller := chain_createPuller c; Node := Node c; trace := trace c |}.

Definition set_appliedIndex (v : N) (c : Chain) : Chain :=
  {| raftID := raftID c; channelID := channelID c; lastKnownLeader := lastKnownLeader c;
     startC_closed := startC_closed c; doneC_closed := doneC_closed c; errorC := errorC c;
     errorC_closed := errorC_closed c; confChangeInProgress := confChangeInProgress c;
     justElected := justElected c; configInflight := configInflight c;
     blockInflight := blockInflight c; lastBlock := lastBlock c; appliedIndex := v;
     sizeLimit := sizeLimit c; accDataSize := accDataSize c;
     lastSnapBlockNum := lastSnapBlockNum c; confState := confState c; fresh := fresh c;
     opts_BlockMetadata := opts_BlockMetadata c;
     opts_MaxInflightMsgs := opts_MaxInflightMsgs c; support := support c;
     chain_createPuller := chain_createPuller c; Node := Node c; trace := trace c |}.

Definition set_sizeLimit (v : N) (c : Chain) : Chain :=
  {| raftID := raftID c; channelID := channelID c; lastKnownLeader := lastKnownLeader c;
     startC_closed := startC_closed c; doneC_closed := doneC_closed c; errorC := errorC c;
     errorC_closed := errorC_closed c; confChangeInProgress := confChangeInProgress c;
     justElected := justElected c; configInflight := configInflight c;
     blockInflight := blockInflight c; lastBlock := lastBlock c;
     appliedIndex := appliedIndex c; sizeLimit := v; accDataSize := accDataSize c;
     lastSnapBlockNum := lastSnapBlockNum c; confState := confState c; fresh := fresh c;
     opts_BlockMetadata := opts_BlockMetadata c;
     opts_MaxInflightMsgs := opts_MaxInflightMsgs c; support := support c;
     chain_createPuller := chain_createPuller c; Node := Node c; trace := trace c |}.

Definition set_accDataSize (v : N) (c : Chain) : Chain :=
  {| raftID := raftID c; channelID := channelID c; lastKnownLeader := lastKnownLeader c;
     startC_closed := startC_closed c; doneC_closed := doneC_closed c; errorC := errorC c;
     errorC_closed := errorC_closed c; confChangeInProgress := confChangeInProgress c;
     justElected := justElected c; configInflight := configInflight c;
     blockInflight := blockInflight c; lastBlock := lastBlock c;
     appliedIndex := appliedIndex c; sizeLimit := sizeLimit c; accDataSize := v;
     lastSnapBlockNum := lastSnapBlockNum c; confState := confState c; fresh := fresh c;
     opts_BlockMetadata := opts_BlockMetadata c;
     opts_MaxInflightMsgs := opts_MaxInflightMsgs c; support := support c;
     chain_createPuller := chain_createPuller c; Node := Node c; trace := trace c |}.

Definition set_lastSnapBlockNum (v : N) (c : Chain) : Chain :=
  {| raftID := raftID c; channelID := channelID c; lastKnownLeader := lastKnownLeader c;
     startC_closed := startC_closed c; doneC_closed := doneC_closed c; errorC := errorC c;
     errorC_closed := errorC_closed c; confChangeInProgress := confChangeInProgress c;
     justElected := justElected c; configInflight := configInflight c;
     blockInflight := blockInflight c; lastBlock := lastBlock c;
     appliedIndex := appliedIndex c; sizeLimit := sizeLimit c; accDataSize := accDataSize c;
     lastSnapBlockNum := v; confState := confState c; fresh := fresh c;
     opts_BlockMetadata := opts_BlockMetadata c;
     opts_MaxInflightMsgs := opts_MaxInflightMsgs c; support := support c;
     chain_createPuller := chain_createPuller c; Node := Node c; trace := trace c |}.

Definition set_confState (v : ConfState) (c : Chain) : Chain :=
  {| raftID := raftID c; channelID := channelID c; lastKnownLeader := lastKnownLeader c;
     startC_closed := startC_closed c; doneC_closed := doneC_closed c; errorC := errorC c;
     errorC_closed := errorC_closed c; confChangeInProgress := confChangeInProgress c;
     justElected := justElected c; configInflight := configInflight c;
     blockInflight := blockInflight c; lastBlock := lastBlock c;
     appliedIndex := appliedIndex c; sizeLimit := sizeLimit c; accDataSize := accDataSize c;
     lastSnapBlockNum := lastSnapBlockNum c; confState := v; fresh := fresh c;
     opts_BlockMetadata := opts_BlockMetadata c;
     opts_MaxInflightMsgs := opts_MaxInflightMsgs c; support := support c;
     chain_createPuller := chain_createPuller c; Node := Node c; trace := trace c |}.

Definition set_opts_BlockMetadata (v : BlockMetadata) (c : Chain) : Chain :=
  {| raftID := raftID c; channelID := channelID c; lastKnownLeader := lastKnownLeader c;
     startC_closed := startC_closed c; doneC_closed := doneC_closed c; errorC := errorC c;
     errorC_closed := errorC_closed c; confChangeInProgress := confChangeInProgress c;
     justElected := justElected c; configInflight := configInflight c;
     blockInflight := blockInflight c; lastBlock := lastBlock c;
     appliedIndex := appliedIndex c; sizeLimit := sizeLimit c; accDataSize := accDataSize c;
     lastSnapBlockNum := lastSnapBlockNum c; confState := confState c; fresh := fresh c;
     opts_BlockMetadata := v; opts_MaxInflightMsgs := opts_MaxInflightMsgs c;
     support := support c; chain_createPuller := chain_createPuller c; Node := Node c;
     trace := trace c |}.

Definition set_trace (v : list effect) (c : Chain) : Chain :=
  {| raftID := raftID c; channelID := channelID c; lastKnownLeader := lastKnownLeader c;
     startC_closed := startC_closed c; doneC_closed := doneC_closed c; errorC := errorC c;
     errorC_closed := errorC_closed c; confChangeInProgress := confChangeInProgress c;
     justElected := justElected c; configInflight := configInflight c;
     blockInflight := blockInflight c; lastBlock := lastBlock c;
     appliedIndex := appliedIndex c; sizeLimit := sizeLimit c; accDataSize := accDataSize c;
     lastSnapBlockNum := lastSnapBlockNum c; confState := confState c; fresh := fresh c;
     opts_BlockMetadata := opts_BlockMetadata c;
     opts_MaxInflightMsgs := opts_MaxInflightMsgs c; support := support c;
     chain_createPuller := chain_createPuller c; Node := Node c; trace := v |}.

Definition set_RaftIndex (index : N) (m : BlockMetadata) : BlockMetadata :=
  {| Consenters := Consenters m; NextConsenterId := NextConsenterId m; RaftIndex := index |}.

(** Methods of [*Chain]: they read and write the chain and may panic; a
    panic leaves the chain as the method had made it by then. *)
Definition M (A : Type) : Type := Chain -> outcome Chain (A * Chain).

#[global] Instance M_ret : MRet M := fun A a c => Ret (a, c).

#[global] Instance M_bind : MBind M := fun A B k m c =>
  match m c with
  | Ret (a, c') => k a c'
  | PanicAt p c' => PanicAt p c'
  | OutOfFuel => OutOfFuel
  end.

Definition get : M Chain := fun c => Ret (c, c).

Definition modify (f : Chain -> Chain) : M unit := fun c => Ret (tt, f c).

Definition raise {A} (p : panic) : M A := fun c => PanicAt p c.

Definition panicf {A} (msg : string) : M A := raise (PanicMsg msg).

Definition outOfFuel {A} : M A := fun _ => OutOfFuel.

Definition emit (e : effect) : M unit := modify (fun c => set_trace (trace c ++ [e]) c).

Definition when (b : bool) (m : M unit) : M unit := if b then m else mret tt.

(** [defer]: the deferred call runs when the body returns, and also when it
    panics, before the panic goes on. *)
Definition defer {A} (deferred : M unit) (body : M A) : M A := fun c =>
  match body c with
  | Ret (a, c') => (deferred;; mret a) c'
  | PanicAt p c' =>
      match deferred c' with
      | Ret (_, c'') => PanicAt p c''
      | PanicAt p' c'' => PanicAt p' c''
      | OutOfFuel => OutOfFuel
      end
  | OutOfFuel => OutOfFuel
  end.

Section ChainMethods.

Context `{Codec}.

(** [Errored]: the channel the field holds at the moment. *)
Definition Errored (c : Chain) : nat := errorC c.

(** [pemToDER] *)
Definition pemToDER (pemBytes : string) : result string string :=
  match pem_Decode pemBytes with
  | None => Err "invalid PEM block"
  | Some bl => Ok bl
  end.

(** The range of [remotePeers] over the consenters. *)
Fixpoint remotePeersLoop (self : N) (visited : list (N * Consenter))
    (nodes : list RemoteNode) : result string (list RemoteNode) :=
  match visited with
  | [] => Ok nodes
  | (raftID, consenter) :: rest =>
      if bool_decide (raftID = self) then remotePeersLoop self rest nodes
      else
        serverCertAsDER ← pemToDER (ServerTlsCert consenter);
        clientCertAsDER ← pemToDER (ClientTlsCert consenter);
        remotePeersLoop self rest
          (nodes ++ [{| RN_ID := raftID;
                        Endpoint := (Host consenter, Port consenter);
                        ServerTLSCert := serverCertAsDER;
                        ClientTLSCert := clientCertAsDER |}])
  end.

Definition remotePeers (c : Chain) : result string (list RemoteNode) :=
  remotePeersLoop (raftID c) (map_to_list (Consenters (opts_BlockMetadata c))) [].

(** [configureComm]; the result is the error, if any. *)
Definition configureComm : M (option string) := fun c =>
  match remotePeers c with
  | Err err => Ret (Some err, c)
  | Ok nodes => (emit (Configure (channelID c) nodes);; mret None) c
  end.

(** [newConfigMetadata] *)
Definition newConfigMetadata (block : Block) : M (option ConfigMetadata) :=
  match ConsensusMetadataFromConfigBlock (Some block) with
  | Panic p => raise p
  | OutOfFuel => outOfFuel
  | Ret (Err _) => panicf "error reading consensus metadata"
  | Ret (Ok metadata) => mret metadata
  end.

(** The consenters a slice of pointers points to; [None] when one is nil. *)
Fixpoint derefConsenters (consenters : list (option Consenter)) : option (list Consenter) :=
  match consenters with
  | [] => Some []
  | None :: _ => None
  | Some c :: rest =>
      match derefConsenters rest with
      | None => None
      | Some cs => Some (c :: cs)
      end
  end.

(** [detectConfChange].  [ComputeMembershipChanges] reads a field of every
    new consenter before it returns, which panics on a nil one. *)
Definition detectConfChange (block : Block) : M (option MembershipChanges) :=
  configMetadata ← newConfigMetadata block;
  match configMetadata with
  | None => mret None
  | Some configMetadata =>
      when (match CM_Options configMetadata with
            | Some options => negb (SnapshotInterval options =? 0)
            | None => false
            end)
           (modify (fun c =>
              set_sizeLimit (from_option SnapshotInterval 0 (CM_Options configMetadata)) c));;
      c ← get;
      match derefConsenters (CM_Consenters configMetadata) with
      | None => raise PanicNilDereference
      | Some newConsenters =>
          match ComputeMembershipChanges (opts_BlockMetadata c) newConsenters with
          | Err _ => panicf "illegal configuration change detected"
          | Ok changes => mret (Some changes)
          end
      end
  end.

(** [writeConfigBlock] *)
Definition writeConfigBlock (block : Block) (index : N) : M unit :=
  match ConfigChannelHeader block with
  | Err _ => panicf "Failed to get config header type from config block"
  | Ok hdr =>
      modify (set_configInflight false);;
      if bool_decide (CH_Type hdr = HeaderType_CONFIG) then
        configMembership ← detectConfChange block;
        when (bool_decide (configMembership ≠ None))
             (modify (fun c =>
                set_opts_BlockMetadata
                  (from_option NewBlockMetadata (opts_BlockMetadata c) configMembership) c));;
        modify (fun c => set_opts_BlockMetadata (set_RaftIndex index (opts_BlockMetadata c)) c);;
        c ← get;
        emit (WriteConfigBlock block (Some (opts_BlockMetadata c)));;
        match configMembership with
        | None => mret tt
        | Some configMembership =>
            match MC_ConfChange configMembership with
            | Some cc =>
                emit (GoProposeConfChange cc);;
                modify (set_confChangeInProgress (Some cc));;
                match Type_ cc with
                | ConfChangeAddNode | ConfChangeRemoveNode => mret tt
                | _ => panicf "Programming error, encountered unsupported raft config change"
                end;;
                modify (set_configInflight true)
            | None =>
                if Rotated configMembership then
                  err ← configureComm;
                  match err with
                  | Some _ => panicf "Failed to configure communication"
                  | None => mret tt
                  end
                else mret tt
            end
        end
      else if bool_decide (CH_Type hdr = HeaderType_ORDERER_TRANSACTION) then
        modify (fun c => set_opts_BlockMetadata (set_RaftIndex index (opts_BlockMetadata c)) c);;
        c ← get;
        emit (WriteConfigBlock block (Some (opts_BlockMetadata c)))
      else panicf "Programming error: unexpected config type"
  end.

(** [writeBlock] *)
Definition writeBlock (block : Block) (index : N) : M unit :=
  c ← get;
  if add64 (Number (Header (lastBlock c))) 1 <? Number (Header block) then
    panicf "Got block, expect block"
  else if Number (Header block) <? add64 (Number (Header (lastBlock c))) 1 then
    mret tt
  else
    when (bool_decide (0 < blockInflight c)%Z)
         (modify (fun c => set_blockInflight (blockInflight c - 1)%Z c));;
    modify (set_lastBlock block);;
    if IsConfigBlock block then writeConfigBlock block index
    else
      modify (fun c => set_opts_BlockMetadata (set_RaftIndex index (opts_BlockMetadata c)) c);;
      c ← get;
      emit (WriteBlock block (Some (opts_BlockMetadata c))).

(** The loop of [catchUp]; [next++] wraps, so the loop is given fuel. *)
Fixpoint catchUpLoop (fuel : nat) (puller : BlockPuller) (last next : N)
    : M (option string) :=
  match fuel with
  | O => outOfFuel
  | S fuel =>
      if next <=? last then
        emit (PullBlock next);;
        match BP_PullBlock puller next with
        | None => mret (Some "failed to fetch block from cluster")
        | Some block =>
            (if IsConfigBlock block then
               emit (WriteConfigBlock block None);;
               configMembership ← detectConfChange block;
               match configMembership with
               | Some configMembership =>
                   if Changed configMembership then
                     modify (set_opts_BlockMetadata (NewBlockMetadata configMembership));;
                     err ← configureComm;
                     match err with
                     | Some _ => panicf "Failed to configure communication"
                     | None => mret tt
                     end
                   else mret tt
               | None => mret tt
               end
             else emit (WriteBlock block None));;
            modify (set_lastBlock block);;
            catchUpLoop fuel puller last (add64 next 1)
        end
      else mret None
  end.

(** [catchUp]; the result is the error, if any.  [puller.Close] is
    deferred: it runs on every way out of the loop, a panic included. *)
Definition catchUp (fuel : nat) (snap : Snapshot) : M (option string) :=
  match UnmarshalBlock (Snap_Data snap) with
  | Err _ => mret (Some "failed to unmarshal snapshot data to block")
  | Ok b =>
      c ← get;
      if Number (Header b) <=? Number (Header (lastBlock c)) then mret None
      else
        emit CreatePuller;;
        match chain_createPuller c (trace c) with
        | Err _ => mret (Some "failed to create block puller")
        | Ok puller =>
            let next := add64 (Number (Header (lastBlock c))) 1 in
            defer (emit PullerClose) (catchUpLoop fuel puller (Number (Header b)) next)
        end
  end.

(** What one entry leaves for the rest of the loop of [apply]. *)
Inductive entry_flow :=
| Break
| Continue.

(** One iteration of the loop of [apply], before the update of
    [appliedIndex]: the new [appliedb] and [position], and whether the
    iteration left with [continue]. *)
Definition applyEntry (i : nat) (ent : Entry) (appliedb : N) (position : nat)
    : M (N * nat * entry_flow) :=
  match E_Type ent with
  | EntryNormal =>
      c ← get;
      if bool_decide (String.length (E_Data ent) = 0%nat) then mret (appliedb, position, Break)
      else if E_Index ent <=? appliedIndex c then mret (appliedb, position, Break)
      else
        match UnmarshalBlock (E_Data ent) with
        | Err _ => panicf "Failed unmarshaling block"
        | Ok block =>
            writeBlock block (E_Index ent);;
            modify (fun c =>
              set_accDataSize
                ((accDataSize c + N.of_nat (String.length (E_Data ent)) mod 2 ^ 32) mod 2 ^ 32) c);;
            mret (Number (Header block), i, Break)
        end
  | EntryConfChange =>
      match UnmarshalConfChange (E_Data ent) with
      | Err _ => mret (appliedb, position, Continue)
      | Ok cc =>
          c ← get;
          emit (ApplyConfChange cc);;
          modify (set_confState (Node_ApplyConfChange (Node c) (trace c) cc));;
          match Type_ cc with
          | ConfChangeAddNode | ConfChangeRemoveNode => mret tt
          | _ => panicf "Programming error, encountered unsupported raft config change"
          end;;
          c ← get;
          when (match confChangeInProgress c with
                | Some inProgress =>
                    bool_decide (NodeID inProgress = NodeID cc)
                    && bool_decide (Type_ inProgress = Type_ cc)
                | None => false
                end)
               (err ← configureComm;
                match err with
                | Some _ => panicf "Failed to configure communication"
                | None => mret tt
                end;;
                modify (set_confChangeInProgress None);;
                modify (set_configInflight false));;
          when (bool_decide (Type_ cc = ConfChangeRemoveNode) && bool_decide (NodeID cc = raftID c))
               (emit GoHalt);;
          mret (appliedb, position, Break)
      end
  end.

Fixpoint applyLoop (i : nat) (ents : list Entry) (appliedb : N) (position : nat)
    : M (N * nat) :=
  match ents with
  | [] => mret (appliedb, position)
  | ent :: rest =>
      '(appliedb, position, flow) ← applyEntry i ent appliedb position;
      match flow with
      | Continue => mret tt
      | Break =>
          c ← get;
          when (appliedIndex c <? E_Index ent) (modify (set_appliedIndex (E_Index ent)))
      end;;
      applyLoop (S i) rest appliedb position
  end.

(** [apply].  [gcReady] tells whether the snapshotter is receiving on [gcC]
    when the non-blocking send is tried. *)
Definition apply (gcReady : bool) (ents : list Entry) : M unit :=
  match ents with
  | [] => mret tt
  | first :: _ =>
      c ← get;
      if add64 (appliedIndex c) 1 <? E_Index first then
        panicf "first index of committed entry should <= appliedIndex+1"
      else
        '(appliedb, position) ← applyLoop 0 ents 0 0%nat;
        if appliedb =? 0 then mret tt
        else
          c ← get;
          if sizeLimit c <=? accDataSize c then
            if gcReady then
              emit (SendGc {| gc_index := appliedIndex c;
                              gc_state := confState c;
                              gc_data := from_option E_Data "" (ents !! position) |});;
              modify (set_accDataSize 0);;
              modify (set_lastSnapBlockNum appliedb)
            else mret tt
          else mret tt
  end.

(** [detectMigration] *)
Definition detectMigration : M bool :=
  c ← get;
  if Kafka2RaftMigration (support c) then
    match GetLastConfigIndexFromBlock (lastBlock c) with
    | Err _ => panicf "Chain did not have appropriately encoded last config in its latest block"
    | Ok lastConfigIndex =>
        if bool_decide (lastConfigIndex ≠ Number (Header (lastBlock c))) then mret false
        else if IsSystemChannel (support c) then
          mret (bool_decide (ConsensusMigrationState (support c) = MIG_STATE_COMMIT))
        else
          mret (bool_decide (ConsensusMigrationState (support c) = MIG_STATE_CONTEXT))
    end
  else mret false.

(** [close] of the three channels; closing a closed channel panics. *)
Definition close_doneC : M unit :=
  c ← get;
  if doneC_closed c then raise PanicCloseOfClosedChannel
  else modify (set_doneC_closed true).

Definition close_startC : M unit :=
  c ← get;
  if startC_closed c then raise PanicCloseOfClosedChannel
  else modify (set_startC_closed true).

Definition close_errorC : M unit :=
  c ← get;
  if errorC_closed c then raise PanicCloseOfClosedChannel
  else modify (set_errorC_closed true).

(** [c.errorC = make(chan struct{})] *)
Definition make_errorC : M unit :=
  modify (fun c => set_errorC_closed false (set_errorC (S (errorC c)) c)).

(** [Start].  [Node.start] and the periodic check it leaves running are
    outside the model; they are recorded as calls. *)
Definition Start : M unit :=
  err ← configureComm;
  match err with
  | Some _ => close_doneC
  | None =>
      c ← get;
      let isJoin := 1 <? Height (support c) (trace c) in
      isMigration ← (if isJoin then detectMigration else mret false);
      emit (NodeStart (fresh c) isJoin isMigration);;
      close_startC;;
      close_errorC;;
      emit GoGc;;
      emit GoServeRequest;;
      emit PeriodicCheckerRun
  end.

(** [getInFlightConfChange] *)
Definition getInFlightConfChange : M (option ConfChange) :=
  c ← get;
  match confChangeInProgress c with
  | Some cc => mret (Some cc)
  | None =>
      if Number (Header (lastBlock c)) =? 0 then mret None
      else if negb (IsConfigBlock (lastBlock c)) then mret None
      else
        migration ← detectMigration;
        if (migration : bool) then mret None
        else
          let zero := {| Type_ := ConfChangeAddNode; NodeID := 0 |} in
          c ← get;
          emit (ApplyConfChange zero);;
          let confState := Node_ApplyConfChange (Node c) (trace c) zero in
          if bool_decide (length (Nodes confState) = size (Consenters (opts_BlockMetadata c))) then
            mret None
          else mret (Some (ConfChangeFromState (opts_BlockMetadata c) confState))
  end.

End ChainMethods.

(** ** chain.go: the main loop *)

(** The message type of [applyC]. *)
Record applyMsg := {
  entries : list Entry;
  app_soft : option SoftState;
}.

(** The variables local to [serveRequest].  [submitC] is [true] when the
    variable holds [c.submitC] and [false] when it is nil; [propC] likewise
    tells whether the variable holds a leader's block channel;  [cancelProp]
    is [false] while the variable holds its initial no-op.  [serving] turns
    false when the loop returns. *)
Record serveState := {
  ticking : bool;
  soft : SoftState;
  submitC : bool;
  bc : option blockCreator;
  propC : bool;
  cancelProp : bool;
  serving : bool;
}.

Definition set_ticking (v : bool) (s : serveState) : serveState :=
  {| ticking := v; soft := soft s; submitC := submitC s; bc := bc s; propC := propC s;
     cancelProp := cancelProp s; serving := serving s |}.

Definition set_soft (v : SoftState) (s : serveState) : serveState :=
  {| ticking := ticking s; soft := v; submitC := submitC s; bc := bc s; propC := propC s;
     cancelProp := cancelProp s; serving := serving s |}.

Definition set_submitC (v : bool) (s : serveState) : serveState :=
  {| ticking := ticking s; soft := soft s; submitC := v; bc := bc s; propC := propC s;
     cancelProp := cancelProp s; serving := serving s |}.

Definition set_bc (v : option blockCreator) (s : serveState) : serveState :=
  {| ticking := ticking s; soft := soft s; submitC := submitC s; bc := v; propC := propC s;
     cancelProp := cancelProp s; serving := serving s |}.

Definition set_proposer (v : bool) (s : serveState) : serveState :=
  {| ticking := ticking s; soft := soft s; submitC := submitC s; bc := bc s; propC := v;
     cancelProp := v; serving := serving s |}.

Definition set_serving (v : bool) (s : serveState) : serveState :=
  {| ticking := ticking s; soft := soft s; submitC := submitC s; bc := bc s; propC := propC s;
     cancelProp := cancelProp s; serving := v |}.

(** The state [serveRequest] starts in. *)
Definition serveState_init : serveState :=
  {| ticking := false;
     soft := {| Lead := 0; RaftState := StateFollower |};
     submitC := true;
     bc := None;
     propC := false;
     cancelProp := false;
     serving := true |}.

Definition isCandidate (state : StateType) : bool :=
  bool_decide (state = StatePreCandidate) || bool_decide (state = StateCandidate).

Section ServeRequest.

Context `{Codec} `{BlockCreator}.

(** The closure [becomeLeader] *)
Definition becomeLeader (s : serveState) : M serveState :=
  modify (set_blockInflight 0%Z);;
  modify (set_justElected true);;
  cc ← getInFlightConfChange;
  match cc with
  | Some cc =>
      emit (GoProposeConfChange cc);;
      modify (set_confChangeInProgress (Some cc));;
      modify (set_configInflight true)
  | None => mret tt
  end;;
  emit GoProposer;;
  mret (set_proposer true (set_submitC false s)).

(** The closure [becomeFollower] *)
Definition becomeFollower (s : serveState) : M serveState :=
  when (cancelProp s) (emit CancelProposer);;
  modify (set_blockInflight 0%Z);;
  emit BlockCutterCut;;
  mret (set_bc None (set_submitC true (set_ticking false s))).

(** The part of the [applyC] arm that handles a new soft state. *)
Definition onSoftState (newSoft : SoftState) (s : serveState) : M serveState :=
  let newLeader := Lead newSoft in
  s' ← (if bool_decide (newLeader ≠ Lead (soft s)) then
          modify (set_lastKnownLeader newLeader);;
          c ← get;
          s1 ← (if bool_decide (newLeader = raftID c) then becomeLeader s else mret s);
          (if bool_decide (Lead (soft s) = raftID c) then becomeFollower s1 else mret s1)
        else mret s);
  let foundLeader :=
    bool_decide (Lead (soft s) = raft_None) && bool_decide (newLeader ≠ raft_None) in
  let quitCandidate :=
    isCandidate (RaftState (soft s)) && negb (isCandidate (RaftState newSoft)) in
  when (foundLeader || quitCandidate) make_errorC;;
  when (isCandidate (RaftState newSoft) || bool_decide (newLeader = raft_None))
       (modify (set_lastKnownLeader raft_None);;
        c ← get;
        if errorC_closed c then mret tt
        else
          let nodeCount := size (Consenters (opts_BlockMetadata c)) in
          if bool_decide (2 < nodeCount)%nat then close_errorC
          else mret tt);;
  let soft := {| Lead := newLeader; RaftState := RaftState newSoft |} in
  emit (OfferObserve soft);;
  mret (set_soft soft (s' : serveState)).

(** The [applyC] arm.  [lastIndex] is what [c.Node.lastIndex()] answers. *)
Definition onApply (gcReady : bool) (lastIndex : N) (app : applyMsg) (s : serveState)
    : M serveState :=
  s ← match app_soft app with
      | Some newSoft => onSoftState newSoft s
      | None => mret s
      end;
  apply gcReady (entries app);;
  c ← get;
  if justElected c then
    let msgInflight := appliedIndex c <? lastIndex in
    if msgInflight then mret s
    else if configInflight c then mret s
    else
      modify (set_justElected false);;
      mret (set_submitC true
              (set_bc (Some {| bc_hash := HeaderHash (Header (lastBlock c));
                               bc_number := Number (Header (lastBlock c)) |}) s))
  else if configInflight c then mret (set_submitC false s)
  else if bool_decide (blockInflight c < opts_MaxInflightMsgs c)%Z then mret (set_submitC true s)
  else mret s.

(** The [snapC] arm. *)
Definition onSnapshot (fuel : nat) (sn : Snapshot) (s : serveState) : M serveState :=
  c ← get;
  proceed ← (if negb (Index (Snap_Metadata sn) =? 0) then
               if Index (Snap_Metadata sn) <=? appliedIndex c then mret false
               else
                 modify (set_confState (SM_ConfState (Snap_Metadata sn)));;
                 modify (set_appliedIndex (Index (Snap_Metadata sn)));;
                 mret true
             else mret true);
  if (proceed : bool) then
    err ← catchUp fuel sn;
    match err with
    | Some _ => panicf "Failed to recover from snapshot"
    | None => mret s
    end
  else mret s.

(** The [doneC] arm. *)
Definition onDone (s : serveState) : M serveState :=
  when (cancelProp s) (emit CancelProposer);;
  c ← get;
  when (negb (errorC_closed c)) close_errorC;;
  emit PeriodicCheckerStop;;
  mret (set_serving false s).

(** [isConfig] *)
Definition isConfig (env : Envelope) : M bool :=
  match utils_ChannelHeader env with
  | Err _ => panicf "failed to extract channel header from envelope"
  | Ok h =>
      mret (bool_decide (CH_Type h = HeaderType_CONFIG)
            || bool_decide (CH_Type h = HeaderType_ORDERER_TRANSACTION))
  end.

(** [checkConsentersSet]; the result is the error, if any. *)
Definition checkConsentersSet (configValue : ConfigValue) : M (option string) :=
  match MetadataFromConfigValue configValue with
  | Err err => mret (Some err)
  | Ok updatedMetadata =>
      match MetadataHasDuplication (Some updatedMetadata) with
      | Panic p => raise p
      | OutOfFuel => outOfFuel
      | Ret (Some _) => mret (Some "duplicate or nil consenter")
      | Ret None =>
          c ← get;
          match derefConsenters (CM_Consenters updatedMetadata) with
          | None => raise PanicNilDereference
          | Some newConsenters =>
              match ComputeMembershipChanges (opts_BlockMetadata c) newConsenters with
              | Err _ => mret (Some "update of more than one consenter at a time is not supported")
              | Ok _ => mret None
              end
          end
      end
  end.

(** [checkConfigUpdateValidity]; the result is the error, if any.  The
    header of the payload, the write set, the orderer group and the value
    are dereferenced without a test ([payload.Header.ChannelHeader],
    [configUpdate.WriteSet.Groups], [ordererConfigGroup.Values], and
    [configValue.Value] in [MetadataFromConfigValue], the first statement
    of [checkConsentersSet]). *)
Definition checkConfigUpdateValidity (ctx : Envelope) : M (option string) :=
  match UnmarshalPayload (Env_Payload ctx) with
  | Err err => mret (Some err)
  | Ok payload =>
      match P_Header payload with
      | None => raise PanicNilDereference
      | Some channelHeader =>
          match UnmarshalChannelHeader channelHeader with
          | Err err => mret (Some err)
          | Ok chdr =>
              if bool_decide (CH_Type chdr = HeaderType_ORDERER_TRANSACTION) then mret None
              else if bool_decide (CH_Type chdr = HeaderType_CONFIG) then
                match UnmarshalConfigUpdateFromPayload payload with
                | Err err => mret (Some err)
                | Ok configUpdate =>
                    match WriteSet configUpdate with
                    | None => raise PanicNilDereference
                    | Some groups =>
                        match groups !! "Orderer" with
                        | Some None => raise PanicNilDereference
                        | Some (Some ordererConfigGroup) =>
                            match Values ordererConfigGroup !! "ConsensusType" with
                            | Some None => raise PanicNilDereference
                            | Some (Some val) => checkConsentersSet val
                            | None => mret None
                            end
                        | None => mret None
                        end
                    end
                end
              else mret (Some "config transaction has unknown header type")
          end
      end
  end.

(** [ordered]: the batches cut, whether envelopes are pending, and the
    error, if any. *)
Definition ordered (msg : SubmitRequest)
    : M (list (list Envelope) * bool * option string) :=
  c ← get;
  let seq := Sequence (support c) (trace c) in
  config ← isConfig (SR_Payload msg);
  if (config : bool) then
    r ← (if LastValidationSeq msg <? seq then
           c ← get;
           emit (ProcessConfigMsg (SR_Payload msg));;
           match support_ProcessConfigMsg (support c) (trace c) (SR_Payload msg) with
           | Err err => mret (Err "bad config message")
           | Ok payload =>
               err ← checkConfigUpdateValidity payload;
               match err with
               | Some _ => mret (Err "bad config message")
               | None => mret (Ok payload)
               end
           end
         else mret (Ok (SR_Payload msg)));
    match r with
    | Err err => mret ([], true, Some err)
    | Ok payload =>
        c ← get;
        emit BlockCutterCut;;
        let batch := BlockCutter_Cut (support c) (trace c) in
        let batches := if bool_decide (length batch ≠ 0%nat) then [batch] else [] in
        mret (batches ++ [[payload]], false, None)
    end
  else
    r ← (if LastValidationSeq msg <? seq then
           c ← get;
           emit (ProcessNormalMsg (SR_Payload msg));;
           mret (support_ProcessNormalMsg (support c) (trace c) (SR_Payload msg))
         else mret None);
    match r with
    | Some _ => mret ([], true, Some "bad normal message")
    | None =>
        c ← get;
        emit (BlockCutterOrdered (SR_Payload msg));;
        let '(batches, pending) := BlockCutter_Ordered (support c) (trace c) (SR_Payload msg) in
        mret (batches, pending, None)
    end.

(** [propose].  [room] is the number of blocks the leader's block channel
    takes before it is full; a nil channel takes none. *)
Fixpoint propose (room : nat) (ch : bool) (bc : option blockCreator)
    (batches : list (list Envelope)) {struct batches} : M (option blockCreator) :=
  match batches with
  | [] => mret bc
  | batch :: batches =>
      match bc with
      | None => raise PanicNilDereference
      | Some creator =>
          let '(b, creator) := createNextBlock creator batch in
          match ch, room with
          | true, S room =>
              emit (SendBlock b);;
              when (IsConfigBlock b) (modify (set_configInflight true));;
              modify (fun c => set_blockInflight (blockInflight c + 1)%Z c);;
              propose room ch (Some creator) batches
          | _, _ =>
              panicf "Programming error: limit of in-flight blocks does not properly take effect or block is proposed by follower"
          end
      end
  end.

(** The [submitC] arm; [msg] is [None] for the nil that [WaitReady] sends. *)
Definition onSubmit (room : nat) (msg : option SubmitRequest) (s : serveState)
    : M serveState :=
  match msg with
  | None => mret s
  | Some req =>
      if isCandidate (RaftState (soft s)) then
        emit (ReplyLeader raft_None);; mret s
      else
        emit (ReplyLeader (Lead (soft s)));;
        c ← get;
        if bool_decide (Lead (soft s) ≠ raftID c) then mret s
        else
          '(batches, pending, err) ← ordered req;
          match err with
          | Some _ => mret s
          | None =>
              let s := set_ticking pending s in
              bc' ← propose room (propC s) (bc s) batches;
              let s := set_bc bc' s in
              c ← get;
              if configInflight c then mret (set_submitC false s)
              else if bool_decide (opts_MaxInflightMsgs c ≤ blockInflight c)%Z then
                mret (set_submitC false s)
              else mret s
          end
  end.

(** The arm of the batch timer. *)
Definition onTimer (room : nat) (s : serveState) : M serveState :=
  let s := set_ticking false s in
  c ← get;
  emit BlockCutterCut;;
  let batch := BlockCutter_Cut (support c) (trace c) in
  if bool_decide (length batch = 0%nat) then mret s
  else
    bc' ← propose room (propC s) (bc s) [batch];
    mret (set_bc bc' s).

End ServeRequest.

(** What the main loop can receive, with what the outside answers while the
    arm runs.  A submission is received only while [submitC] is not nil. *)
Inductive event :=
| EvSubmit (room : nat) (msg : option SubmitRequest)
| EvApply (gcReady : bool) (lastIndex : N) (app : applyMsg)
| EvTimer (room : nat)
| EvSnapshot (sn : Snapshot)
| EvDone.

Definition serveRequest_arm `{Codec} `{BlockCreator} (fuel : nat) (ev : event) (s : serveState) : M serveState :=
  match ev with
  | EvSubmit room msg => onSubmit room msg s
  | EvApply gcReady lastIndex app => onApply gcReady lastIndex app s
  | EvTimer room => onTimer room s
  | EvSnapshot sn => onSnapshot fuel sn s
  | EvDone => onDone s
  end.

(** ** The words of the specification *)

(** A consenter is keyed in a set of consenters when one of them has its
    client certificate. *)
Definition keyed_in (consenters : list Consenter) (c : Consenter) : Prop :=
  Exists (fun c' => ClientTlsCert c' = ClientTlsCert c) consenters.

#[global] Instance keyed_in_dec consenters c : Decision (keyed_in consenters c).
Proof. unfold keyed_in. apply _. Defined.

(** [added]: the consenters in new not keyed in old. *)
Definition added (oldMetadata : BlockMetadata) (newConsenters : list Consenter) : list Consenter :=
  filter (fun c => ¬ keyed_in (map_to_list (Consenters oldMetadata)).*2 c) newConsenters.

(** [removed]: the consenters in old, with their raft ids, not keyed in new. *)
Definition removed (oldMetadata : BlockMetadata) (newConsenters : list Consenter)
    : list (N * Consenter) :=
  filter (fun kc => ¬ keyed_in newConsenters kc.2) (map_to_list (Consenters oldMetadata)).

(** The certificates in a consenter slot. *)
Definition slot_certs (c : Consenter) : list string := [ServerTlsCert c; ClientTlsCert c].

(** Some certificate byte-string appears in more than one consenter slot. *)
Definition cert_in_two_slots (md : ConfigMetadata) : Prop :=
  ∃ (i j : nat) (ci cj : Consenter) (cert : string),
    i ≠ j ∧ CM_Consenters md !! i = Some (Some ci) ∧ CM_Consenters md !! j = Some (Some cj)
    ∧ cert ∈ slot_certs ci ∧ cert ∈ slot_certs cj.

(** The sequence numbers [from], [from + 1], ..., [to]. *)
Definition seq_range (from to : N) : list N :=
  (fun k => from + N.of_nat k) <$> seq 0 (N.to_nat (to + 1 - from)).

(** The key of the last pair of a list, or [d]. *)
Definition last_key (d : N) (l : list (N * Consenter)) : N :=
  from_option fst d (last l).

(** A certificate of some slot is in [seen] or in an earlier slot. *)
Definition dup_from (seen : gset string) (cs : list Consenter) : Prop :=
  ∃ (j : nat) (cj : Consenter) (cert : string),
    cs !! j = Some cj ∧ cert ∈ slot_certs cj
    ∧ (cert ∈ seen
       ∨ ∃ (i : nat) (ci : Consenter), (i < j)%nat ∧ cs !! i = Some ci ∧ cert ∈ slot_certs ci).

(** What [confirmSuspicion] asks for one sequence number. *)
Definition pull_then_write (puller : BlockPuller) (seq : N) : list es_call :=
  [CallPullBlock seq; CallWriteBlock (BP_PullBlock puller seq)].

(** The calls of [confirmSuspicion] up to the membership check. *)
Definition calls_to_check (lastConfigBlock : Block) : list es_call :=
  [CallCreatePuller; CallPullLastConfigBlock; CallHeight; CallAmIInChannel lastConfigBlock].

(** The ledger: the blocks the chain has written, with their metadata. *)
Definition is_ledger_write (e : effect) : bool :=
  match e with
  | WriteBlock _ _ | WriteConfigBlock _ _ => true
  | _ => false
  end.

Definition ledger (c : Chain) : list effect := filter (fun e => is_ledger_write e = true) (trace c).

Section ConfigFailure.

Context `{Codec}.

(** Some consenter other than this node has a certificate that is not PEM. *)
Definition bad_pem (self : N) (md : BlockMetadata) : Prop :=
  ∃ (id : N) (c : Consenter),
    Consenters md !! id = Some c ∧ id ≠ self
    ∧ (pem_Decode (ServerTlsCert c) = None ∨ pem_Decode (ClientTlsCert c) = None).

(** The ways a config block is rejected before it is written, on a chain
    whose block metadata is [md]: its header or its consensus metadata
    cannot be read, the reading of the metadata dereferences nil, a
    consenter is nil, or more than one consenter is added or removed. *)
Inductive config_rejected (md : BlockMetadata) (block : Block) : Prop :=
| HeaderUnreadable :
    is_err (ConfigChannelHeader block) = true →
    config_rejected md block
| HeaderTypeUnexpected hdr :
    ConfigChannelHeader block = Ok hdr →
    CH_Type hdr ≠ HeaderType_CONFIG → CH_Type hdr ≠ HeaderType_ORDERER_TRANSACTION →
    config_rejected md block
| MetadataUnreadable hdr err :
    ConfigChannelHeader block = Ok hdr → CH_Type hdr = HeaderType_CONFIG →
    ConsensusMetadataFromConfigBlock (Some block) = Ret (Err err) →
    config_rejected md block
| MetadataNilDereference hdr p :
    ConfigChannelHeader block = Ok hdr → CH_Type hdr = HeaderType_CONFIG →
    ConsensusMetadataFromConfigBlock (Some block) = Panic p →
    config_rejected md block
| NilConsenter hdr configMetadata :
    ConfigChannelHeader block = Ok hdr → CH_Type hdr = HeaderType_CONFIG →
    ConsensusMetadataFromConfigBlock (Some block) = Ret (Ok (Some configMetadata)) →
    None ∈ CM_Consenters configMetadata →
    config_rejected md block
| MoreThanOneConsenter hdr configMetadata newConsenters :
    ConfigChannelHeader block = Ok hdr → CH_Type hdr = HeaderType_CONFIG →
    ConsensusMetadataFromConfigBlock (Some block) = Ret (Ok (Some configMetadata)) →
    CM_Consenters configMetadata = Some <$> newConsenters →
    (1 < length (added md newConsenters) ∨ 1 < length (removed md newConsenters))%nat →
    config_rejected md block.

(** The one way the handling fails after the block is written: the block
    rotates a certificate and the communication cannot be configured for
    the new consenter set, on a chain whose raft id is [self]. *)
Inductive comm_failure (self : N) (md : BlockMetadata) (block : Block) : Prop :=
| RotationBadPem hdr configMetadata newConsenters changes :
    ConfigChannelHeader block = Ok hdr → CH_Type hdr = HeaderType_CONFIG →
    ConsensusMetadataFromConfigBlock (Some block) = Ret (Ok (Some configMetadata)) →
    CM_Consenters configMetadata = Some <$> newConsenters →
    ComputeMembershipChanges md newConsenters = Ok changes →
    Rotated changes = true →
    bad_pem self (NewBlockMetadata changes) →
    comm_failure self md block.

(** The ways the handling of a config block fails. *)
Definition config_failure (self : N) (md : BlockMetadata) (block : Block) : Prop :=
  config_rejected md block ∨ comm_failure self md block.

End ConfigFailure.

(** What a chain [c'] owes to the writing of [block] at raft index [index]
    on the chain [c]: the block is the ledger's last, written with block
    metadata that carry the index. *)
Definition block_written (config : bool) (block : Block) (index : N) (c c' : Chain) : Prop :=
  RaftIndex (opts_BlockMetadata c') = index
  ∧ ledger c'
    = ledger c ++ [(if config then WriteConfigBlock else WriteBlock)
                     block (Some (opts_BlockMetadata c'))].

(** The chain a call leaves behind: the one it returns with, or the one it
    had made when it panicked. *)
Definition left_by {A : Type} (r : outcome Chain (A * Chain)) : option Chain :=
  match r with
  | Ret (_, c') => Some c'
  | PanicAt _ c' => Some c'
  | OutOfFuel => None
  end.

(** The block number [writeBlock] expects. *)
Definition expected (c : Chain) : N := add64 (Number (Header (lastBlock c))) 1.

(** The channel [Errored] returns, and whether it is closed. *)
Definition errored (c : Chain) : nat * bool := (errorC c, errorC_closed c).

(** A method leaves an observation of the chain as it found it. *)
Definition preserves {A X : Type} (P : Chain -> X) (m : M A) : Prop :=
  ∀ c a c', m c = Ret (a, c') → P c' = P c.

(** A soft state without a leader: the node is a candidate or knows none. *)
Definition leaderless (newSoft : SoftState) : Prop :=
  isCandidate (RaftState newSoft) = true ∨ Lead newSoft = raft_None.

(** A leader is found, or the node quits the candidate state. *)
Definition leader_found (old newSoft : SoftState) : Prop :=
  (Lead old = raft_None ∧ Lead newSoft ≠ raft_None)
  ∨ (isCandidate (RaftState old) = true ∧ isCandidate (RaftState newSoft) = false).

#[global] Instance leaderless_dec newSoft : Decision (leaderless newSoft).
Proof. unfold leaderless. apply _. Defined.

#[global] Instance leader_found_dec old newSoft : Decision (leader_found old newSoft).
Proof. unfold leader_found. apply _. Defined.

(** What the handling of a new soft state makes of the errored channel: a
    new open channel when a leader is found, closed when the new state is
    leaderless, the channel is open and there are more than two consenters. *)
Definition errored_after (old newSoft : SoftState) (c : Chain) : nat * bool :=
  let replaced := if decide (leader_found old newSoft) then (S (errorC c), false) else errored c in
  if decide (leaderless newSoft ∧ replaced.2 = false
             ∧ (2 < size (Consenters (opts_BlockMetadata c)))%nat)
  then (replaced.1, true)
  else replaced.

(** What the leader change of a soft state leaves alone. *)
Definition leader_view (c : Chain) : nat * bool * BlockMetadata :=
  (errored c, opts_BlockMetadata c).

(** ** Concrete consenter sets *)

Module Examples.

Definition c1 : Consenter :=
  {| Host := "orderer1"; Port := 7050; ClientTlsCert := "client1"; ServerTlsCert := "server1" |}.
Definition c2 : Consenter :=
  {| Host := "orderer2"; Port := 7050; ClientTlsCert := "client2"; ServerTlsCert := "server2" |}.
Definition c3 : Consenter :=
  {| Host := "orderer3"; Port := 7050; ClientTlsCert := "client3"; ServerTlsCert := "server3" |}.
(** [c3] with rotated certificates *)
Definition c3' : Consenter :=
  {| Host := "orderer3"; Port := 7050; ClientTlsCert := "client3b"; ServerTlsCert := "server3b" |}.
(** [c3] with rotated certificates of which the server's is not PEM *)
Definition c3_no_pem : Consenter :=
  {| Host := "orderer3"; Port := 7050; ClientTlsCert := "client3c"; ServerTlsCert := "" |}.
Definition c4 : Consenter :=
  {| Host := "orderer4"; Port := 7050; ClientTlsCert := "client4"; ServerTlsCert := "server4" |}.
Definition c5 : Consenter :=
  {| Host := "orderer5"; Port := 7050; ClientTlsCert := "client5"; ServerTlsCert := "server5" |}.

(** Consenters 1, 2 and 3; the next id is 4. *)
Definition three_nodes : BlockMetadata :=
  {| Consenters := <[1 := c1]> (<[2 := c2]> (<[3 := c3]> ∅));
     NextConsenterId := 4;
     RaftIndex := 0 |}.

(** [c2] with the client certificate of [c1] as its server certificate *)
Definition c2_shares_cert : Consenter :=
  {| Host := "orderer2"; Port := 7050; ClientTlsCert := "client2"; ServerTlsCert := "client1" |}.

(** One consenter under id 1, and a next id that is not past it. *)
Definition stale_next_id : BlockMetadata :=
  {| Consenters := <[1 := c1]> ∅;
     NextConsenterId := 1;
     RaftIndex := 0 |}.

Definition block (number : N) (data : list string) : Block :=
  {| Header := {| Number := number; PreviousHash := ""; DataHash := "" |};
     Data := data;
     Metadata := [] |}.

(** A puller over a ledger of height 0, which a remote puller backs. *)
Definition empty_ledger_puller : LedgerBlockPuller :=
  {| LBP_BlockPuller := {| BP_PullBlock := fun seq => Some (block seq ["remote"]) |};
     BlockRetriever := fun _ => None;
     LBP_Height := fun _ => 0 |}.

(** A puller over a ledger that holds blocks 0 to 47. *)
Definition ledger_puller_48 : LedgerBlockPuller :=
  {| LBP_BlockPuller := {| BP_PullBlock := fun seq => Some (block seq ["remote"]) |};
     BlockRetriever := fun seq => if seq <? 48 then Some (block seq ["local"]) else None;
     LBP_Height := fun _ => 48 |}.

(** A codec for the examples.  The one envelope of a block names what the
    block is: ["tx"] for a normal block, ["ordtx"] for an orderer
    transaction, and for a config block the consenter set it writes.  An
    empty payload decodes to a payload without a header, and the config
    update ["config:no-write-set"] has a nil write set. *)
Definition config_consenters (name : string) : option (list Consenter) :=
  if String.eqb name "config:same" then Some [c1; c2; c3]
  else if String.eqb name "config:rotate" then Some [c1; c2; c3']
  else if String.eqb name "config:rotate-no-pem" then Some [c1; c2; c3_no_pem]
  else if String.eqb name "config:add" then Some [c1; c2; c3; c4]
  else if String.eqb name "config:add-two" then Some [c1; c2; c3; c4; c5]
  else None.

Definition header_type (name : string) : Z :=
  if String.eqb name "tx" then 3%Z
  else if String.eqb name "ordtx" then HeaderType_ORDERER_TRANSACTION
  else HeaderType_CONFIG.

Definition known_blocks : list Block :=
  [block 1 ["tx"]; block 5 ["tx"]; block 49 ["config:same"]].

Definition marshal (b : Block) : string :=
  String.concat "/" (pretty (Number (Header b)) :: Data b).

#[local] Instance codec : Codec :=
  {| MarshalBlock := marshal;
     UnmarshalBlock := fun data =>
       match List.find (fun b => String.eqb (marshal b) data) known_blocks with
       | Some b => Ok b
       | None => Err "unknown block"
       end;
     IsConfigBlock := fun b =>
       match Data b with
       | [name] => negb (String.eqb name "tx")
       | _ => false
       end;
     ExtractEnvelope := fun b i =>
       match Data b !! i with
       | Some name => Ok {| Env_Payload := name; Env_Signature := "" |}
       | None => Err "no envelope"
       end;
     utils_ChannelHeader := fun env => Ok {| CH_Type := header_type (Env_Payload env) |};
     UnmarshalPayload := fun data =>
       Ok {| P_Header := if String.eqb data "" then None else Some ""; P_Data := data |};
     UnmarshalEnvelope := fun data => Ok {| Env_Payload := data; Env_Signature := "" |};
     ExtractPayload := fun env => Ok {| P_Header := Some ""; P_Data := Env_Payload env |};
     UnmarshalConfigUpdateFromPayload := fun payload =>
       Ok {| WriteSet :=
               if String.eqb (P_Data payload) "config:no-write-set" then None
               else Some {[ "Orderer" :=
                              Some {| Values := {[ "ConsensusType" :=
                                                     Some {| Value := P_Data payload |} ]} |} ]} |};
     UnmarshalConsensusType := fun data => Ok {| CT_Metadata := data |};
     UnmarshalConfigMetadata := fun data =>
       match config_consenters data with
       | Some consenters =>
           Ok {| CM_Consenters := Some <$> consenters; CM_Options := None |}
       | None => Err "unknown metadata"
       end;
     UnmarshalConfChange := fun data =>
       if String.eqb data "add:4" then Ok {| Type_ := ConfChangeAddNode; NodeID := 4 |}
       else Err "unknown conf change";
     UnmarshalChannelHeader := fun data => Ok {| CH_Type := header_type data |};
     GetLastConfigIndexFromBlock := fun _ => Ok 0;
     HeaderHash := fun h => pretty (Number h);
     pem_Decode := fun data => if String.eqb data "" then None else Some data |}.

#[local] Instance block_creator : BlockCreator :=
  {| createNextBlock := fun creator batch =>
       let number := add64 (bc_number creator) 1 in
       (block number (Env_Payload <$> batch),
        {| bc_hash := pretty number; bc_number := number |}) |}.

(** The self-eviction scenario: the cluster's last config block is block
    49, it does not list this node, and the local ledger has height 48. *)
Definition evicted_suspector : evictionSuspector :=
  {| evictionSuspicionThreshold := 600;
     createPuller := fun _ =>
       Ok {| BP_PullBlock := fun seq =>
               Some (block seq [if seq =? 49 then "config:same" else "tx"]) |};
     pullLastConfigBlock := fun _ => Ok (block 49 ["config:same"]);
     height := fun _ => 48;
     amIInChannel := fun _ => Some ErrNotInChannel;
     es_writeBlock := fun _ _ => None;
     halted := false |}.

(** The same node when the config block still lists it. *)
Definition member_suspector : evictionSuspector :=
  {| evictionSuspicionThreshold := 600;
     createPuller := createPuller evicted_suspector;
     pullLastConfigBlock := pullLastConfigBlock evicted_suspector;
     height := height evicted_suspector;
     amIInChannel := fun _ => None;
     es_writeBlock := fun _ _ => None;
     halted := false |}.

(** A chain of three consenters whose ledger ends with block 4, applied
    up to raft index 7. *)
Definition chain_at_4 : Chain :=
  {| raftID := 1;
     channelID := "mychannel";
     lastKnownLeader := 0;
     startC_closed := false;
     doneC_closed := false;
     errorC := 0;
     errorC_closed := false;
     confChangeInProgress := None;
     justElected := false;
     configInflight := false;
     blockInflight := 0;
     lastBlock := block 4 ["tx"];
     appliedIndex := 7;
     sizeLimit := 1000;
     accDataSize := 0;
     lastSnapBlockNum := 0;
     confState := {| Nodes := [1; 2; 3]; Learners := [] |};
     fresh := false;
     opts_BlockMetadata := three_nodes;
     opts_MaxInflightMsgs := 5;
     support := {| Height := fun _ => 5;
                   Sequence := fun _ => 0;
                   support_ProcessConfigMsg := fun _ msg => Ok msg;
                   support_ProcessNormalMsg := fun _ _ => None;
                   BlockCutter_Cut := fun _ => [];
                   BlockCutter_Ordered := fun _ msg => ([[msg]], false);
                   Kafka2RaftMigration := false;
                   IsSystemChannel := false;
                   ConsensusMigrationState := MIG_STATE_NONE |};
     chain_createPuller := fun _ => Ok {| BP_PullBlock := fun seq => Some (block seq ["tx"]) |};
     Node := {| Node_ApplyConfChange := fun _ _ => {| Nodes := [1; 2; 3]; Learners := [] |} |};
     trace := [] |}.

(** The same chain with the single consenter 1. *)
Definition single_node_chain : Chain :=
  set_confState {| Nodes := [1]; Learners := [] |}
    (set_opts_BlockMetadata
       {| Consenters := <[1 := c1]> ∅; NextConsenterId := 2; RaftIndex := 7 |}
       chain_at_4).

(** A snapshot taken at raft index 7 of block 4. *)
Definition snapshot_at_7 : Snapshot :=
  {| Snap_Data := marshal (block 4 ["tx"]);
     Snap_Metadata := {| SM_ConfState := {| Nodes := [1; 2]; Learners := [] |};
                         Index := 7;
                         Term := 2 |} |}.

End Examples.

(** ** More of util.go *)

(** The answer of [ComputeMembershipChanges] when nothing changes. *)
Definition unchanged (oldMetadata : BlockMetadata) : MembershipChanges :=
  {| NewBlockMetadata := oldMetadata;
     AddedNodes := [];
     RemovedNodes := [];
     MC_ConfChange := None;
     RotatedNode := 0 |}.

(** Every raft id in use is below the next consenter id. *)
Definition ids_below_next (md : BlockMetadata) : Prop :=
  ∀ id c, Consenters md !! id = Some c → id < NextConsenterId md.

#[global] Instance ids_below_next_dec md : Decision (ids_below_next md).
Proof.
  refine (cast_if (decide (map_Forall (fun id _ => id < NextConsenterId md) (Consenters md))));
    unfold ids_below_next, map_Forall in *; done.
Defined.

(** ** util.go: IsConsenterOfChannel *)

(** The orderer configuration of a bundle of [common/channelconfig], as far
    as the package reads it: the encoded consensus metadata. *)
Record OrdererConfig := {
  ConsensusMetadata : string;
}.

Record Bundle := {
  Bundle_OrdererConfig : option OrdererConfig;
}.

(** [channelconfig.NewBundleFromEnvelope], which is outside the package. *)
Class ChannelConfig := {
  NewBundleFromEnvelope : Envelope -> result string Bundle;
}.

(** The loop of [IsConsenterOfChannel]: it returns at the first consenter
    one of whose certificates is [conCert], and reads both certificates of
    every consenter before. *)
Fixpoint consenterOfChannelLoop (conCert : string) (consenters : list (option Consenter))
    : run (option membership_error) :=
  match consenters with
  | [] => Ret (Some ErrNotInChannel)
  | None :: _ => Panic PanicNilDereference
  | Some consenter :: rest =>
      if bool_decide (conCert = ServerTlsCert consenter)
         || bool_decide (conCert = ClientTlsCert consenter)
      then Ret None
      else consenterOfChannelLoop conCert rest
  end.

Section IsConsenterOfChannel.

Context `{Codec} `{ChannelConfig}.

(** [ConsenterCertificate.IsConsenterOfChannel]; the result is the error,
    if any.  An error of a decoder is an error other than
    [cluster.ErrNotInChannel]. *)
Definition IsConsenterOfChannel (conCert : string) (configBlock : option Block)
    : run (option membership_error) :=
  match configBlock with
  | None => Ret (Some (ErrOther "nil block"))
  | Some configBlock =>
      match ExtractEnvelope configBlock 0 with
      | Err err => Ret (Some (ErrOther err))
      | Ok envelopeConfig =>
          match NewBundleFromEnvelope envelopeConfig with
          | Err err => Ret (Some (ErrOther err))
          | Ok bundle =>
              match Bundle_OrdererConfig bundle with
              | None => Ret (Some (ErrOther "no orderer config in bundle"))
              | Some oc =>
                  match UnmarshalConfigMetadata (ConsensusMetadata oc) with
                  | Err err => Ret (Some (ErrOther err))
                  | Ok m => consenterOfChannelLoop conCert (CM_Consenters m)
                  end
              end
          end
      end
  end.

(** The consenters [IsConsenterOfChannel] reads in a config block. *)
Definition channel_consenters (configBlock : Block) : option (list (option Consenter)) :=
  match ExtractEnvelope configBlock 0 with
  | Err _ => None
  | Ok envelopeConfig =>
      match NewBundleFromEnvelope envelopeConfig with
      | Err _ => None
      | Ok bundle =>
          match Bundle_OrdererConfig bundle with
          | None => None
          | Some oc =>
              match UnmarshalConfigMetadata (ConsensusMetadata oc) with
              | Err _ => None
              | Ok m => Some (CM_Consenters m)
              end
          end
      end
  end.

End IsConsenterOfChannel.

(** ** util.go: PeriodicCheck *)

(** A [time.Time] is the number of nanoseconds since the zero time, so that
    [IsZero] is the comparison with 0; a [time.Duration] is an [int64] of
    nanoseconds, and [Time.Sub] answers the largest or the smallest duration
    when the difference is out of range. *)
Definition maxDuration : Z := 2 ^ 63 - 1.
Definition minDuration : Z := - 2 ^ 63.

Definition Time_Sub (t u : Z) : Z := Z.max minDuration (Z.min maxDuration (t - u)).

(** The fields of [PeriodicCheck] that change.  [once] tells whether the
    [sync.Once] is done; [stopped] is a [uint32]. *)
Record PeriodicCheck := {
  conditionHoldsSince : Z;
  once : bool;
  stopped : N;
}.

(** What one run of [check] is answered: by [Condition], by [time.Now] in
    [conditionFulfilled] when it is asked, and by the clock in
    [time.Since]. *)
Record tick := {
  condition : bool;
  now : Z;
  now_since : Z;
}.

Definition conditionNotFulfilled (pc : PeriodicCheck) : PeriodicCheck :=
  {| conditionHoldsSince := 0; once := once pc; stopped := stopped pc |}.

(** [conditionFulfilled], with the period it reports. *)
Definition conditionFulfilled (t : tick) (pc : PeriodicCheck) : PeriodicCheck * Z :=
  let pc :=
    if bool_decide (conditionHoldsSince pc = 0%Z) then
      {| conditionHoldsSince := now t; once := once pc; stopped := stopped pc |}
    else pc in
  (pc, Time_Sub (now_since t) (conditionHoldsSince pc)).

Definition shouldRun (pc : PeriodicCheck) : bool := bool_decide (stopped pc = 0).

(** [Stop]: [atomic.AddUint32] wraps. *)
Definition PeriodicCheck_Stop (pc : PeriodicCheck) : PeriodicCheck :=
  {| conditionHoldsSince := conditionHoldsSince pc;
     once := once pc;
     stopped := (stopped pc + 1) mod 2 ^ 32 |}.

(** [check]: the period reported, if any, and whether [time.AfterFunc]
    schedules the next check. *)
Definition check (t : tick) (pc : PeriodicCheck) : PeriodicCheck * option Z * bool :=
  let '(pc, report) :=
    if condition t then
      let '(pc, period) := conditionFulfilled t pc in (pc, Some period)
    else (conditionNotFulfilled pc, None) in
  (pc, report, shouldRun pc).

(** What happens to a [PeriodicCheck]: [Run] is called, a timer that
    [time.AfterFunc] has set fires, or [Stop] is called. *)
Inductive pc_event :=
| PcRun (t : tick)
| PcFire (t : tick)
| PcStop.

(** The check with the number of timers that are set.  [Run] runs [check]
    through the [sync.Once]; a timer that fires runs [check]. *)
Definition pc_step (ev : pc_event) (st : PeriodicCheck * nat)
    : (PeriodicCheck * nat) * option Z :=
  let '(pc, timers) := st in
  match ev with
  | PcRun t =>
      if once pc then (st, None)
      else
        let pc := {| conditionHoldsSince := conditionHoldsSince pc;
                     once := true;
                     stopped := stopped pc |} in
        let '(pc, report, again) := check t pc in
        ((pc, if again then S timers else timers), report)
  | PcFire t =>
      match timers with
      | O => (st, None)
      | S timers =>
          let '(pc, report, again) := check t pc in
          ((pc, if again then S timers else timers), report)
      end
  | PcStop => ((PeriodicCheck_Stop pc, timers), None)
  end.

(** A sequence of events, with what each of them reports. *)
Fixpoint pc_steps (evs : list pc_event) (st : PeriodicCheck * nat)
    : (PeriodicCheck * nat) * list (option Z) :=
  match evs with
  | [] => (st, [])
  | ev :: evs =>
      let '(st, report) := pc_step ev st in
      let '(st, reports) := pc_steps evs st in
      (st, report :: reports)
  end.

(** A [PeriodicCheck] as [Start] makes it. *)
Definition PeriodicCheck_new : PeriodicCheck :=
  {| conditionHoldsSince := 0; once := false; stopped := 0 |}.

(** ** More of chain.go *)

(** [isRunning]; the result is the error, if any.  Nothing is ever sent on
    [startC] or [doneC], so a receive from one of them is ready exactly when
    the channel is closed. *)
Definition isRunning (c : Chain) : option string :=
  if negb (startC_closed c) then Some "chain is not started"
  else if doneC_closed c then Some "chain is stopped"
  else None.

(** [suspectEviction] *)
Definition suspectEviction (c : Chain) : bool :=
  if bool_decide (isRunning c ≠ None) then false
  else bool_decide (lastKnownLeader c = 0).

(** The block of a write to the ledger. *)
Definition written_block (e : effect) : option Block :=
  match e with
  | WriteBlock block _ | WriteConfigBlock block _ => Some block
  | _ => None
  end.

(** The blocks the chain has written, in order. *)
Definition ledger_blocks (c : Chain) : list Block := omap written_block (trace c).

(** The numbers of the blocks follow [n], each the successor of the one
    before. *)
Fixpoint consecutive (n : N) (blocks : list Block) : Prop :=
  match blocks with
  | [] => True
  | block :: blocks =>
      Number (Header block) = add64 n 1 ∧ consecutive (Number (Header block)) blocks
  end.

(** The number of the last of the blocks, or [n]. *)
Definition last_number (n : N) (blocks : list Block) : N :=
  from_option (fun block => Number (Header block)) n (last blocks).

(** How [catchUp] writes a block it has pulled: without metadata. *)
Definition catchUp_write `{Codec} (block : Block) : effect :=
  if IsConfigBlock block then WriteConfigBlock block None else WriteBlock block None.

(** A Raft configuration change reconciles the nodes of Raft with the
    consenters: it adds a consenter that is no node, or removes a node that
    is no consenter. *)
Definition reconciles (md : BlockMetadata) (cs : ConfState) (cc : ConfChange) : Prop :=
  (Type_ cc = ConfChangeAddNode
   ∧ is_Some (Consenters md !! NodeID cc) ∧ NodeID cc ∉ Nodes cs)
  ∨ (Type_ cc = ConfChangeRemoveNode
     ∧ NodeID cc ∈ Nodes cs ∧ Consenters md !! NodeID cc = None).

(** The blocks a block creator makes of batches, and the creator after
    them. *)
Fixpoint createBlocks `{BlockCreator} (creator : blockCreator) (batches : list (list Envelope))
    : list Block * blockCreator :=
  match batches with
  | [] => ([], creator)
  | batch :: batches =>
      let '(b, creator) := createNextBlock creator batch in
      let '(blocks, creator) := createBlocks creator batches in
      (b :: blocks, creator)
  end.

(** The remote node [remotePeers] makes of a consenter. *)
Definition peer_of `{Codec} (id : N) (consenter : Consenter) (node : RemoteNode) : Prop :=
  RN_ID node = id
  ∧ Endpoint node = (Host consenter, Port consenter)
  ∧ pem_Decode (ServerTlsCert consenter) = Some (ServerTLSCert node)
  ∧ pem_Decode (ClientTlsCert consenter) = Some (ClientTLSCert node).

(** The outcome of a call without the chain a panic leaves behind. *)
Definition outcome_only {A : Type} (r : outcome Chain A) : run A :=
  match r with
  | Ret a => Ret a
  | PanicAt p _ => Panic p
  | OutOfFuel => OutOfFuel
  end.

(** The chain after a [Start] that started it. *)
Definition started (c : Chain) (nodes : list RemoteNode) (isJoin isMigration : bool) : Chain :=
  set_trace (trace c ++ [Configure (channelID c) nodes;
                         NodeStart (fresh c) isJoin isMigration;
                         GoGc; GoServeRequest; PeriodicCheckerRun])
    (set_errorC_closed true (set_startC_closed true c)).

(** ** What the methods do to the chain *)

(** Every run of a method that returns takes the chain to one that is
    related to it. *)
Definition steps {A} (R : relation Chain) (m : M A) : Prop :=
  ∀ c a c', m c = Ret (a, c') → R c c'.

(** The chain [c'] has the ledger of [c] and then [blocks], which are
    numbered from the last block of [c] on and end with the last block of
    [c'], and which all come from [source]. *)
Definition appends (source : Block → Prop) (c c' : Chain) : Prop :=
  ∃ blocks,
    ledger_blocks c' = ledger_blocks c ++ blocks
    ∧ consecutive (Number (Header (lastBlock c))) blocks
    ∧ lastBlock c' = from_option id (lastBlock c) (last blocks)
    ∧ Forall source blocks.

(** The blocks that the normal entries among [ents] carry. *)
Definition carried_by `{Codec} (ents : list Entry) (block : Block) : Prop :=
  ∃ ent, ent ∈ ents ∧ E_Type ent = EntryNormal ∧ UnmarshalBlock (E_Data ent) = Ok block.

(** The ledger is the same. *)
Definition same_ledger (c c' : Chain) : Prop := ledger c' = ledger c.

(** Nothing of what the ledger and Raft have brought is touched. *)
Definition quiet (c c' : Chain) : Prop :=
  ledger c' = ledger c ∧ lastBlock c' = lastBlock c ∧ appliedIndex c' = appliedIndex c
  ∧ opts_BlockMetadata c' = opts_BlockMetadata c ∧ confState c' = confState c.

(** The calls made from [c] to [c'] all pass a test. *)
Definition calls_since (Q : effect → Prop) (c c' : Chain) : Prop :=
  ∃ es, trace c' = trace c ++ es ∧ Forall Q es.

(** On the node [self]: the raft id stays, the applied index does not
    decrease, the number of blocks in flight does not become negative, and
    the chain is told to halt only if [halts]. *)
Definition progress (self : N) (halts : Prop) (c c' : Chain) : Prop :=
  raftID c = self →
  raftID c' = self
  ∧ appliedIndex c ≤ appliedIndex c'
  ∧ ((0 ≤ blockInflight c)%Z → (0 ≤ blockInflight c')%Z)
  ∧ calls_since (fun e => e = GoHalt → halts) c c'.

(** An entry is the removal of the node [self] from the cluster. *)
Definition removes `{Codec} (self : N) (ent : Entry) : Prop :=
  E_Type ent = EntryConfChange
  ∧ UnmarshalConfChange (E_Data ent) = Ok {| Type_ := ConfChangeRemoveNode; NodeID := self |}.

(** The leader a chain knows after it has handled a soft state: none when
    the state is leaderless, the leader of the state when it is a new one,
    and the one it knew otherwise. *)
Definition leader_after (old newSoft : SoftState) (known : N) : N :=
  if decide (leaderless newSoft) then raft_None
  else if decide (Lead newSoft = Lead old) then known
  else Lead newSoft.

(** What [isRunning] reads. *)
Definition running_view (c : Chain) : bool * bool := (startC_closed c, doneC_closed c).

(** What [suspectEviction] reads. *)
Definition eviction_view (c : Chain) : N * (bool * bool) := (lastKnownLeader c, running_view c).

(** ** More concrete data *)

Module MoreExamples.

(** Consenters 1 to 4; the next id is 5. *)
Definition four_nodes : BlockMetadata :=
  {| Consenters := <[4 := Examples.c4]> (Consenters Examples.three_nodes);
     NextConsenterId := 5;
     RaftIndex := 0 |}.

(** Raft with the nodes 1, 2 and 3. *)
Definition three_raft_nodes : ConfState := {| Nodes := [1; 2; 3]; Learners := [] |}.

(** Raft with the nodes 1 to 4. *)
Definition four_raft_nodes : ConfState := {| Nodes := [1; 2; 3; 4]; Learners := [] |}.

(** The chain of the examples after block 5, a config block that has
    added consenter 4, on a node whose Raft still has three nodes. *)
Definition chain_after_add : Chain :=
  set_lastBlock (Examples.block 5 ["config:add"])
    (set_opts_BlockMetadata four_nodes Examples.chain_at_4).

(** A bundle whose orderer configuration carries the payload of the
    envelope as consensus metadata. *)
#[local] Instance channel_config : ChannelConfig :=
  {| NewBundleFromEnvelope := fun env =>
       Ok {| Bundle_OrdererConfig := Some {| ConsensusMetadata := Env_Payload env |} |} |}.

(** A check at time [t] at which the condition holds; the clock is read
    again one nanosecond later. *)
Definition holds_at (t : Z) : tick :=
  {| condition := true; now := t; now_since := (t + 1)%Z |}.

(** A check that is stopped, with its timer set. *)
Definition stopped_check : PeriodicCheck :=
  {| conditionHoldsSince := 0; once := true; stopped := 1 |}.

(** Block 5 as Raft commits it at index 8, and block 1 as it was committed
    at index 3. *)
Definition entry_block_5 : Entry :=
  {| E_Type := EntryNormal; E_Index := 8; E_Term := 2;
     E_Data := Examples.marshal (Examples.block 5 ["tx"]) |}.

Definition entry_block_1 : Entry :=
  {| E_Type := EntryNormal; E_Index := 3; E_Term := 1;
     E_Data := Examples.marshal (Examples.block 1 ["tx"]) |}.

(** A batch from Raft with block 5 and the news that node 2 leads. *)
Definition batch_block_5 : applyMsg :=
  {| entries := [entry_block_5];
     app_soft := Some {| Lead := 2; RaftState := StateFollower |} |}.

(** The puller of the chain of the examples. *)
Definition tx_puller : BlockPuller :=
  {| BP_PullBlock := fun seq => Some (Examples.block seq ["tx"]) |}.

(** The puller of the suspectors of the examples. *)
Definition config_49_puller : BlockPuller :=
  {| BP_PullBlock := fun seq =>
       Some (Examples.block seq [if seq =? 49 then "config:same" else "tx"]) |}.

(** [c2] at another host, with the same certificates. *)
Definition c2_moved : Consenter :=
  {| Host := "orderer2b"; Port := 7051; ClientTlsCert := "client2"; ServerTlsCert := "server2" |}.

(** A block creator after block 4. *)
Definition creator_at_4 : blockCreator := {| bc_hash := "4"; bc_number := 4 |}.

Definition tx_envelope : Envelope := {| Env_Payload := "tx"; Env_Signature := "" |}.

(** The codec of the examples, reading ["remove:1"] as the removal of
    node 1. *)
#[local] Instance removal_codec : Codec :=
  {| MarshalBlock := MarshalBlock (Codec := Examples.codec);
     UnmarshalBlock := UnmarshalBlock (Codec := Examples.codec);
     IsConfigBlock := IsConfigBlock (Codec := Examples.codec);
     ExtractEnvelope := ExtractEnvelope (Codec := Examples.codec);
     utils_ChannelHeader := utils_ChannelHeader (Codec := Examples.codec);
     UnmarshalPayload := UnmarshalPayload (Codec := Examples.codec);
     UnmarshalEnvelope := UnmarshalEnvelope (Codec := Examples.codec);
     ExtractPayload := ExtractPayload (Codec := Examples.codec);
     UnmarshalConfigUpdateFromPayload :=
       UnmarshalConfigUpdateFromPayload (Codec := Examples.codec);
     UnmarshalConsensusType := UnmarshalConsensusType (Codec := Examples.codec);
     UnmarshalConfigMetadata := UnmarshalConfigMetadata (Codec := Examples.codec);
     UnmarshalConfChange := fun data =>
       if String.eqb data "remove:1"
       then Ok {| Type_ := ConfChangeRemoveNode; NodeID := 1 |}
       else Err "unknown conf change";
     UnmarshalChannelHeader := UnmarshalChannelHeader (Codec := Examples.codec);
     GetLastConfigIndexFromBlock := GetLastConfigIndexFromBlock (Codec := Examples.codec);
     HeaderHash := HeaderHash (Codec := Examples.codec);
     pem_Decode := pem_Decode (Codec := Examples.codec) |}.

(** The removal of node 1, committed at index 8. *)
Definition entry_remove_1 : Entry :=
  {| E_Type := EntryConfChange; E_Index := 8; E_Term := 2; E_Data := "remove:1" |}.

(** The chain of the examples on a node that was just elected leader. *)
Definition just_elected_chain : Chain := set_justElected true Examples.chain_at_4.

(** A batch from Raft without entries and without a soft state. *)
Definition empty_batch : applyMsg := {| entries := []; app_soft := None |}.

(** The variables of the main loop on node 1 once it has become leader and
    before it has a block creator. *)
Definition elected_state : serveState :=
  {| ticking := false;
     soft := {| Lead := 1; RaftState := StateLeader |};
     submitC := false;
     bc := None;
     propC := true;
     cancelProp := true;
     serving := true |}.

(** A batch without entries whose soft state names node 2 as leader. *)
Definition step_down_batch : applyMsg :=
  {| entries := []; app_soft := Some {| Lead := 2; RaftState := StateFollower |} |}.

End MoreExamples.

(** * Properties *)

(** ** The membership calculator *)

Section Membership.

Implicit Types (old : BlockMetadata) (new : list Consenter) (set : gset string).

Lemma elem_of_ConsentersToMap_from set new cert :
  cert ∈ foldl (fun set c => {[ ClientTlsCert c ]} ∪ set) set new
  ↔ cert ∈ set ∨ ∃ c, c ∈ new ∧ ClientTlsCert c = cert.
Proof.
  revert set. induction new as [|c new IH]; intros set; simpl.
  - split; [auto | intros [?|(c & Hc & _)]; [done | inversion Hc]].
  - rewrite IH. split.
    + intros [Hin|(c' & Hc' & <-)].
      * apply elem_of_union in Hin as [Hin|Hin]; [|auto].
        apply elem_of_singleton in Hin as ->. right. exists c. split; [left | done].
      * right. exists c'. split; [by right | done].
    + intros [Hin|(c' & Hc' & <-)].
      * left. set_solver.
      * apply elem_of_cons in Hc' as [->|Hc']; [left; set_solver | right; eauto].
Qed.

Lemma elem_of_ConsentersToMap new cert :
  cert ∈ ConsentersToMap new ↔ ∃ c, c ∈ new ∧ ClientTlsCert c = cert.
Proof.
  unfold ConsentersToMap. rewrite elem_of_ConsentersToMap_from. set_solver.
Qed.

Lemma MembershipByCert_ConsentersToMap (m : gmap N Consenter) :
  MembershipByCert m = ConsentersToMap (map_to_list m).*2.
Proof.
  unfold MembershipByCert, ConsentersToMap.
  generalize (∅ : gset string). induction (map_to_list m) as [|kc l IH]; intros set; simpl; [done|].
  apply IH.
Qed.

Lemma keyed_in_iff (consenters : list Consenter) c :
  keyed_in consenters c ↔ ClientTlsCert c ∈ ConsentersToMap consenters.
Proof.
  unfold keyed_in. rewrite elem_of_ConsentersToMap, Exists_exists. done.
Qed.

Lemma addedLoop_from set new acc :
  foldl (fun added c => if decide (ClientTlsCert c ∈ set) then added else added ++ [c]) acc new
  = acc ++ filter (fun c => ClientTlsCert c ∉ set) new.
Proof.
  revert acc. induction new as [|c new IH]; intros acc; simpl.
  - by rewrite app_nil_r.
  - rewrite IH, filter_cons. destruct (decide (ClientTlsCert c ∈ set)).
    + by rewrite decide_False by auto.
    + rewrite decide_True by auto. by rewrite <- app_assoc.
Qed.

Lemma addedLoop_added old new :
  addedLoop (MembershipByCert (Consenters old)) new = added old new.
Proof.
  unfold addedLoop, added. rewrite addedLoop_from. simpl.
  apply list_filter_iff. intros c.
  rewrite keyed_in_iff, MembershipByCert_ConsentersToMap. done.
Qed.

Lemma removedLoop_from set (visited : list (N * Consenter)) acc :
  foldl (fun acc kc =>
           if decide (ClientTlsCert kc.2 ∈ set) then acc else (acc.1 ++ [kc.2], kc.1))
        acc visited
  = (acc.1 ++ (filter (fun kc => ClientTlsCert kc.2 ∉ set) visited).*2,
     last_key acc.2 (filter (fun kc => ClientTlsCert kc.2 ∉ set) visited)).
Proof.
  revert acc. induction visited as [|kc l IH]; intros acc; simpl.
  - rewrite app_nil_r. by destruct acc.
  - rewrite IH, filter_cons. destruct (decide (ClientTlsCert kc.2 ∈ set)).
    + by rewrite decide_False by auto.
    + rewrite decide_True by auto. simpl. rewrite <- app_assoc. f_equal.
      unfold last_key. rewrite last_cons.
      by destruct (last (filter _ l)).
Qed.

Lemma removedLoop_filter new (visited : list (N * Consenter)) :
  removedLoop (ConsentersToMap new) visited
  = ((filter (fun kc => ¬ keyed_in new kc.2) visited).*2,
     last_key 0 (filter (fun kc => ¬ keyed_in new kc.2) visited)).
Proof.
  unfold removedLoop. rewrite removedLoop_from. simpl.
  assert (filter (fun kc : N * Consenter => ClientTlsCert kc.2 ∉ ConsentersToMap new) visited
          = filter (fun kc => ¬ keyed_in new kc.2) visited) as ->; [|done].
  apply list_filter_iff. intros kc. by rewrite keyed_in_iff.
Qed.

Lemma removedLoop_removed old new :
  removedLoop (ConsentersToMap new) (map_to_list (Consenters old))
  = ((removed old new).*2, last_key 0 (removed old new)).
Proof. apply removedLoop_filter. Qed.


(** The calculator in the words of the specification: a dispatch on the
    added and the removed consenters. *)
Lemma ComputeMembershipChanges_dispatch old new :
  ComputeMembershipChanges old new =
  match added old new, removed old new with
  | [a], [(id, r)] =>
      Ok {| NewBlockMetadata :=
              {| Consenters := <[id := a]> (Consenters old);
                 NextConsenterId := NextConsenterId old;
                 RaftIndex := RaftIndex old |};
            AddedNodes := [a]; RemovedNodes := [r];
            MC_ConfChange := None; RotatedNode := id |}
  | [a], [] =>
      Ok {| NewBlockMetadata :=
              {| Consenters := <[NextConsenterId old := a]> (Consenters old);
                 NextConsenterId := add64 (NextConsenterId old) 1;
                 RaftIndex := RaftIndex old |};
            AddedNodes := [a]; RemovedNodes := [];
            MC_ConfChange := Some {| Type_ := ConfChangeAddNode; NodeID := NextConsenterId old |};
            RotatedNode := 0 |}
  | [], [(id, r)] =>
      Ok {| NewBlockMetadata :=
              {| Consenters := delete id (Consenters old);
                 NextConsenterId := NextConsenterId old;
                 RaftIndex := RaftIndex old |};
            AddedNodes := []; RemovedNodes := [r];
            MC_ConfChange := Some {| Type_ := ConfChangeRemoveNode; NodeID := id |};
            RotatedNode := 0 |}
  | [], [] =>
      Ok {| NewBlockMetadata := old; AddedNodes := []; RemovedNodes := [];
            MC_ConfChange := None; RotatedNode := 0 |}
  | a, r => Err (ErrMultipleConsenters (length a) (length r))
  end.
Proof.
  unfold ComputeMembershipChanges, ComputeMembershipChangesIn.
  rewrite addedLoop_added, removedLoop_removed.
  destruct (added old new) as [|a [|a' la]]; destruct (removed old new) as [|[id r] [|[id' r'] lr]];
    simpl; try reflexivity; by rewrite ?length_fmap.
Qed.

Lemma removed_lookup old new id r :
  (id, r) ∈ removed old new → Consenters old !! id = Some r ∧ ¬ keyed_in new r.
Proof.
  unfold removed. rewrite list_elem_of_filter, elem_of_map_to_list. simpl. tauto.
Qed.

End Membership.

Section MembershipClaims.

Implicit Types (old : BlockMetadata) (new : list Consenter).

(** The result does not depend on the order in which the range over the
    old consenters visits them. *)
Lemma ComputeMembershipChanges_order old new (visited : list (N * Consenter)) :
  visited ≡ₚ map_to_list (Consenters old) →
  ComputeMembershipChangesIn visited old new = ComputeMembershipChanges old new.
Proof.
  intros Hperm. unfold ComputeMembershipChanges, ComputeMembershipChangesIn.
  rewrite !removedLoop_filter.
  assert (filter (fun kc : N * Consenter => ¬ keyed_in new kc.2) visited
          ≡ₚ filter (fun kc => ¬ keyed_in new kc.2) (map_to_list (Consenters old))) as Hf
    by (by rewrite Hperm).
  revert Hf.
  generalize (filter (fun kc : N * Consenter => ¬ keyed_in new kc.2) visited).
  generalize (filter (fun kc : N * Consenter => ¬ keyed_in new kc.2) (map_to_list (Consenters old))).
  intros l2 l1 Hf. pose proof (Permutation_length Hf) as Hlen.
  destruct l1 as [|x1 [|y1 l1]]; destruct l2 as [|x2 [|y2 l2]]; simpl in Hlen; try discriminate.
  - done.
  - apply Permutation_singleton_l in Hf. by inversion Hf.
  - simpl. rewrite !length_fmap. simpl in *.
    destruct (addedLoop _ new) as [|a [|a' la]]; simpl; by rewrite ?Hlen.
Qed.

(** C2. [ComputeMembershipChanges] returns an error exactly when more than
    one consenter is added or more than one is removed; in particular it
    rejects every change with more than two additions and removals in
    all, and accepts every change with at most one of each. *)
Theorem ComputeMembershipChanges_error_iff old new :
  (is_err (ComputeMembershipChanges old new) = true
   ↔ (1 < length (added old new) ∨ 1 < length (removed old new))%nat)
  ∧ ((2 < length (added old new) + length (removed old new))%nat →
     ComputeMembershipChanges old new
     = Err (ErrMultipleConsenters (length (added old new)) (length (removed old new))))
  ∧ ((length (added old new) ≤ 1)%nat → (length (removed old new) ≤ 1)%nat →
     ∃ mc, ComputeMembershipChanges old new = Ok mc).
Proof.
  rewrite ComputeMembershipChanges_dispatch.
  destruct (added old new) as [|a [|a' la]]; destruct (removed old new) as [|[id r] [|[id' r'] lr]];
    simpl; (split; [split; [try discriminate; intros _; lia | intros [?|?]; (lia || done)]|]);
    (split; [intros ?; (lia || done) | intros ? ?; (lia || eauto)]).
Qed.

(** C3. One added and one removed consenter is a rotation: the rotated
    node is the raft id of the removed consenter, the new metadata maps
    that id to the added consenter, there is no Raft configuration change,
    and the next consenter id is the old one. *)
Theorem ComputeMembershipChanges_rotation old new :
  length (added old new) = 1%nat → length (removed old new) = 1%nat →
  ∃ a id r mc,
    added old new = [a] ∧ removed old new = [(id, r)]
    ∧ Consenters old !! id = Some r
    ∧ ComputeMembershipChanges old new = Ok mc
    ∧ Rotated mc = true
    ∧ RotatedNode mc = id
    ∧ Consenters (NewBlockMetadata mc) !! id = Some a
    ∧ Consenters (NewBlockMetadata mc) = <[id := a]> (Consenters old)
    ∧ MC_ConfChange mc = None
    ∧ NextConsenterId (NewBlockMetadata mc) = NextConsenterId old.
Proof.
  intros Ha Hr. rewrite ComputeMembershipChanges_dispatch.
  pose proof (removed_lookup old new) as Hlook.
  destruct (added old new) as [|a [|a' la]]; try discriminate.
  destruct (removed old new) as [|[id r] [|[id' r'] lr]]; try discriminate.
  exists a, id, r. eexists. repeat split; try reflexivity.
  - apply Hlook. by left.
  - simpl. apply lookup_insert_eq.
Qed.

End MembershipClaims.

Section AddRemove.

Implicit Types (old : BlockMetadata) (new : list Consenter).

(** C4.  On block metadata that satisfy the invariant of the data model
    (raft ids are handed out in increasing order and never reused, so
    every id in use is below the next consenter id): with one added and
    none removed, the added consenter is inserted under the old next
    consenter id, the next consenter id is incremented by one,
    [ConfChangeAddNode] for that id is produced and the number of
    consenters grows by exactly one.  With none added and one removed,
    [ConfChangeRemoveNode] for the removed consenter's id is produced, its
    entry is deleted and the number of consenters shrinks by exactly one.
    A rotation keeps the number of consenters and the set of raft ids. *)
Theorem ComputeMembershipChanges_add_remove old new :
  ids_below_next old →
  (length (added old new) = 1%nat → length (removed old new) = 0%nat →
   ∃ a mc,
     added old new = [a]
     ∧ ComputeMembershipChanges old new = Ok mc
     ∧ Consenters (NewBlockMetadata mc) = <[NextConsenterId old := a]> (Consenters old)
     ∧ Consenters (NewBlockMetadata mc) !! NextConsenterId old = Some a
     ∧ NextConsenterId (NewBlockMetadata mc) = add64 (NextConsenterId old) 1
     ∧ (NextConsenterId old < MaxUint64 →
        NextConsenterId (NewBlockMetadata mc) = NextConsenterId old + 1)
     ∧ MC_ConfChange mc
       = Some {| Type_ := ConfChangeAddNode; NodeID := NextConsenterId old |}
     ∧ Consenters old !! NextConsenterId old = None
     ∧ size (Consenters (NewBlockMetadata mc)) = S (size (Consenters old)))
  ∧ (length (added old new) = 0%nat → length (removed old new) = 1%nat →
     ∃ id r mc,
       removed old new = [(id, r)]
       ∧ Consenters old !! id = Some r
       ∧ ComputeMembershipChanges old new = Ok mc
       ∧ MC_ConfChange mc = Some {| Type_ := ConfChangeRemoveNode; NodeID := id |}
       ∧ Consenters (NewBlockMetadata mc) = delete id (Consenters old)
       ∧ NextConsenterId (NewBlockMetadata mc) = NextConsenterId old
       ∧ S (size (Consenters (NewBlockMetadata mc))) = size (Consenters old))
  ∧ (length (added old new) = 1%nat → length (removed old new) = 1%nat →
     ∃ mc,
       ComputeMembershipChanges old new = Ok mc
       ∧ size (Consenters (NewBlockMetadata mc)) = size (Consenters old)
       ∧ dom (Consenters (NewBlockMetadata mc)) = dom (Consenters old)).
Proof.
  intros Hinv.
  assert (Consenters old !! NextConsenterId old = None) as Hfresh.
  { destruct (Consenters old !! NextConsenterId old) as [c|] eqn:Hc; [|done].
    apply Hinv in Hc. lia. }
  rewrite ComputeMembershipChanges_dispatch.
  pose proof (removed_lookup old new) as Hlook.
  destruct (added old new) as [|a [|a' la]]; destruct (removed old new) as [|[id r] [|[id' r'] lr]];
    (split; [|split]); intros Ha Hr; try discriminate.
  - exists id, r. eexists. destruct (Hlook id r) as [Hid _]; [by left|].
    repeat split; try reflexivity; try done. simpl.
    rewrite <- (insert_delete_id (Consenters old) id r) at 2 by done.
    rewrite map_size_insert_None by apply lookup_delete_eq. done.
  - exists a. eexists. repeat split; try reflexivity; try done.
    + simpl. apply lookup_insert_eq.
    + simpl. intros Hmax. unfold add64, MaxUint64, two64 in *. apply N.mod_small. lia.
    + simpl. by apply map_size_insert_None.
  - destruct (Hlook id r) as [Hid _]; [by left|].
    eexists. repeat split; try reflexivity; simpl.
    + by rewrite map_size_insert_Some.
    + rewrite dom_insert_L. apply elem_of_dom_2 in Hid. set_solver.
Qed.

End AddRemove.

(** The "multi-change rejection" scenario: two additions. *)
Lemma ComputeMembershipChanges_error_iff_witness :
  is_err (ComputeMembershipChanges Examples.three_nodes
            [Examples.c1; Examples.c2; Examples.c3; Examples.c4; Examples.c5]) = true
  ∧ ComputeMembershipChanges Examples.three_nodes
      [Examples.c1; Examples.c2; Examples.c3; Examples.c4; Examples.c5]
    = Err (ErrMultipleConsenters 2 0).
Proof.
  destruct (ComputeMembershipChanges_error_iff Examples.three_nodes
              [Examples.c1; Examples.c2; Examples.c3; Examples.c4; Examples.c5])
    as (Hiff & _ & _).
  split; [apply Hiff; left; vm_compute; lia | vm_compute; reflexivity].
Defined.

(** The "add node" scenario: consenters 1, 2, 3 with next id 4, and a new
    set that adds [c4]. *)
Lemma ComputeMembershipChanges_add_remove_witness :
  ∃ mc,
    ComputeMembershipChanges Examples.three_nodes
      [Examples.c1; Examples.c2; Examples.c3; Examples.c4] = Ok mc
    ∧ Consenters (NewBlockMetadata mc) !! 4 = Some Examples.c4
    ∧ NextConsenterId (NewBlockMetadata mc) = 5
    ∧ MC_ConfChange mc = Some {| Type_ := ConfChangeAddNode; NodeID := 4 |}
    ∧ size (Consenters (NewBlockMetadata mc)) = 4%nat.
Proof.
  destruct (ComputeMembershipChanges_add_remove Examples.three_nodes
              [Examples.c1; Examples.c2; Examples.c3; Examples.c4]) as [Hadd _].
  { apply (bool_decide_unpack (ids_below_next Examples.three_nodes)). vm_compute. reflexivity. }
  destruct Hadd as (a & mc & Ha & Hmc & _ & Hlook & Hnext & _ & Hcc & _ & Hsize);
    [vm_compute; reflexivity | vm_compute; reflexivity |].
  exists mc. injection Ha as <-.
  repeat split; [exact Hmc | exact Hlook | exact Hnext | exact Hcc |].
  rewrite Hsize. reflexivity.
Defined.

(** The rotation scenario: consenters 1, 2, 3 and a new set where [c3] has
    new certificates. *)
Lemma ComputeMembershipChanges_rotation_witness :
  ∃ mc,
    ComputeMembershipChanges Examples.three_nodes
      [Examples.c1; Examples.c2; Examples.c3'] = Ok mc
    ∧ RotatedNode mc = 3
    ∧ Consenters (NewBlockMetadata mc) !! 3 = Some Examples.c3'
    ∧ MC_ConfChange mc = None
    ∧ NextConsenterId (NewBlockMetadata mc) = 4.
Proof.
  destruct (ComputeMembershipChanges_rotation Examples.three_nodes
              [Examples.c1; Examples.c2; Examples.c3'])
    as (a & id & r & mc & Ha & Hr & _ & Hmc & _ & Hrot & Hlook & _ & Hcc & Hnext);
    [vm_compute; reflexivity | vm_compute; reflexivity |].
  injection Ha as <-. injection Hr as <- <-.
  exists mc. repeat split; [exact Hmc | exact Hrot | exact Hlook | exact Hcc | exact Hnext].
Defined.

(** The invariant is needed for the count.  Metadata with one consenter
    under id 1 and next consenter id 1 are never built by the package; on
    them, adding [c2] overwrites the entry of id 1 and the new metadata has
    as many consenters as the old one. *)
Lemma ComputeMembershipChanges_add_overwrites_stale_id :
  ¬ ids_below_next Examples.stale_next_id
  ∧ length (added Examples.stale_next_id [Examples.c1; Examples.c2]) = 1%nat
  ∧ length (removed Examples.stale_next_id [Examples.c1; Examples.c2]) = 0%nat
  ∧ ∃ mc,
      ComputeMembershipChanges Examples.stale_next_id [Examples.c1; Examples.c2] = Ok mc
      ∧ size (Consenters (NewBlockMetadata mc)) = size (Consenters Examples.stale_next_id)
      ∧ Consenters (NewBlockMetadata mc) !! 1 = Some Examples.c2.
Proof.
  split.
  { apply (bool_decide_eq_false_1 (ids_below_next Examples.stale_next_id)).
    vm_compute. reflexivity. }
  split; [vm_compute; reflexivity|]. split; [vm_compute; reflexivity|].
  eexists. split; [vm_compute; reflexivity|]. split; vm_compute; reflexivity.
Qed.

(** ** Duplicated certificates *)

Section Duplication.

Lemma elem_of_slot_certs cert c :
  cert ∈ slot_certs c ↔ cert = ServerTlsCert c ∨ cert = ClientTlsCert c.
Proof. unfold slot_certs. rewrite !elem_of_cons, elem_of_nil. tauto. Qed.

Lemma dup_from_cons seen c cs :
  ServerTlsCert c ∉ seen → ClientTlsCert c ∉ seen →
  dup_from seen (c :: cs) ↔ dup_from ({[ ClientTlsCert c ]} ∪ ({[ ServerTlsCert c ]} ∪ seen)) cs.
Proof.
  intros Hs Hc. split.
  - intros (j & cj & cert & Hj & Hcert & Hdup). destruct j as [|j].
    + injection Hj as <-. destruct Hdup as [Hseen|(i & ci & Hi & _)]; [|lia].
      apply elem_of_slot_certs in Hcert as [->| ->]; done.
    + exists j, cj, cert. split; [done|]. split; [done|].
      destruct Hdup as [Hseen|(i & ci & Hi & Hci & Hcerti)]; [left; set_solver|].
      destruct i as [|i].
      * injection Hci as <-. left.
        apply elem_of_slot_certs in Hcerti as [->| ->]; set_solver.
      * right. exists i, ci. split; [lia|done].
  - intros (j & cj & cert & Hj & Hcert & Hdup).
    exists (S j), cj, cert. split; [done|]. split; [done|].
    destruct Hdup as [Hseen|(i & ci & Hi & Hci & Hcerti)].
    + apply elem_of_union in Hseen as [Hseen|Hseen];
        [|apply elem_of_union in Hseen as [Hseen|Hseen]]; [| |by left].
      * apply elem_of_singleton in Hseen as ->.
        right. exists 0%nat, c. split; [lia|]. split; [done|]. apply elem_of_slot_certs. auto.
      * apply elem_of_singleton in Hseen as ->.
        right. exists 0%nat, c. split; [lia|]. split; [done|]. apply elem_of_slot_certs. auto.
    + right. exists (S i), ci. split; [lia|done].
Qed.

(** The second loop returns, and returns an error exactly on a duplicate. *)
Lemma duplicationLoop_spec (cs : list Consenter) seen :
  ∃ r, duplicationLoop seen (Some <$> cs) = Ret r ∧ (is_Some r ↔ dup_from seen cs).
Proof.
  revert seen. induction cs as [|c cs IH]; intros seen; simpl.
  - exists None. split; [done|]. split; [by intros [? ?]|].
    intros (j & cj & cert & Hj & _). by destruct j.
  - destruct (bool_decide (ServerTlsCert c ∈ seen)) eqn:Hs; simpl.
    { eexists. split; [done|]. split; [|by eauto]. intros _.
      apply bool_decide_eq_true in Hs.
      exists 0%nat, c, (ServerTlsCert c). split; [done|]. split; [|by left].
      apply elem_of_slot_certs. auto. }
    destruct (bool_decide (ClientTlsCert c ∈ seen)) eqn:Hc; simpl.
    { eexists. split; [done|]. split; [|by eauto]. intros _.
      apply bool_decide_eq_true in Hc.
      exists 0%nat, c, (ClientTlsCert c). split; [done|]. split; [|by left].
      apply elem_of_slot_certs. auto. }
    apply bool_decide_eq_false in Hs, Hc.
    destruct (IH ({[ ClientTlsCert c ]} ∪ ({[ ServerTlsCert c ]} ∪ seen))) as (r & Heq & Hr).
    exists r. split; [exact Heq|]. by rewrite dup_from_cons.
Qed.

Lemma existsb_nil_consenter (l : list (option Consenter)) :
  existsb (fun consenter => bool_decide (consenter = None)) l = true ↔ None ∈ l.
Proof.
  induction l as [|o l IH]; simpl.
  - split; [done | by intros ?%elem_of_nil].
  - rewrite orb_true_iff, IH, bool_decide_eq_true, elem_of_cons. naive_solver.
Qed.

Lemma no_nil_consenter (l : list (option Consenter)) :
  None ∉ l → ∃ cs, l = Some <$> cs.
Proof.
  induction l as [|[c|] l IH]; intros Hnil.
  - by exists [].
  - destruct IH as [cs ->]; [set_solver|]. by exists (c :: cs).
  - exfalso. apply Hnil. by left.
Qed.

Lemma dup_from_empty_two_slots (cs : list Consenter) opts :
  dup_from ∅ cs ↔ cert_in_two_slots {| CM_Consenters := Some <$> cs; CM_Options := opts |}.
Proof.
  unfold cert_in_two_slots; simpl. split.
  - intros (j & cj & cert & Hj & Hcert & [Hseen|(i & ci & Hi & Hci & Hcerti)]); [set_solver|].
    exists i, j, ci, cj, cert. rewrite !list_lookup_fmap, Hj, Hci. repeat split; try done. lia.
  - intros (i & j & ci & cj & cert & Hij & Hi & Hj & Hcerti & Hcertj).
    rewrite list_lookup_fmap in Hi, Hj.
    destruct (cs !! i) as [ci'|] eqn:Hi'; [|done]. injection Hi as ->.
    destruct (cs !! j) as [cj'|] eqn:Hj'; [|done]. injection Hj as ->.
    destruct (decide (i < j)%nat).
    + exists j, cj, cert. repeat split; try done. right. exists i, ci. done.
    + exists i, ci, cert. repeat split; try done. right. exists j, cj. split; [lia|done].
Qed.

(** C6. For a metadata that is not nil, [MetadataHasDuplication] returns,
    and returns an error exactly when a consenter is nil or a certificate
    appears in more than one consenter slot. *)
Theorem MetadataHasDuplication_error_iff (md : ConfigMetadata) :
  (∃ r, MetadataHasDuplication (Some md) = Ret r)
  ∧ ((∃ e, MetadataHasDuplication (Some md) = Ret (Some e))
     ↔ None ∈ CM_Consenters md ∨ cert_in_two_slots md).
Proof.
  unfold MetadataHasDuplication.
  destruct (existsb _ (CM_Consenters md)) eqn:Hnil.
  - apply existsb_nil_consenter in Hnil. split; [by eauto|]. split; [by auto | by eauto].
  - assert (None ∉ CM_Consenters md) as Hnone.
    { intros Hin. apply existsb_nil_consenter in Hin. congruence. }
    destruct (no_nil_consenter _ Hnone) as [cs Hcs].
    destruct md as [l opts]; simpl in *; subst l.
    destruct (duplicationLoop_spec cs ∅) as (r & -> & Hr).
    split; [by eauto|].
    rewrite <- dup_from_empty_two_slots, <- Hr. split.
    + intros [e [= ->]]. right. by eauto.
    + intros [?|[e ->]]; [done | by eauto].
Qed.

End Duplication.

(** Two consenters, the second with the first's client certificate as its
    server certificate. *)
Lemma MetadataHasDuplication_error_iff_witness :
  ∃ e, MetadataHasDuplication
         (Some {| CM_Consenters := [Some Examples.c1; Some Examples.c2_shares_cert];
                  CM_Options := None |})
       = Ret (Some e).
Proof.
  apply (MetadataHasDuplication_error_iff
           {| CM_Consenters := [Some Examples.c1; Some Examples.c2_shares_cert];
              CM_Options := None |}).
  right. exists 0%nat, 1%nat, Examples.c1, Examples.c2_shares_cert, "client1".
  split; [lia|]. split; [reflexivity|]. split; [reflexivity|].
  split; unfold slot_certs; simpl; repeat constructor.
Defined.

(** ** The ledger block puller *)

Lemma sub64_pred (h : N) : 1 ≤ h → h < two64 → sub64 h 1 = h - 1.
Proof.
  intros H1 H2. unfold sub64, two64 in *.
  rewrite (N.mod_small 1) by lia.
  replace (h + (2 ^ 64 - 1)) with ((h - 1) + 1 * 2 ^ 64) by lia.
  rewrite N.Div0.mod_add. apply N.mod_small. lia.
Qed.

(** C7, as amended.  When the ledger holds a block (its height is at least
    1), [PullBlock] reads the block from the ledger when [seq] is below the
    height and fetches it from the remote puller otherwise. *)
Theorem LedgerBlockPuller_PullBlock_source (ledgerPuller : LedgerBlockPuller) (seq : N) :
  1 ≤ LBP_Height ledgerPuller tt → LBP_Height ledgerPuller tt < two64 →
  (seq < LBP_Height ledgerPuller tt →
   LedgerBlockPuller_PullBlock ledgerPuller seq
   = (FromLedger seq, BlockRetriever ledgerPuller seq))
  ∧ (LBP_Height ledgerPuller tt ≤ seq →
     LedgerBlockPuller_PullBlock ledgerPuller seq
     = (FromRemote seq, BP_PullBlock (LBP_BlockPuller ledgerPuller) seq)).
Proof.
  intros H1 H2. unfold LedgerBlockPuller_PullBlock. rewrite sub64_pred by done.
  split; intros Hseq.
  - assert ((seq <=? LBP_Height ledgerPuller tt - 1) = true) as -> by (apply N.leb_le; lia). done.
  - assert ((seq <=? LBP_Height ledgerPuller tt - 1) = false) as -> by (apply N.leb_gt; lia). done.
Qed.

Lemma LedgerBlockPuller_PullBlock_source_witness :
  LedgerBlockPuller_PullBlock Examples.ledger_puller_48 47
  = (FromLedger 47, Some (Examples.block 47 ["local"]))
  ∧ LedgerBlockPuller_PullBlock Examples.ledger_puller_48 48
    = (FromRemote 48, Some (Examples.block 48 ["remote"])).
Proof.
  destruct (LedgerBlockPuller_PullBlock_source Examples.ledger_puller_48 47) as [Hlocal _];
    [vm_compute; discriminate | vm_compute; reflexivity |].
  destruct (LedgerBlockPuller_PullBlock_source Examples.ledger_puller_48 48) as [_ Hremote];
    [vm_compute; discriminate | vm_compute; reflexivity |].
  split.
  - rewrite Hlocal by (vm_compute; reflexivity). reflexivity.
  - rewrite Hremote by (vm_compute; discriminate). reflexivity.
Defined.

(** C7 as stated fails on a ledger of height 0: the last sequence number
    wraps to 2^64 - 1 and block 5, which is not below the height, is read
    from the ledger. *)
Lemma LedgerBlockPuller_PullBlock_height_zero_counterexample :
  ¬ (5 < LBP_Height Examples.empty_ledger_puller tt)
  ∧ LedgerBlockPuller_PullBlock Examples.empty_ledger_puller 5 = (FromLedger 5, None)
  ∧ (LedgerBlockPuller_PullBlock Examples.empty_ledger_puller 5).1 ≠ FromRemote 5.
Proof.
  split; [vm_compute; discriminate|]. split; [vm_compute; reflexivity | vm_compute; discriminate].
Defined.

(** ** The eviction suspector *)

Lemma add64_succ (n : N) : n < MaxUint64 → add64 n 1 = n + 1.
Proof. unfold add64, MaxUint64, two64. intros Hn. apply N.mod_small. lia. Qed.

Lemma seq_range_cons (from to : N) :
  from ≤ to → seq_range from to = from :: seq_range (from + 1) to.
Proof.
  intros Hle. unfold seq_range.
  replace (N.to_nat (to + 1 - from)) with (S (N.to_nat (to + 1 - (from + 1)))) by lia.
  simpl. rewrite N.add_0_r. f_equal.
  rewrite <- fmap_S_seq, <- list_fmap_compose.
  apply list_fmap_ext. intros _ k _. simpl. lia.
Qed.

Lemma seq_range_nil (from to : N) : to < from → seq_range from to = [].
Proof. intros Hlt. unfold seq_range. by replace (N.to_nat (to + 1 - from)) with 0%nat by lia. Qed.

Lemma seq_range_length (from to : N) : length (seq_range from to) = N.to_nat (to + 1 - from).
Proof. unfold seq_range. by rewrite length_fmap, length_seq. Qed.

Section PullAndWrite.

Variables (es : evictionSuspector) (puller : BlockPuller) (last : N).
Hypothesis last_in_range : last < MaxUint64.

(** With fuel for every sequence number left and the test that ends the
    loop, the loop ends: it has pulled and written the blocks of some
    first sequence numbers, all of them unless a write failed. *)
Lemma pullAndWrite_calls (fuel : nat) (seq : N) written calls :
  (N.to_nat (last + 1 - seq) < fuel)%nat →
  ∃ k : nat,
    (pullAndWrite fuel es puller last seq written calls).1
    = calls ++ flat_map (pull_then_write puller) (take k (seq_range seq last))
    ∧ (((pullAndWrite fuel es puller last seq written calls).2 = Ret tt
        ∧ k = length (seq_range seq last))
       ∨ ((∃ p, (pullAndWrite fuel es puller last seq written calls).2 = Panic p)
          ∧ (0 < k)%nat
          ∧ ∃ w b, es_writeBlock es w b ≠ None)).
Proof.
  revert seq written calls. induction fuel as [|fuel IH]; intros seq written calls Hfuel; [lia|].
  simpl. destruct (seq <=? last) eqn:Hle.
  - apply N.leb_le in Hle. rewrite seq_range_cons by done.
    destruct (es_writeBlock es written (BP_PullBlock puller seq)) eqn:Hw.
    + exists 1%nat. simpl. rewrite ?app_nil_r. split; [done|]. right.
      split; [by eauto|]. split; [lia|]. exists written, (BP_PullBlock puller seq). congruence.
    + rewrite add64_succ by lia.
      destruct (IH (seq + 1) (written ++ [BP_PullBlock puller seq])
                  (calls ++ [CallPullBlock seq; CallWriteBlock (BP_PullBlock puller seq)]))
        as (k & Hcalls & Hr); [lia|].
      exists (S k). simpl. rewrite Hcalls, <- app_assoc. split; [done|].
      destruct Hr as [[-> ->]|(Hp & Hk & Hfail)]; [by left|].
      right. split; [done|]. split; [lia|done].
  - apply N.leb_gt in Hle. exists 0%nat. rewrite seq_range_nil by done.
    simpl. rewrite ?app_nil_r. split; [done|]. by left.
Qed.

(** When no write fails, every block is pulled and written. *)
Lemma pullAndWrite_all (fuel : nat) (seq : N) written calls :
  (∀ w b, es_writeBlock es w b = None) →
  (N.to_nat (last + 1 - seq) < fuel)%nat →
  pullAndWrite fuel es puller last seq written calls
  = (calls ++ flat_map (pull_then_write puller) (seq_range seq last), Ret tt).
Proof.
  intros Hok Hfuel.
  destruct (pullAndWrite_calls fuel seq written calls Hfuel) as (k & Hcalls & Hr).
  destruct Hr as [[Hret ->]|(_ & _ & w & b & Hfail)]; [|by rewrite Hok in Hfail].
  rewrite firstn_all in Hcalls.
  destruct (pullAndWrite _ _ _ _ _ _ _) as [calls' r]; simpl in *. by subst.
Qed.

(** The loop only adds calls. *)
Lemma pullAndWrite_halt_first (fuel : nat) (seq : N) written calls :
  CallHalt ∈ calls → CallHalt ∈ (pullAndWrite fuel es puller last seq written calls).1.
Proof.
  revert seq written calls. induction fuel as [|fuel IH]; intros seq written calls Hin; [done|].
  simpl. destruct (seq <=? last); [|done].
  destruct (es_writeBlock es written (BP_PullBlock puller seq)).
  - simpl. set_solver.
  - apply IH. set_solver.
Qed.

End PullAndWrite.

Section ConfirmSuspicion.

Context `{Codec}.
Variables (es : evictionSuspector) (cumulativeSuspicion : Z) (fuel : nat).

(** C5.  [confirmSuspicion]
    - returns without any call when the cumulative suspicion is below the
      threshold or the suspector has halted;
    - after pulling the last config block, returns with no further call
      when that block's number plus one is at most the height;
    - when the membership check answers anything but [ErrNotInChannel] or
      [ErrForbidden], hands the catch-up a snapshot whose data is the
      pulled config block, marshalled, and whose other fields are zero,
      and returns, without halting;
    - otherwise halts, then pulls and writes the blocks from the height
      on, in order, up to the config block unless a write fails, which is
      fatal;
    - halts in no other case, and creates a puller only past the guard. *)
Theorem confirmSuspicion_spec :
  ((cumulativeSuspicion < evictionSuspicionThreshold es)%Z ∨ halted es = true →
   confirmSuspicion fuel es cumulativeSuspicion = ([], Ret es))
  ∧ (∀ puller lastConfigBlock,
       (evictionSuspicionThreshold es ≤ cumulativeSuspicion)%Z → halted es = false →
       createPuller es tt = Ok puller →
       pullLastConfigBlock es puller = Ok lastConfigBlock →
       (add64 (Number (Header lastConfigBlock)) 1 ≤ height es tt →
        confirmSuspicion fuel es cumulativeSuspicion
        = ([CallCreatePuller; CallPullLastConfigBlock; CallHeight], Ret es))
       ∧ (height es tt < add64 (Number (Header lastConfigBlock)) 1 →
          amIInChannel es lastConfigBlock ≠ Some ErrNotInChannel →
          amIInChannel es lastConfigBlock ≠ Some ErrForbidden →
          ∃ snapshot,
            confirmSuspicion fuel es cumulativeSuspicion
            = (calls_to_check lastConfigBlock ++ [CallTriggerCatchUp snapshot], Ret es)
            ∧ Snap_Data snapshot = MarshalBlock lastConfigBlock
            ∧ Snap_Metadata snapshot
              = {| SM_ConfState := {| Nodes := []; Learners := [] |};
                   Index := 0; Term := 0 |})
       ∧ (height es tt < add64 (Number (Header lastConfigBlock)) 1 →
          amIInChannel es lastConfigBlock = Some ErrNotInChannel
          ∨ amIInChannel es lastConfigBlock = Some ErrForbidden →
          Number (Header lastConfigBlock) < two64 →
          (N.to_nat (Number (Header lastConfigBlock) + 1 - height es tt) < fuel)%nat →
          let blocks := seq_range (height es tt) (Number (Header lastConfigBlock)) in
          (∃ k : nat,
             (confirmSuspicion fuel es cumulativeSuspicion).1
             = calls_to_check lastConfigBlock ++ [CallHalt]
               ++ flat_map (pull_then_write puller) (take k blocks)
             ∧ (((confirmSuspicion fuel es cumulativeSuspicion).2 = Ret (set_halted es true)
                 ∧ k = length blocks)
                ∨ ((∃ p, (confirmSuspicion fuel es cumulativeSuspicion).2 = Panic p)
                   ∧ (0 < k)%nat
                   ∧ ∃ w b, es_writeBlock es w b ≠ None)))
          ∧ ((∀ w b, es_writeBlock es w b = None) →
             confirmSuspicion fuel es cumulativeSuspicion
             = (calls_to_check lastConfigBlock ++ [CallHalt]
                  ++ flat_map (pull_then_write puller) blocks,
                Ret (set_halted es true)))))
  ∧ (CallHalt ∈ (confirmSuspicion fuel es cumulativeSuspicion).1 →
     ∃ puller lastConfigBlock,
       (evictionSuspicionThreshold es ≤ cumulativeSuspicion)%Z ∧ halted es = false
       ∧ createPuller es tt = Ok puller
       ∧ pullLastConfigBlock es puller = Ok lastConfigBlock
       ∧ height es tt < add64 (Number (Header lastConfigBlock)) 1
       ∧ (amIInChannel es lastConfigBlock = Some ErrNotInChannel
          ∨ amIInChannel es lastConfigBlock = Some ErrForbidden))
  ∧ (CallCreatePuller ∈ (confirmSuspicion fuel es cumulativeSuspicion).1 →
     (evictionSuspicionThreshold es ≤ cumulativeSuspicion)%Z ∧ halted es = false).
Proof.
  unfold confirmSuspicion. split; [|split; [|split]].
  - intros [Hlt|Hhalted].
    + rewrite bool_decide_eq_true_2 by lia. done.
    + rewrite Hhalted, orb_true_r. done.
  - intros puller lastConfigBlock Hthr Hhalted Hpuller Hpull.
    rewrite bool_decide_eq_false_2 by lia. rewrite Hhalted, Hpuller, Hpull. simpl.
    split; [|split].
    + intros Hle. apply N.leb_le in Hle. by rewrite Hle.
    + intros Hgt Hn Hf. apply N.leb_gt in Hgt. rewrite Hgt.
      rewrite !bool_decide_eq_true_2 by done. simpl.
      eexists. split; [reflexivity|]. split; reflexivity.
    + intros Hgt Herr Hrange Hfuel. pose proof Hgt as Hgt'.
      apply N.leb_gt in Hgt. rewrite Hgt.
      assert (bool_decide (amIInChannel es lastConfigBlock ≠ Some ErrNotInChannel)
              && bool_decide (amIInChannel es lastConfigBlock ≠ Some ErrForbidden) = false) as ->.
      { destruct Herr as [-> | ->]; [done|].
        rewrite (bool_decide_eq_false_2 (_ ≠ Some ErrForbidden)) by (intros Hne; by apply Hne).
        apply andb_false_r. }
      assert (Number (Header lastConfigBlock) < MaxUint64) as Hmax.
      { unfold add64, MaxUint64, two64 in *.
        destruct (decide (Number (Header lastConfigBlock) = 2 ^ 64 - 1)) as [Heq|Hne];
          [|clear -Hne Hrange; lia].
        rewrite Heq in Hgt'.
        change ((2 ^ 64 - 1 + 1) mod 2 ^ 64) with 0 in Hgt'. clear -Hgt'. lia. }
      split.
      * destruct (pullAndWrite_calls (set_halted es true) puller _ Hmax fuel (height es tt) []
                    ([CallCreatePuller; CallPullLastConfigBlock; CallHeight]
                       ++ [CallAmIInChannel lastConfigBlock] ++ [CallHalt]) Hfuel)
          as (k & Hcalls & Hr).
        exists k. destruct (pullAndWrite _ _ _ _ _ _ _) as [calls r]; simpl in *.
        split; [by rewrite Hcalls|].
        destruct Hr as [[-> ->]|((p & ->) & Hk & Hfail)]; [by left|].
        right. split; [by eauto|]. done.
      * intros Hok.
        rewrite (pullAndWrite_all (set_halted es true) puller _ Hmax) by done. done.
  - intros Hin.
    destruct (bool_decide (evictionSuspicionThreshold es > cumulativeSuspicion)%Z) eqn:Hthr;
      [by apply elem_of_nil in Hin|].
    apply bool_decide_eq_false in Hthr.
    destruct (halted es) eqn:Hhalted; [by apply elem_of_nil in Hin|]. simpl in Hin.
    destruct (createPuller es tt) as [puller|] eqn:Hpuller; [|set_solver].
    destruct (pullLastConfigBlock es puller) as [lastConfigBlock|] eqn:Hpull; [|set_solver].
    destruct (add64 _ 1 <=? height es tt) eqn:Hle; [set_solver|].
    apply N.leb_gt in Hle.
    exists puller, lastConfigBlock.
    split; [lia|]. split; [done|]. split; [done|]. split; [done|]. split; [done|].
    destruct (amIInChannel es lastConfigBlock) as [[| |msg]|] eqn:Herr; simpl in Hin; auto;
      exfalso; clear -Hin; set_solver.
  - intros Hin.
    destruct (bool_decide (evictionSuspicionThreshold es > cumulativeSuspicion)%Z) eqn:Hthr;
      [by apply elem_of_nil in Hin|].
    apply bool_decide_eq_false in Hthr.
    destruct (halted es) eqn:Hhalted; [by apply elem_of_nil in Hin|]. split; [lia|done].
Qed.

End ConfirmSuspicion.

(** The self-eviction scenario: height 48, last config block 49, this node
    not in it: the chain is halted and blocks 48 and 49 are pulled and
    written.  When the config block still lists the node, the catch-up is
    handed a snapshot whose data is block 49. *)
Lemma confirmSuspicion_spec_witness :
  confirmSuspicion (H := Examples.codec) 10 Examples.evicted_suspector 700
  = ([CallCreatePuller; CallPullLastConfigBlock; CallHeight;
      CallAmIInChannel (Examples.block 49 ["config:same"]);
      CallHalt;
      CallPullBlock 48; CallWriteBlock (Some (Examples.block 48 ["tx"]));
      CallPullBlock 49; CallWriteBlock (Some (Examples.block 49 ["config:same"]))],
     Ret (set_halted Examples.evicted_suspector true))
  ∧ ∃ snapshot,
      confirmSuspicion (H := Examples.codec) 10 Examples.member_suspector 700
      = ([CallCreatePuller; CallPullLastConfigBlock; CallHeight;
          CallAmIInChannel (Examples.block 49 ["config:same"]);
          CallTriggerCatchUp snapshot],
         Ret Examples.member_suspector)
      ∧ Snap_Data snapshot = "49/config:same"
      ∧ Index (Snap_Metadata snapshot) = 0.
Proof.
  split.
  - destruct (confirmSuspicion_spec (H := Examples.codec) Examples.evicted_suspector 700 10)
      as (_ & Hpast & _).
    edestruct Hpast as (_ & _ & Hevicted);
      [vm_compute; discriminate | reflexivity | reflexivity | reflexivity |].
    destruct Hevicted as [_ Hall];
      [vm_compute; reflexivity | left; reflexivity | vm_compute; reflexivity | vm_compute; lia |].
    rewrite Hall; [reflexivity | intros w b; reflexivity].
  - destruct (confirmSuspicion_spec (H := Examples.codec) Examples.member_suspector 700 10)
      as (_ & Hpast & _).
    edestruct Hpast as (_ & Hmember & _);
      [vm_compute; discriminate | reflexivity | reflexivity | reflexivity |].
    destruct Hmember as (snapshot & Hcalls & Hdata & Hmeta);
      [vm_compute; reflexivity | discriminate | discriminate |].
    exists snapshot. split; [exact Hcalls|]. split; [rewrite Hdata; vm_compute; reflexivity|].
    rewrite Hmeta. reflexivity.
Defined.

(** ** The chain: communication and configuration blocks *)

(** Unfolds the operations of the monad of chain methods. *)
Ltac unfold_M :=
  unfold mbind, M_bind, mret, M_ret, get, modify, emit, when, panicf, raise, outOfFuel in *.

Section ChainComm.

Context `{Codec}.

Lemma derefConsenters_Some (l : list (option Consenter)) cs :
  derefConsenters l = Some cs ↔ l = Some <$> cs.
Proof.
  revert cs. induction l as [|[c|] l IH]; intros cs; simpl.
  - split; [by intros [= <-] | by destruct cs].
  - destruct (derefConsenters l) as [cs'|].
    + split.
      * intros [= <-]. simpl. f_equal. by apply IH.
      * destruct cs as [|c' cs]; [done|]. intros [= -> Hl]. f_equal. f_equal.
        apply IH in Hl. congruence.
    + split; [done|]. destruct cs as [|c' cs]; [done|]. intros [= -> Hl].
      apply IH in Hl. done.
  - split; [done | by destruct cs].
Qed.

Lemma derefConsenters_None (l : list (option Consenter)) :
  derefConsenters l = None ↔ None ∈ l.
Proof.
  induction l as [|[c|] l IH]; simpl.
  - split; [done | by intros ?%elem_of_nil].
  - rewrite elem_of_cons, <- IH. destruct (derefConsenters l); naive_solver.
  - split; [intros _; by left | done].
Qed.

Lemma remotePeersLoop_err self (visited : list (N * Consenter)) nodes :
  is_err (remotePeersLoop self visited nodes) = true
  ↔ ∃ id c, (id, c) ∈ visited ∧ id ≠ self
            ∧ (pem_Decode (ServerTlsCert c) = None ∨ pem_Decode (ClientTlsCert c) = None).
Proof.
  revert nodes. induction visited as [|[id c] l IH]; intros nodes; simpl.
  - split; [done|]. intros (id & c & Hin & _). by apply elem_of_nil in Hin.
  - destruct (bool_decide (id = self)) eqn:Hself.
    + apply bool_decide_eq_true in Hself. rewrite IH. split.
      * intros (id' & c' & Hin & Hrest). exists id', c'. split; [by right|done].
      * intros (id' & c' & Hin & Hne & Hbad).
        apply elem_of_cons in Hin as [[= -> ->]|Hin]; [done|]. by exists id', c'.
    + apply bool_decide_eq_false in Hself.
      unfold pemToDER, mbind, result_bind.
      destruct (pem_Decode (ServerTlsCert c)) as [server|] eqn:Hs; simpl.
      2:{ split; [|done]. intros _. exists id, c. split; [by left|]. auto. }
      destruct (pem_Decode (ClientTlsCert c)) as [client|] eqn:Hc; simpl.
      2:{ split; [|done]. intros _. exists id, c. split; [by left|]. auto. }
      rewrite IH. split.
      * intros (id' & c' & Hin & Hrest). exists id', c'. split; [by right|done].
      * intros (id' & c' & Hin & Hne & Hbad).
        apply elem_of_cons in Hin as [[= -> ->]|Hin]; [|by exists id', c'].
        destruct Hbad; congruence.
Qed.

Lemma remotePeers_err (c : Chain) :
  is_err (remotePeers c) = true ↔ bad_pem (raftID c) (opts_BlockMetadata c).
Proof.
  unfold remotePeers, bad_pem. rewrite remotePeersLoop_err.
  split; intros (id & co & Hin & Hrest); exists id, co; (split; [|done]).
  - by apply elem_of_map_to_list in Hin.
  - by apply elem_of_map_to_list.
Qed.

(** [configureComm] either reports the bad certificate and leaves the
    chain as it is, or configures the communication layer. *)
Lemma configureComm_outcome (c : Chain) :
  (bad_pem (raftID c) (opts_BlockMetadata c) ∧ ∃ err, configureComm c = Ret (Some err, c))
  ∨ (¬ bad_pem (raftID c) (opts_BlockMetadata c)
     ∧ ∃ nodes, configureComm c
                = Ret (None, set_trace (trace c ++ [Configure (channelID c) nodes]) c)).
Proof.
  unfold configureComm. pose proof (remotePeers_err c) as Herr.
  destruct (remotePeers c) as [nodes|err]; simpl in Herr.
  - right. split; [intros Hbad; by apply Herr in Hbad|]. by exists nodes.
  - left. split; [by apply Herr|]. by exists err.
Qed.

(** A configuration change the calculator produces adds or removes a node. *)
Lemma ComputeMembershipChanges_ConfChange old new changes cc :
  ComputeMembershipChanges old new = Ok changes → MC_ConfChange changes = Some cc →
  Type_ cc = ConfChangeAddNode ∨ Type_ cc = ConfChangeRemoveNode.
Proof.
  rewrite ComputeMembershipChanges_dispatch.
  destruct (added old new) as [|a [|a' la]]; destruct (removed old new) as [|[id r] [|[id' r'] lr]];
    intros [= <-]; simpl; intros [= <-]; auto.
Qed.

Lemma ComputeMembershipChanges_Rotated old new changes :
  ComputeMembershipChanges old new = Ok changes →
  Rotated changes = true → MC_ConfChange changes = None.
Proof.
  rewrite ComputeMembershipChanges_dispatch.
  destruct (added old new) as [|a [|a' la]]; destruct (removed old new) as [|[id r] [|[id' r'] lr]];
    intros [= <-]; simpl; done.
Qed.

End ChainComm.

(** ** Writing blocks *)

Section WriteBlock.

Context `{Codec}.

Lemma ledger_set_trace (c : Chain) (es : list effect) :
  ledger (set_trace (trace c ++ es) c) = ledger c ++ filter (fun e => is_ledger_write e = true) es.
Proof. unfold ledger. simpl. apply filter_app. Qed.

Lemma ComputeMembershipChanges_is_err old new :
  is_err (ComputeMembershipChanges old new) = true
  ↔ (1 < length (added old new) ∨ 1 < length (removed old new))%nat.
Proof.
  rewrite ComputeMembershipChanges_dispatch.
  destruct (added old new) as [|a [|a' la]]; destruct (removed old new) as [|[id r] [|[id' r'] lr]];
    simpl; (split; [try discriminate; intros _; lia | intros [?|?]; (lia || done)]).
Qed.

Lemma bad_pem_set_RaftIndex self index md :
  bad_pem self (set_RaftIndex index md) ↔ bad_pem self md.
Proof. done. Qed.

Lemma set_sizeLimit_id (c : Chain) : set_sizeLimit (sizeLimit c) c = c.
Proof. by destruct c. Qed.

Lemma ConsensusMetadataFromConfigBlock_fuel (block : option Block) :
  ConsensusMetadataFromConfigBlock block ≠ OutOfFuel.
Proof.
  unfold ConsensusMetadataFromConfigBlock, MetadataFromConfigUpdate.
  repeat case_match; done.
Qed.

(** [detectConfChange] panics when the metadata cannot be read, their
    reading dereferences nil, a consenter is nil or the change is illegal;
    otherwise it answers the change.  It writes at most the snapshot
    interval, also when it panics. *)
Lemma detectConfChange_outcome (c : Chain) (block : Block) :
  match ConsensusMetadataFromConfigBlock (Some block) with
  | Ret (Ok (Some configMetadata)) =>
      ∃ limit,
        match derefConsenters (CM_Consenters configMetadata) with
        | None => ∃ p, detectConfChange block c = PanicAt p (set_sizeLimit limit c)
        | Some newConsenters =>
            match ComputeMembershipChanges (opts_BlockMetadata c) newConsenters with
            | Err _ => ∃ p, detectConfChange block c = PanicAt p (set_sizeLimit limit c)
            | Ok changes => detectConfChange block c = Ret (Some changes, set_sizeLimit limit c)
            end
        end
  | Ret (Ok None) => detectConfChange block c = Ret (None, c)
  | Ret (Err _) | PanicAt _ _ => ∃ p, detectConfChange block c = PanicAt p c
  | OutOfFuel => False
  end.
Proof.
  pose proof (ConsensusMetadataFromConfigBlock_fuel (Some block)) as Hfuel.
  unfold detectConfChange, newConfigMetadata.
  destruct (ConsensusMetadataFromConfigBlock (Some block)) as [[[md|]|]|p []|]; unfold_M; simpl;
    [|done|by eauto|by eauto|done].
  destruct (match CM_Options md with Some _ => _ | None => _ end); simpl.
  - eexists.
    destruct (derefConsenters (CM_Consenters md)) as [new|]; simpl; [|by eauto].
    destruct (ComputeMembershipChanges (opts_BlockMetadata c) new); simpl; by eauto.
  - exists (sizeLimit c). rewrite set_sizeLimit_id.
    destruct (derefConsenters (CM_Consenters md)) as [new|]; simpl; [|by eauto].
    destruct (ComputeMembershipChanges (opts_BlockMetadata c) new); simpl; by eauto.
Qed.

(** Refutes a failure of the handling of a config block against the facts
    of a case in which the handling got further. *)
Ltac no_failure_step Hcmc :=
  repeat match goal with
         | H1 : ?x = Ok _, H2 : is_err ?x = true |- _ => rewrite H1 in H2; discriminate H2
         | H1 : ?x = Ok ?a, H2 : ?x = Ok ?b |- _ =>
             rewrite H1 in H2; first [discriminate H2 | injection H2; clear H2; intros; subst]
         | H1 : ?x = Ret ?a, H2 : ?x = Ret ?b |- _ =>
             rewrite H1 in H2; first [discriminate H2 | injection H2; clear H2; intros; subst]
         | H1 : ?x = Ret ?a, H2 : ?x = PanicAt _ _ |- _ => rewrite H1 in H2; discriminate H2
         | H1 : CM_Consenters ?md = Some <$> ?n, H2 : CM_Consenters ?md = Some <$> ?m |- _ =>
             rewrite H1 in H2; apply (inj (fmap Some)) in H2; subst
         | H1 : CM_Consenters ?md = Some <$> _, H2 : None ∈ CM_Consenters ?md |- _ =>
             rewrite H1 in H2; apply list_elem_of_fmap in H2 as (? & ? & ?); discriminate
         end;
  try congruence;
  try match goal with
      | Hm : (_ ∨ _)%nat |- _ =>
          apply ComputeMembershipChanges_is_err in Hm; rewrite Hcmc in Hm; discriminate Hm
      end;
  try match goal with
      | Hr : Rotated _ = true |- _ =>
          apply (ComputeMembershipChanges_Rotated _ _ _ Hcmc) in Hr; congruence
      end;
  try match goal with
      | Hok : ¬ bad_pem _ _ |- _ => apply Hok; assumption
      end.

Ltac not_rejected Hcmc :=
  let Hfail := fresh "Hfail" in
  intros Hfail; inversion Hfail; no_failure_step Hcmc.

Ltac no_failure Hcmc :=
  let Hfail := fresh "Hfail" in
  intros [Hfail|Hfail]; inversion Hfail; no_failure_step Hcmc.

(** [writeConfigBlock] has three outcomes.  A block that is rejected is
    not written: the call panics and the ledger is as it was.  A rotation
    for which the communication cannot be configured is written, and then
    the call panics.  Any other block is written, with metadata that carry
    the raft index, and the call returns. *)
Lemma writeConfigBlock_outcome (c : Chain) (block : Block) (index : N) :
  (config_rejected (opts_BlockMetadata c) block
   ∧ ∃ p c', writeConfigBlock block index c = PanicAt p c'
             ∧ lastBlock c' = lastBlock c
             ∧ ledger c' = ledger c)
  ∨ (¬ config_rejected (opts_BlockMetadata c) block
     ∧ comm_failure (raftID c) (opts_BlockMetadata c) block
     ∧ ∃ p c', writeConfigBlock block index c = PanicAt p c'
               ∧ lastBlock c' = lastBlock c
               ∧ block_written true block index c c')
  ∨ (¬ config_failure (raftID c) (opts_BlockMetadata c) block
     ∧ ∃ c', writeConfigBlock block index c = Ret (tt, c')
             ∧ lastBlock c' = lastBlock c
             ∧ block_written true block index c c').
Proof.
  unfold writeConfigBlock, block_written.
  destruct (ConfigChannelHeader block) as [hdr|] eqn:Hhdr.
  2:{ left. split; [|unfold_M; by eauto]. apply HeaderUnreadable. by rewrite Hhdr. }
  destruct (bool_decide (CH_Type hdr = HeaderType_CONFIG)) eqn:Hcfg.
  - apply bool_decide_eq_true in Hcfg.
    pose proof (detectConfChange_outcome (set_configInflight false c) block) as Hdetect.
    destruct (ConsensusMetadataFromConfigBlock (Some block)) as [[[md|]|err]|p []|] eqn:Hmd;
      [| | | |done].
    + destruct Hdetect as [limit Hdetect].
      destruct (derefConsenters (CM_Consenters md)) as [new|] eqn:Hderef.
      2:{ destruct Hdetect as [p Hdetect]. left.
          split; [|unfold_M; rewrite Hdetect; by eauto].
          apply derefConsenters_None in Hderef. by eapply NilConsenter. }
      apply derefConsenters_Some in Hderef. simpl in Hdetect.
      destruct (ComputeMembershipChanges (opts_BlockMetadata c) new) as [changes|] eqn:Hcmc.
      2:{ destruct Hdetect as [p Hdetect]. left.
          split; [|unfold_M; rewrite Hdetect; by eauto].
          eapply MoreThanOneConsenter; try done.
          apply ComputeMembershipChanges_is_err. by rewrite Hcmc. }
      unfold_M. rewrite Hdetect. simpl.
      destruct (MC_ConfChange changes) as [cc|] eqn:Hcc; simpl.
      * destruct (ComputeMembershipChanges_ConfChange _ _ _ _ Hcmc Hcc) as [Hty|Hty];
          rewrite Hty; simpl.
        all: right; right; split;
          [ no_failure Hcmc
          | eexists; split; [reflexivity|]; simpl; split; [done|]; split; [done|];
            unfold ledger; simpl; rewrite !filter_app; simpl; by rewrite app_nil_r ].
      * destruct (Rotated changes) eqn:Hrot; simpl.
        -- match goal with
           | |- context [configureComm ?c2] =>
               destruct (configureComm_outcome c2) as [[Hbad (err & ->)]|[Hok (nodes & ->)]]
           end; simpl.
           ++ right; left. split; [not_rejected Hcmc|]. split; [by eapply RotationBadPem|].
              eexists _, _; split; [reflexivity|]; simpl; split; [done|]; split; [done|].
              unfold ledger; simpl; rewrite !filter_app; simpl. done.
           ++ right; right. split; [no_failure Hcmc|].
              eexists; split; [reflexivity|]; simpl; split; [done|]; split; [done|].
              unfold ledger; simpl; rewrite !filter_app; simpl. by rewrite app_nil_r.
        -- right; right. split; [no_failure Hcmc|].
           eexists; split; [reflexivity|]; simpl; split; [done|]; split; [done|].
           unfold ledger; simpl; rewrite !filter_app; simpl. done.
    + unfold_M. rewrite Hdetect. simpl. right; right. split; [no_failure Hhdr|].
      eexists; split; [reflexivity|]; simpl. split; [done|]. split; [done|].
      unfold ledger; simpl; rewrite !filter_app; simpl. done.
    + destruct Hdetect as [p Hdetect]. left. split; [|unfold_M; rewrite Hdetect; by eauto].
      by eapply MetadataUnreadable.
    + destruct Hdetect as [p' Hdetect]. left. split; [|unfold_M; rewrite Hdetect; by eauto].
      by eapply MetadataNilDereference.
  - apply bool_decide_eq_false in Hcfg.
    destruct (bool_decide (CH_Type hdr = HeaderType_ORDERER_TRANSACTION)) eqn:Hord.
    + apply bool_decide_eq_true in Hord. unfold_M. simpl. right; right.
      split; [no_failure Hhdr|].
      eexists; split; [reflexivity|]; simpl. split; [done|]. split; [done|].
      unfold ledger; simpl; rewrite !filter_app; simpl. done.
    + apply bool_decide_eq_false in Hord. left. split; [|unfold_M; by eauto].
      by eapply HeaderTypeUnexpected.
Qed.

End WriteBlock.

Section WriteBlockClaim.

Context `{Codec}.

(** C1, as amended.  [writeBlock] appends the block to the ledger, with
    the raft index persisted in the block metadata, exactly when the
    block's number is the expected one and, for a config block, the block
    is not rejected; the block then is the last block.  A block with the
    expected number that is rejected becomes the last block too, is not
    appended, and the call panics.  A block with a lower number leaves the
    chain as it is; one with a higher number panics and leaves the chain
    as it is.  The call panics exactly when the number is higher than
    expected, or is the expected one and the handling of a config block
    fails: the block is rejected, or it rotates a certificate and the
    communication cannot be configured, which panics after the block was
    appended. *)
Theorem writeBlock_spec (c : Chain) (block : Block) (index : N) :
  let rejected :=
    IsConfigBlock block = true ∧ config_rejected (opts_BlockMetadata c) block in
  let fails :=
    IsConfigBlock block = true ∧ config_failure (raftID c) (opts_BlockMetadata c) block in
  ((∃ c', left_by (writeBlock block index c) = Some c'
          ∧ lastBlock c' = block
          ∧ block_written (IsConfigBlock block) block index c c')
   ↔ Number (Header block) = expected c ∧ ¬ rejected)
  ∧ (Number (Header block) = expected c → rejected →
     ∃ p c', writeBlock block index c = PanicAt p c'
             ∧ lastBlock c' = block
             ∧ ledger c' = ledger c)
  ∧ (Number (Header block) < expected c → writeBlock block index c = Ret (tt, c))
  ∧ (expected c < Number (Header block) → ∃ p, writeBlock block index c = PanicAt p c)
  ∧ ((∃ p c', writeBlock block index c = PanicAt p c')
     ↔ expected c < Number (Header block)
       ∨ (Number (Header block) = expected c ∧ fails))
  ∧ writeBlock block index c ≠ OutOfFuel.
Proof.
  intros rejected fails. unfold expected, writeBlock. unfold_M. simpl.
  assert (∀ (c' : Chain) e, ledger c' ≠ ledger c' ++ [e]) as Hgrow.
  { intros c' e Hledger. apply (f_equal length) in Hledger.
    rewrite length_app in Hledger. simpl in Hledger. lia. }
  destruct (N.lt_trichotomy (Number (Header block)) (add64 (Number (Header (lastBlock c))) 1))
    as [Hlt|[Heq|Hgt]].
  - (* a lower number *)
    assert ((add64 (Number (Header (lastBlock c))) 1 <? Number (Header block)) = false) as ->
      by (apply N.ltb_ge; lia).
    assert ((Number (Header block) <? add64 (Number (Header (lastBlock c))) 1) = true) as ->
      by (by apply N.ltb_lt).
    split; [|split; [intros; lia|split; [done|split; [intros; lia|split; [|done]]]]].
    + split; [|intros [? _]; lia].
      intros (c' & [= <-] & _ & _ & Hledger). exfalso. by eapply Hgrow.
    + split; [by intros (p & c' & ?) | intros [?|[? _]]; lia].
  - (* the expected number *)
    assert ((add64 (Number (Header (lastBlock c))) 1 <? Number (Header block)) = false) as ->
      by (apply N.ltb_ge; lia).
    assert ((Number (Header block) <? add64 (Number (Header (lastBlock c))) 1) = false) as ->
      by (apply N.ltb_ge; lia).
    set (c1 := if bool_decide (0 < blockInflight c)%Z
               then set_blockInflight (blockInflight c - 1)%Z c else c).
    match goal with
    | |- context [?t] =>
        lazymatch t with
        | (if bool_decide (0 < blockInflight c)%Z then _ else _) c =>
            assert (t = Ret (tt, c1)) as ->
              by (unfold c1; by destruct (bool_decide (0 < blockInflight c)%Z))
        end
    end.
    assert (raftID c1 = raftID c ∧ opts_BlockMetadata c1 = opts_BlockMetadata c
            ∧ trace c1 = trace c) as (Hid & Hmd & Htrace)
      by (unfold c1; by destruct (bool_decide (0 < blockInflight c)%Z)).
    assert (ledger (set_lastBlock block c1) = ledger c) as Hsame
      by (unfold ledger; simpl; by rewrite Htrace).
    clearbody c1. subst rejected fails.
    destruct (IsConfigBlock block) eqn:Hconfig.
    + destruct (writeConfigBlock_outcome (set_lastBlock block c1) block index)
        as [[Hrej (p & c' & Hp & Hlast & Hledger)]
           |[(Hnot & Hcomm & p & c' & Hp & Hlast & Hidx & Hledger)
            |[Hok (c' & Hc' & Hlast & Hidx & Hledger)]]];
        simpl in *; rewrite ?Hid, ?Hmd, ?Hsame in *.
      * rewrite Hp. simpl.
        split; [|split; [|split; [intros; lia|split; [intros; lia|split; [|done]]]]].
        -- split; [|intros [_ Hno]; exfalso; by apply Hno].
           intros (c2 & [= <-] & _ & _ & Hwritten). exfalso.
           rewrite Hledger in Hwritten. by eapply Hgrow.
        -- intros _ _. by exists p, c'.
        -- split; [intros _; right; split; [done|]; split; [done|]; by left | by eauto].
      * rewrite Hp. simpl.
        split; [|split; [|split; [intros; lia|split; [intros; lia|split; [|done]]]]].
        -- split; [intros _; split; [done | by intros [_ ?]]|].
           intros _. by exists c'.
        -- intros _ [_ Hrej]. done.
        -- split; [intros _; right; split; [done|]; split; [done|]; by right | by eauto].
      * rewrite Hc'. simpl.
        split; [|split; [|split; [intros; lia|split; [intros; lia|split; [|done]]]]].
        -- split; [intros _; split; [done|]; intros [_ Hrej]; apply Hok; by left|].
           intros _. by exists c'.
        -- intros _ [_ Hrej]. exfalso. apply Hok. by left.
        -- split; [by intros (p & c2 & ?) | intros [?|[_ [_ ?]]]; [lia|done]].
    + simpl.
      split; [|split; [|split; [intros; lia|split; [intros; lia|split; [|done]]]]].
      * split; [intros _; split; [done | by intros [? _]]|].
        intros _. eexists. split; [reflexivity|]. split; [done|]. split; [done|].
        unfold ledger. simpl. rewrite Htrace, filter_app. done.
      * by intros _ [? _].
      * split; [by intros (p & c2 & ?) | intros [?|[_ [? _]]]; [lia|done]].
  - (* a higher number *)
    assert ((add64 (Number (Header (lastBlock c))) 1 <? Number (Header block)) = true) as ->
      by (by apply N.ltb_lt).
    simpl.
    split; [|split; [intros; lia|split; [intros; lia|split; [by eauto|split; [|done]]]]].
    + split; [|intros [? _]; lia].
      intros (c' & [= <-] & _ & _ & Hledger). exfalso. by eapply Hgrow.
    + split; [intros _; by left | by eauto].
Qed.

End WriteBlockClaim.

(** Block 5 with a normal transaction, on a chain whose last block is 4, is
    written.  Block 5 with a config block that rotates the certificates of
    consenter 3 to ones that are not PEM is written too, and then the call
    panics. *)
Lemma writeBlock_spec_witness :
  (∃ c', writeBlock (H := Examples.codec) (Examples.block 5 ["tx"]) 8 Examples.chain_at_4
         = Ret (tt, c')
         ∧ lastBlock c' = Examples.block 5 ["tx"]
         ∧ RaftIndex (opts_BlockMetadata c') = 8
         ∧ ledger c'
           = [WriteBlock (Examples.block 5 ["tx"]) (Some (opts_BlockMetadata c'))])
  ∧ (∃ c', writeBlock (H := Examples.codec) (Examples.block 5 ["config:rotate-no-pem"]) 8
             Examples.chain_at_4
           = PanicAt (PanicMsg "Failed to configure communication") c'
           ∧ lastBlock c' = Examples.block 5 ["config:rotate-no-pem"]
           ∧ RaftIndex (opts_BlockMetadata c') = 8
           ∧ ledger c'
             = [WriteConfigBlock (Examples.block 5 ["config:rotate-no-pem"])
                  (Some (opts_BlockMetadata c'))]).
Proof.
  split.
  - destruct (writeBlock_spec (H := Examples.codec) Examples.chain_at_4
                (Examples.block 5 ["tx"]) 8) as [[_ Hwritten] _].
    destruct Hwritten as (c' & Hc' & Hlast & Hidx & Hledger).
    { split; [vm_compute; reflexivity|]. intros [Hconfig _]. vm_compute in Hconfig. discriminate. }
    assert (∃ c2, writeBlock (H := Examples.codec) (Examples.block 5 ["tx"]) 8 Examples.chain_at_4
                  = Ret (tt, c2)) as [c2 Hc2] by (eexists; vm_compute; reflexivity).
    rewrite Hc2 in Hc'. injection Hc' as <-.
    exists c2. split; [exact Hc2|]. split; [exact Hlast|]. split; [exact Hidx|]. exact Hledger.
  - destruct (writeBlock_spec (H := Examples.codec) Examples.chain_at_4
                (Examples.block 5 ["config:rotate-no-pem"]) 8) as [[_ Hwritten] _].
    destruct Hwritten as (c' & Hc' & Hlast & Hidx & Hledger).
    { split; [vm_compute; reflexivity|]. intros [_ Hrej].
      inversion Hrej as [Hh|hdr Hh Hc Ho|hdr err Hh Hc Hm|hdr p Hh Hc Hm
                        |hdr md Hh Hc Hm Hnil|hdr md new Hh Hc Hm Hnew Hmany].
      - vm_compute in Hh. discriminate.
      - vm_compute in Hh. injection Hh as <-. by apply Hc.
      - vm_compute in Hm. discriminate.
      - vm_compute in Hm. discriminate.
      - vm_compute in Hm. injection Hm as <-. simpl in Hnil.
        repeat (apply elem_of_cons in Hnil as [Hnil|Hnil]; [discriminate|]).
        by apply elem_of_nil in Hnil.
      - vm_compute in Hm. injection Hm as <-. simpl in Hnew.
        destruct new as [|n1 [|n2 [|n3 [|n4 new]]]]; try discriminate Hnew.
        injection Hnew as <- <- <-.
        vm_compute in Hmany. destruct Hmany; lia. }
    assert (∃ c2, writeBlock (H := Examples.codec) (Examples.block 5 ["config:rotate-no-pem"]) 8
                    Examples.chain_at_4
                  = PanicAt (PanicMsg "Failed to configure communication") c2) as [c2 Hc2]
      by (eexists; vm_compute; reflexivity).
    rewrite Hc2 in Hc'. injection Hc' as <-.
    exists c2. split; [exact Hc2|]. split; [exact Hlast|]. split; [exact Hidx|]. exact Hledger.
Defined.

(** C1 as stated fails: block 5 is the expected one on a chain whose last
    block is 4, yet the call panics and the block is not appended, because
    the block is a config block that adds two consenters. *)
Lemma writeBlock_config_panics_counterexample :
  Number (Header (Examples.block 5 ["config:add-two"]))
  = add64 (Number (Header (lastBlock Examples.chain_at_4))) 1
  ∧ ¬ (add64 (Number (Header (lastBlock Examples.chain_at_4))) 1
       < Number (Header (Examples.block 5 ["config:add-two"])))
  ∧ ∃ c', writeBlock (H := Examples.codec) (Examples.block 5 ["config:add-two"]) 8
            Examples.chain_at_4
          = PanicAt (PanicMsg "illegal configuration change detected") c'
          ∧ ledger c' = ledger Examples.chain_at_4.
Proof.
  split; [vm_compute; reflexivity|]. split; [vm_compute; discriminate|].
  eexists. split; vm_compute; reflexivity.
Defined.

(** ** The main loop: snapshots *)

(** C8.  A snapshot whose index is not zero and at most the applied index
    is skipped: the arm leaves the chain and the loop as they are, so that
    [confState], [appliedIndex], [lastBlock] and the ledger keep their
    values and no puller is created. *)
Theorem onSnapshot_stale `{Codec} `{BlockCreator} (fuel : nat) (sn : Snapshot) (s : serveState) (c : Chain) :
  Index (Snap_Metadata sn) ≠ 0 → Index (Snap_Metadata sn) ≤ appliedIndex c →
  ∃ c', serveRequest_arm fuel (EvSnapshot sn) s c = Ret (s, c')
        ∧ c' = c
        ∧ confState c' = confState c ∧ appliedIndex c' = appliedIndex c
        ∧ lastBlock c' = lastBlock c ∧ ledger c' = ledger c
        ∧ trace c' = trace c.
Proof.
  intros Hnz Hle. exists c. split; [|done].
  simpl. unfold onSnapshot. unfold_M. simpl.
  assert ((Index (Snap_Metadata sn) =? 0) = false) as -> by (by apply N.eqb_neq).
  assert ((Index (Snap_Metadata sn) <=? appliedIndex c) = true) as -> by (by apply N.leb_le).
  done.
Qed.

(** The "snapshot skip" scenario: a snapshot at the applied index. *)
Lemma onSnapshot_stale_witness :
  serveRequest_arm (H := Examples.codec) (H0 := Examples.block_creator) 10
    (EvSnapshot Examples.snapshot_at_7)
    serveState_init Examples.chain_at_4
  = Ret (serveState_init, Examples.chain_at_4).
Proof.
  destruct (onSnapshot_stale (H := Examples.codec) (H0 := Examples.block_creator) 10
              Examples.snapshot_at_7 serveState_init
              Examples.chain_at_4) as (c' & Harm & -> & _);
    [vm_compute; discriminate | vm_compute; discriminate |].
  exact Harm.
Defined.

(** ** What the methods leave alone *)

Section Preserves.

Context `{Codec} {X : Type} (P : Chain → X).

Lemma preserves_ret {A} (a : A) : preserves P (mret a).
Proof. intros c a' c' [= <- <-]. done. Qed.

Lemma preserves_get : preserves P get.
Proof. intros c a' c' [= <- <-]. done. Qed.

Lemma preserves_raise {A} p : preserves P (raise p : M A).
Proof. intros c a c' [=]. Qed.

Lemma preserves_panicf {A} msg : preserves P (panicf msg : M A).
Proof. intros c a c' [=]. Qed.

Lemma preserves_outOfFuel {A} : preserves P (outOfFuel : M A).
Proof. intros c a c' [=]. Qed.

Lemma preserves_modify (f : Chain → Chain) :
  (∀ c, P (f c) = P c) → preserves P (modify f).
Proof. intros Hf c a c' [= <- <-]. apply Hf. Qed.

Lemma preserves_bind {A B} (m : M A) (k : A → M B) :
  preserves P m → (∀ a, preserves P (k a)) → preserves P (m ≫= k).
Proof.
  intros Hm Hk c b c'. unfold mbind, M_bind.
  destruct (m c) as [[a c1]| |] eqn:Hmc; [|done|done].
  intros Hkc. rewrite (Hk a c1 b c' Hkc). by eapply Hm.
Qed.

Lemma preserves_when (b : bool) (m : M unit) :
  preserves P m → preserves P (when b m).
Proof. intros Hm. destruct b; [done|]. apply preserves_ret. Qed.

Lemma preserves_defer {A} (deferred : M unit) (body : M A) :
  preserves P deferred → preserves P body → preserves P (defer deferred body).
Proof.
  intros Hd Hb c a c'. unfold defer.
  destruct (body c) as [[a1 c1]|p c1|] eqn:Hbody.
  - intros Hrest. rewrite <- (Hb _ _ _ Hbody). revert Hrest.
    apply preserves_bind; [done|]. intros []. apply preserves_ret.
  - by destruct (deferred c1) as [[[] c2]| |].
  - done.
Qed.

(** The observation does not read the trace. *)
Hypothesis P_trace : ∀ c t, P (set_trace t c) = P c.

Lemma preserves_emit (e : effect) : preserves P (emit e).
Proof. apply preserves_modify. intros c. apply P_trace. Qed.

Lemma preserves_configureComm : preserves P configureComm.
Proof.
  intros c a c'. unfold configureComm.
  destruct (remotePeers c); [|by intros [= <- <-]].
  unfold_M. intros [= <- <-]. apply P_trace.
Qed.

End Preserves.

(** Proves that a method built from the operations of the monad preserves an
    observation; the calls to other methods are looked up in [preserves]. *)
Create HintDb preserves discriminated.

Ltac preserves_step :=
  first
    [ solve [eauto with preserves]
    | apply preserves_ret
    | apply preserves_get
    | apply preserves_raise
    | apply preserves_panicf
    | apply preserves_outOfFuel
    | apply preserves_configureComm; [intros; reflexivity]
    | apply preserves_when
    | apply preserves_defer
    | apply preserves_emit; [intros; reflexivity]
    | apply preserves_modify; [intros; reflexivity]
    | apply preserves_bind; [|intros ?]
    | match goal with
      | |- preserves _ (if ?b then _ else _) => destruct b
      | |- preserves _ (match ?x with _ => _ end) => destruct x
      | |- preserves _ (let 'pair _ _ := ?x in _) => destruct x
      end ].

Ltac solve_preserves := repeat preserves_step.

(** ** The errored channel *)

Section Errored.

Context `{Codec} `{BlockCreator}.

Lemma errored_detectConfChange block : preserves errored (detectConfChange block).
Proof. unfold detectConfChange, newConfigMetadata. solve_preserves. Qed.

Lemma errored_writeConfigBlock block index : preserves errored (writeConfigBlock block index).
Proof.
  pose proof errored_detectConfChange. unfold writeConfigBlock. solve_preserves.
Qed.

Lemma errored_writeBlock block index : preserves errored (writeBlock block index).
Proof.
  pose proof errored_writeConfigBlock. unfold writeBlock. solve_preserves.
Qed.

Lemma errored_applyEntry i ent appliedb position :
  preserves errored (applyEntry i ent appliedb position).
Proof.
  pose proof errored_writeBlock. unfold applyEntry. solve_preserves.
Qed.

Lemma errored_applyLoop ents i appliedb position :
  preserves errored (applyLoop i ents appliedb position).
Proof.
  pose proof errored_applyEntry.
  revert i appliedb position. induction ents as [|ent ents IH]; intros i appliedb position; simpl;
    solve_preserves.
Qed.

Lemma errored_apply gcReady ents : preserves errored (apply gcReady ents).
Proof.
  pose proof errored_applyLoop. unfold apply. solve_preserves.
Qed.

Lemma errored_catchUpLoop fuel puller last next :
  preserves errored (catchUpLoop fuel puller last next).
Proof.
  pose proof errored_detectConfChange.
  revert next. induction fuel as [|fuel IH]; intros next; simpl; solve_preserves.
Qed.

Lemma errored_catchUp fuel snap : preserves errored (catchUp fuel snap).
Proof.
  pose proof errored_catchUpLoop. unfold catchUp. solve_preserves.
Qed.

Lemma errored_onSnapshot fuel sn s : preserves errored (onSnapshot fuel sn s).
Proof.
  pose proof errored_catchUp. unfold onSnapshot. solve_preserves.
Qed.

Lemma errored_checkConsentersSet configValue :
  preserves errored (checkConsentersSet configValue).
Proof. unfold checkConsentersSet. solve_preserves. Qed.

Lemma errored_checkConfigUpdateValidity ctx :
  preserves errored (checkConfigUpdateValidity ctx).
Proof.
  pose proof errored_checkConsentersSet. unfold checkConfigUpdateValidity. solve_preserves.
Qed.

Lemma errored_ordered msg : preserves errored (ordered msg).
Proof.
  pose proof errored_checkConfigUpdateValidity. unfold ordered, isConfig. solve_preserves.
Qed.

Lemma errored_propose room ch creator batches :
  preserves errored (propose room ch creator batches).
Proof.
  revert room creator. induction batches as [|batch batches IH]; intros room creator; simpl;
    solve_preserves.
Qed.

Lemma errored_onSubmit room msg s : preserves errored (onSubmit room msg s).
Proof.
  pose proof errored_ordered. pose proof errored_propose. unfold onSubmit. solve_preserves.
Qed.

Lemma errored_onTimer room s : preserves errored (onTimer room s).
Proof.
  pose proof errored_propose. unfold onTimer. solve_preserves.
Qed.

Section LeaderChange.

Context {X : Type} (P : Chain → X).
Hypothesis P_trace : ∀ c t, P (set_trace t c) = P c.
Hypothesis P_blockInflight : ∀ c v, P (set_blockInflight v c) = P c.
Hypothesis P_justElected : ∀ c v, P (set_justElected v c) = P c.
Hypothesis P_confChangeInProgress : ∀ c v, P (set_confChangeInProgress v c) = P c.
Hypothesis P_configInflight : ∀ c v, P (set_configInflight v c) = P c.

Lemma preserves_detectMigration : preserves P detectMigration.
Proof. unfold detectMigration. solve_preserves. Qed.

Lemma preserves_getInFlightConfChange : preserves P getInFlightConfChange.
Proof.
  pose proof preserves_detectMigration. unfold getInFlightConfChange. solve_preserves.
  apply preserves_emit. done.
Qed.

Lemma preserves_becomeLeader s : preserves P (becomeLeader s).
Proof.
  pose proof preserves_getInFlightConfChange. unfold becomeLeader.
  repeat first
    [ assumption
    | apply preserves_ret
    | apply preserves_emit; [done]
    | apply preserves_modify; [done]
    | apply preserves_bind; [|intros ?]
    | match goal with |- preserves _ (match ?x with _ => _ end) => destruct x end ].
Qed.

Lemma preserves_becomeFollower s : preserves P (becomeFollower s).
Proof.
  unfold becomeFollower.
  repeat first
    [ apply preserves_ret
    | apply preserves_when
    | apply preserves_emit; [done]
    | apply preserves_modify; [done]
    | apply preserves_bind; [|intros ?] ].
Qed.

End LeaderChange.

End Errored.

Section ErroredClaims.

Context `{Codec} `{BlockCreator}.

Lemma isCandidate_negb (state : StateType) :
  negb (isCandidate state) = true ↔ isCandidate state = false.
Proof. by destruct (isCandidate state). Qed.

Lemma found_bool (old newSoft : SoftState) :
  bool_decide (Lead old = raft_None) && bool_decide (Lead newSoft ≠ raft_None)
  || isCandidate (RaftState old) && negb (isCandidate (RaftState newSoft))
  = bool_decide (leader_found old newSoft).
Proof.
  unfold leader_found. apply eq_true_iff_eq.
  rewrite orb_true_iff, !andb_true_iff, !bool_decide_eq_true, isCandidate_negb. tauto.
Qed.

Lemma leaderless_bool (newSoft : SoftState) :
  isCandidate (RaftState newSoft) || bool_decide (Lead newSoft = raft_None)
  = bool_decide (leaderless newSoft).
Proof.
  unfold leaderless. apply eq_true_iff_eq.
  rewrite orb_true_iff, !bool_decide_eq_true. tauto.
Qed.

(** The handling of a new soft state keeps the block metadata and leaves
    the errored channel as [errored_after] tells. *)
Lemma onSoftState_errored newSoft s c s' c' :
  onSoftState newSoft s c = Ret (s', c') →
  opts_BlockMetadata c' = opts_BlockMetadata c
  ∧ errored c' = errored_after (soft s) newSoft c.
Proof.
  unfold onSoftState.
  match goal with
  | |- (?lc ≫= ?k) c = _ → _ =>
      assert (preserves leader_view lc) as Hlc; [|generalize dependent lc; intros leaderChange Hlc]
  end.
  { pose proof (preserves_becomeLeader leader_view) as HL.
    pose proof (preserves_becomeFollower leader_view) as HF.
    destruct (bool_decide (Lead newSoft ≠ Lead (soft s))); [|apply preserves_ret].
    apply preserves_bind; [apply preserves_modify; done|intros _].
    apply preserves_bind; [apply preserves_get|intros c0].
    apply preserves_bind; [|intros s1].
    - destruct (bool_decide (Lead newSoft = raftID c0)); [by apply HL|apply preserves_ret].
    - destruct (bool_decide (Lead (soft s) = raftID c0)); [by apply HF|apply preserves_ret]. }
  unfold mbind at 1. unfold M_bind.
  destruct (leaderChange c) as [[s1 c1]| |] eqn:Hc1; [|done|done].
  apply Hlc in Hc1. injection Hc1 as Hch Hclosed Hmd.
  unfold_M. unfold make_errorC, close_errorC. unfold_M. simpl.
  rewrite found_bool, leaderless_bool. unfold errored_after, errored.
  destruct (decide (leader_found (soft s) newSoft)) as [Hfound|Hfound];
    [rewrite bool_decide_eq_true_2 by done | rewrite bool_decide_eq_false_2 by done];
    (destruct (decide (leaderless newSoft)) as [Hless|Hless];
     [rewrite bool_decide_eq_true_2 by done | rewrite bool_decide_eq_false_2 by done]);
    simpl; rewrite ?Hmd, ?Hclosed, ?Hch.
  - (* a new channel, closed again when the state is leaderless *)
    destruct (bool_decide (2 < size (Consenters (opts_BlockMetadata c)))%nat) eqn:Hsize;
      [apply bool_decide_eq_true in Hsize | apply bool_decide_eq_false in Hsize];
      simpl; intros [= <- <-]; simpl; (split; [done|]).
    + by rewrite decide_True by done.
    + by rewrite decide_False by tauto.
  - intros [= <- <-]; simpl. split; [done|]. by rewrite decide_False by tauto.
  - destruct (errorC_closed c) eqn:Hc; simpl.
    { intros [= <- <-]; simpl. split; [done|]. rewrite ?Hch, ?Hclosed, ?Hc.
      by rewrite decide_False by (intros (_ & ? & _); done). }
    destruct (bool_decide (2 < size (Consenters (opts_BlockMetadata c)))%nat) eqn:Hsize;
      [apply bool_decide_eq_true in Hsize | apply bool_decide_eq_false in Hsize];
      simpl; rewrite ?Hclosed, ?Hc; intros [= <- <-]; simpl; (split; [done|]);
      rewrite ?Hch, ?Hclosed, ?Hc.
    + by rewrite decide_True by done.
    + by rewrite decide_False by tauto.
  - intros [= <- <-]; simpl. split; [done|]. rewrite ?Hch, ?Hclosed.
    by rewrite decide_False by tauto.
Qed.

Lemma onApply_errored gcReady lastIndex app s c s' c' :
  onApply gcReady lastIndex app s c = Ret (s', c') →
  errored c' = match app_soft app with
               | Some newSoft => errored_after (soft s) newSoft c
               | None => errored c
               end.
Proof.
  unfold onApply. unfold mbind at 1. unfold M_bind at 1.
  match goal with
  | |- match ?m c with _ => _ end = _ → _ =>
      destruct (m c) as [[s1 c1]| |] eqn:Hsoft; [|done|done]
  end.
  intros Hrest.
  assert (errored c' = errored c1) as ->.
  { revert Hrest. apply (preserves_bind errored); [apply errored_apply|intros _].
    solve_preserves. }
  destruct (app_soft app) as [newSoft|].
  - by apply onSoftState_errored in Hsoft as [_ ->].
  - by injection Hsoft as <- <-.
Qed.

Lemma onDone_errored s c s' c' :
  onDone s c = Ret (s', c') → errored c' = (errorC c, true).
Proof.
  unfold onDone, close_errorC. unfold_M. unfold errored.
  destruct (cancelProp s); simpl; destruct (errorC_closed c) eqn:Hc; simpl; rewrite ?Hc;
    intros [= <- <-]; simpl; by rewrite ?Hc.
Qed.

(** An arm other than those of [applyC] and [doneC] leaves the errored
    channel alone. *)
Lemma serveRequest_arm_errored fuel ev s c s' c' :
  serveRequest_arm fuel ev s c = Ret (s', c') →
  errored c' = match ev with
               | EvApply _ _ app =>
                   match app_soft app with
                   | Some newSoft => errored_after (soft s) newSoft c
                   | None => errored c
                   end
               | EvDone => (errorC c, true)
               | _ => errored c
               end.
Proof.
  destruct ev as [room msg|gcReady lastIndex app|room|sn|]; simpl.
  - apply errored_onSubmit.
  - apply onApply_errored.
  - apply errored_onTimer.
  - apply errored_onSnapshot.
  - apply onDone_errored.
Qed.

Lemma errored_after_cases old newSoft c :
  (errored_after old newSoft c = errored c)
  ∨ (leader_found old newSoft ∧ (errored_after old newSoft c).1 = S (errorC c)
     ∧ ((errored_after old newSoft c).2 = true →
        leaderless newSoft ∧ (2 < size (Consenters (opts_BlockMetadata c)))%nat))
  ∨ (¬ leader_found old newSoft ∧ errorC_closed c = false
     ∧ errored_after old newSoft c = (errorC c, true)
     ∧ leaderless newSoft ∧ (2 < size (Consenters (opts_BlockMetadata c)))%nat).
Proof.
  unfold errored_after, errored.
  destruct (decide (leader_found old newSoft)) as [Hfound|Hfound]; simpl.
  - right. left. split; [done|]. case_decide as Hclose; simpl; [|done].
    split; [done|]. intros _. tauto.
  - case_decide as Hclose; simpl; [|by left].
    right. right. tauto.
Qed.

Lemma detectMigration_outcome (c : Chain) :
  (∃ b, detectMigration c = Ret (b, c)) ∨ (∃ p, detectMigration c = PanicAt p c).
Proof.
  unfold detectMigration. unfold_M. simpl.
  destruct (Kafka2RaftMigration (support c)); [|by eauto].
  destruct (GetLastConfigIndexFromBlock (lastBlock c)); [|by eauto].
  destruct (bool_decide _); [by eauto|].
  destruct (IsSystemChannel (support c)); by eauto.
Qed.

Lemma Start_outcome (c c' : Chain) :
  Start c = Ret (tt, c') →
  (bad_pem (raftID c) (opts_BlockMetadata c)
   ∧ startC_closed c' = startC_closed c ∧ errored c' = errored c ∧ doneC_closed c' = true)
  ∨ (¬ bad_pem (raftID c) (opts_BlockMetadata c)
     ∧ startC_closed c' = true ∧ errorC c' = errorC c ∧ errorC_closed c' = true).
Proof.
  unfold Start. unfold mbind at 1. unfold M_bind at 1.
  destruct (configureComm_outcome c) as [[Hbad (err & ->)]|[Hok (nodes & ->)]].
  - unfold close_doneC. unfold_M. simpl.
    destruct (doneC_closed c); [done|]. intros [= <-]. by left.
  - intros Hstart. right. split; [done|]. revert Hstart.
    unfold close_startC, close_errorC. unfold_M. simpl.
    match goal with
    | |- context [if ?b then detectMigration else _] => destruct b
    end.
    + match goal with
      | |- context [detectMigration ?c1] =>
          destruct (detectMigration_outcome c1) as [[b ->]|[p ->]]; [|done]
      end.
      simpl. destruct (startC_closed c); [done|]. simpl.
      destruct (errorC_closed c); [done|]. by intros [= <-].
    + simpl. destruct (startC_closed c); [done|]. simpl.
      destruct (errorC_closed c); [done|]. by intros [= <-].
Qed.

(** C9, as amended.  In the main loop the errored channel is closed
    only by the arm that stops the loop on halt, and by the handling of a
    soft state in which the node is a candidate or sees no leader while
    the consenter set has more than two nodes.  With one or two consenters
    no arm but the halt closes it.  The halt closes it whatever the size
    of the consenter set, and so does [Start] when it starts the chain. *)
Theorem errorC_closed_only :
  (∀ fuel ev s c s' c',
     serveRequest_arm fuel ev s c = Ret (s', c') →
     (errorC_closed c' = true → errored c' ≠ errored c →
      ev = EvDone
      ∨ ∃ gcReady lastIndex app newSoft,
          ev = EvApply gcReady lastIndex app ∧ app_soft app = Some newSoft
          ∧ leaderless newSoft
          ∧ (2 < size (Consenters (opts_BlockMetadata c)))%nat)
     ∧ ((size (Consenters (opts_BlockMetadata c)) ≤ 2)%nat → ev ≠ EvDone →
        errorC_closed c' = true → Errored c' = Errored c ∧ errorC_closed c = true)
     ∧ (ev = EvDone → Errored c' = Errored c ∧ errorC_closed c' = true))
  ∧ (∀ c c',
       Start c = Ret (tt, c') → ¬ bad_pem (raftID c) (opts_BlockMetadata c) →
       Errored c' = Errored c ∧ errorC_closed c' = true).
Proof.
  split.
  - intros fuel ev s c s' c' Harm. apply serveRequest_arm_errored in Harm.
    assert (errorC_closed c' = true → errored c' ≠ errored c →
            ev = EvDone
            ∨ ∃ gcReady lastIndex app newSoft,
                ev = EvApply gcReady lastIndex app ∧ app_soft app = Some newSoft
                ∧ leaderless newSoft
                ∧ (2 < size (Consenters (opts_BlockMetadata c)))%nat) as Hclosed.
    { intros Hc Hne.
      destruct ev as [room msg|gcReady lastIndex app|room|sn|]; try done; [|by left].
      right. destruct (app_soft app) as [newSoft|] eqn:Hsoft; [|done].
      exists gcReady, lastIndex, app, newSoft. split; [done|]. split; [done|].
      rewrite Harm in Hne.
      destruct (errored_after_cases (soft s) newSoft c)
        as [Hsame|[(_ & _ & Hless)|(_ & _ & _ & Hless)]]; [done| |done].
      apply Hless. unfold errored in Harm. rewrite <- Harm. done. }
    split; [done|]. unfold Errored. split.
    + intros Hsize Hev Hc.
      destruct (decide (errored c' = errored c)) as [Heq|Hne].
      * unfold errored in Heq. injection Heq as Hch Hcl. split; [done|congruence].
      * destruct (Hclosed Hc Hne) as [?|(? & ? & ? & ? & _ & _ & _ & ?)]; [done|lia].
    + intros ->. unfold errored in Harm. by injection Harm as -> ->.
  - intros c c' Hstart Hok.
    destruct (Start_outcome c c' Hstart) as [(? & _)|(_ & _ & ? & ?)]; done.
Qed.

End ErroredClaims.

Section StartClaims.

Context `{Codec} `{BlockCreator}.

(** C10.  After [Start] has started the chain, the channel [Errored]
    returns is closed, whatever the number of consenters: [Start] either
    fails to configure the communication and leaves [startC] and the
    errored channel as they were, or closes both.  In the main loop the
    errored channel is replaced only by the handling of a soft state in
    which a leader is found or the node quits the candidate state; the new
    channel is open unless that same soft state is leaderless with more
    than two consenters. *)
Theorem Start_closes_errorC :
  (∀ c c' : Chain,
     Start c = Ret (tt, c') →
     (bad_pem (raftID c) (opts_BlockMetadata c)
      ∧ startC_closed c' = startC_closed c ∧ errored c' = errored c)
     ∨ (¬ bad_pem (raftID c) (opts_BlockMetadata c)
        ∧ startC_closed c' = true
        ∧ Errored c' = Errored c ∧ errorC_closed c' = true))
  ∧ (∀ fuel ev s c s' c',
       serveRequest_arm fuel ev s c = Ret (s', c') →
       Errored c' ≠ Errored c →
       ∃ gcReady lastIndex app newSoft,
         ev = EvApply gcReady lastIndex app ∧ app_soft app = Some newSoft
         ∧ leader_found (soft s) newSoft
         ∧ Errored c' = S (Errored c)
         ∧ (errorC_closed c' = true →
            leaderless newSoft ∧ (2 < size (Consenters (opts_BlockMetadata c)))%nat)).
Proof.
  split.
  - intros c c' Hstart. destruct (Start_outcome c c' Hstart) as [(? & ? & ? & _)|?]; auto.
  - unfold Errored. intros fuel ev s c s' c' Harm Hne.
    apply serveRequest_arm_errored in Harm. unfold errored in Harm at 1.
    destruct ev as [room msg|gcReady lastIndex app|room|sn|];
      try (injection Harm as Hch _; congruence).
    destruct (app_soft app) as [newSoft|] eqn:Hsoft; [|injection Harm as Hch _; congruence].
    exists gcReady, lastIndex, app, newSoft. split; [done|]. split; [done|].
    destruct (errored_after_cases (soft s) newSoft c)
      as [Hsame|[(Hfound & Hch & Hless)|(_ & _ & Hclosed & _)]].
    + rewrite Hsame in Harm. injection Harm as Hch _. congruence.
    + rewrite <- Harm in Hch, Hless. simpl in *. done.
    + rewrite Hclosed in Harm. injection Harm as Hch _. congruence.
Qed.

End StartClaims.

(** [Start] on a chain of three consenters and on a chain of one. *)
Lemma Start_closes_errorC_witness :
  (∃ c', Start (H := Examples.codec) Examples.chain_at_4 = Ret (tt, c')
         ∧ startC_closed c' = true ∧ errorC_closed c' = true)
  ∧ (∃ c', Start (H := Examples.codec) Examples.single_node_chain = Ret (tt, c')
           ∧ startC_closed c' = true ∧ errorC_closed c' = true).
Proof.
  destruct (Start_closes_errorC (H := Examples.codec) (H0 := Examples.block_creator))
    as [Hstart _].
  split.
  - destruct (Start (H := Examples.codec) Examples.chain_at_4) as [[[] c']| |] eqn:Hc';
      [|vm_compute in Hc'; discriminate..].
    exists c'. split; [reflexivity|].
    destruct (Hstart _ _ Hc') as [(_ & Hs & _)|(_ & Hs & _ & He)]; [|by split].
    vm_compute in Hc'. injection Hc' as <-. vm_compute in Hs. discriminate.
  - destruct (Start (H := Examples.codec) Examples.single_node_chain) as [[[] c']| |] eqn:Hc';
      [|vm_compute in Hc'; discriminate..].
    exists c'. split; [reflexivity|].
    destruct (Hstart _ _ Hc') as [(_ & Hs & _)|(_ & Hs & _ & He)]; [|by split].
    vm_compute in Hc'. injection Hc' as <-. vm_compute in Hs. discriminate.
Defined.

(** A candidate's soft state on a chain of three consenters closes the
    errored channel; on a chain of one it does not. *)
Lemma errorC_closed_only_witness :
  let candidate :=
    EvApply false 7
      {| entries := []; app_soft := Some {| Lead := 0; RaftState := StateCandidate |} |} in
  (∃ s' c',
     serveRequest_arm (H := Examples.codec) (H0 := Examples.block_creator) 10 candidate
       serveState_init Examples.chain_at_4 = Ret (s', c')
     ∧ errorC_closed c' = true
     ∧ (2 < size (Consenters (opts_BlockMetadata Examples.chain_at_4)))%nat)
  ∧ (∃ s' c',
       serveRequest_arm (H := Examples.codec) (H0 := Examples.block_creator) 10 candidate
         serveState_init Examples.single_node_chain = Ret (s', c')
       ∧ errorC_closed c' = false).
Proof.
  intros candidate.
  destruct (errorC_closed_only (H := Examples.codec) (H0 := Examples.block_creator))
    as [Harms _].
  split.
  - destruct (serveRequest_arm 10 candidate serveState_init Examples.chain_at_4)
      as [[s' c']| |] eqn:Harm; [|vm_compute in Harm; discriminate..].
    exists s', c'. split; [reflexivity|].
    destruct (Harms _ _ _ _ _ _ Harm) as (Honly & _ & _).
    assert (errorC_closed c' = true) as Hclosed
      by (vm_compute in Harm; injection Harm as <- <-; reflexivity).
    split; [exact Hclosed|].
    destruct Honly as [Hdone|(? & ? & ? & ? & _ & _ & _ & Hsize)];
      [exact Hclosed | | discriminate Hdone | exact Hsize].
    vm_compute in Harm. injection Harm as <- <-. vm_compute. discriminate.
  - destruct (serveRequest_arm 10 candidate serveState_init Examples.single_node_chain)
      as [[s' c']| |] eqn:Harm; [|vm_compute in Harm; discriminate..].
    exists s', c'. split; [reflexivity|].
    destruct (Harms _ _ _ _ _ _ Harm) as (_ & Hsmall & _).
    destruct (errorC_closed c') eqn:Hclosed; [|reflexivity].
    destruct Hsmall as [_ Hwas]; [vm_compute; lia | discriminate | reflexivity |].
    vm_compute in Hwas. discriminate.
Defined.

(** C9 as stated fails: [Start] closes the errored channel of a chain with
    a single consenter, and so does the halt. *)
Lemma Start_single_node_closes_errorC_counterexample :
  size (Consenters (opts_BlockMetadata Examples.single_node_chain)) = 1%nat
  ∧ errorC_closed Examples.single_node_chain = false
  ∧ (∃ c', Start (H := Examples.codec) Examples.single_node_chain = Ret (tt, c')
           ∧ Errored c' = Errored Examples.single_node_chain
           ∧ errorC_closed c' = true)
  ∧ (∃ s' c',
       serveRequest_arm (H := Examples.codec) (H0 := Examples.block_creator) 10 EvDone
         serveState_init Examples.single_node_chain = Ret (s', c')
       ∧ Errored c' = Errored Examples.single_node_chain
       ∧ errorC_closed c' = true).
Proof.
  split; [vm_compute; reflexivity|]. split; [reflexivity|]. split.
  - eexists. split; [vm_compute; reflexivity|]. split; reflexivity.
  - eexists. eexists. split; [vm_compute; reflexivity|]. split; reflexivity.
Defined.

(** * Further properties *)

(** ** The membership calculator: invariants *)

Section MembershipInvariants.

Implicit Types (old : BlockMetadata) (new : list Consenter).

Lemma elem_of_MembershipByCert (m : gmap N Consenter) cert :
  cert ∈ MembershipByCert m ↔ ∃ id c, m !! id = Some c ∧ ClientTlsCert c = cert.
Proof.
  rewrite MembershipByCert_ConsentersToMap, elem_of_ConsentersToMap. split.
  - intros (c & Hc & <-). apply list_elem_of_fmap in Hc as ([id c'] & -> & Hin).
    apply elem_of_map_to_list in Hin. by exists id, c'.
  - intros (id & c & Hc & <-). exists c. split; [|done].
    apply list_elem_of_fmap. exists (id, c). split; [done|]. by apply elem_of_map_to_list.
Qed.

Lemma elem_of_added old new c :
  c ∈ added old new ↔ c ∈ new ∧ ClientTlsCert c ∉ MembershipByCert (Consenters old).
Proof.
  unfold added. rewrite list_elem_of_filter, keyed_in_iff, MembershipByCert_ConsentersToMap.
  tauto.
Qed.

Lemma elem_of_removed old new id r :
  (id, r) ∈ removed old new
  ↔ Consenters old !! id = Some r ∧ ClientTlsCert r ∉ ConsentersToMap new.
Proof.
  unfold removed. rewrite list_elem_of_filter, elem_of_map_to_list, keyed_in_iff. simpl. tauto.
Qed.

Lemma NoDup_removed old new : NoDup (removed old new).
Proof. unfold removed. apply NoDup_filter, NoDup_map_to_list. Qed.

(** Nothing is added and nothing removed exactly when the two sets of
    client certificates are the same. *)
Lemma no_change_iff old new :
  added old new = [] ∧ removed old new = []
  ↔ ConsentersToMap new = MembershipByCert (Consenters old).
Proof.
  split.
  - intros [Ha Hr]. apply set_eq. intros cert. split.
    + intros Hin. destruct (decide (cert ∈ MembershipByCert (Consenters old))) as [|Hn]; [done|].
      apply elem_of_ConsentersToMap in Hin as (c & Hc & <-).
      assert (c ∈ added old new) as Hin by (by apply elem_of_added).
      rewrite Ha in Hin. by apply elem_of_nil in Hin.
    + intros Hin. destruct (decide (cert ∈ ConsentersToMap new)) as [|Hn]; [done|].
      apply elem_of_MembershipByCert in Hin as (id & c & Hc & <-).
      assert ((id, c) ∈ removed old new) as Hin by (by apply elem_of_removed).
      rewrite Hr in Hin. by apply elem_of_nil in Hin.
  - intros Heq. split; apply elem_of_nil_inv.
    + intros c Hin. apply elem_of_added in Hin as [Hc Hn]. apply Hn. rewrite <- Heq.
      apply elem_of_ConsentersToMap. eauto.
    + intros [id r] Hin. apply elem_of_removed in Hin as [Hc Hn]. apply Hn. rewrite Heq.
      apply elem_of_MembershipByCert. eauto.
Qed.

Lemma ComputeMembershipChanges_unchanged old new :
  ComputeMembershipChanges old new = Ok (unchanged old)
  ↔ ConsentersToMap new = MembershipByCert (Consenters old).
Proof.
  rewrite <- no_change_iff, ComputeMembershipChanges_dispatch. unfold unchanged.
  destruct (added old new) as [|a [|a' la]]; destruct (removed old new) as [|[id r] [|[id' r'] lr]];
    split; try done; try (by intros [? ?]); by intros [=].
Qed.

(** The certificates of the new metadata, when the next consenter id is
    not in use. *)
Lemma ComputeMembershipChanges_new_certs old new mc :
  Consenters old !! NextConsenterId old = None →
  ComputeMembershipChanges old new = Ok mc →
  MembershipByCert (Consenters (NewBlockMetadata mc)) = ConsentersToMap new.
Proof.
  intros Hfresh. rewrite ComputeMembershipChanges_dispatch.
  pose proof (elem_of_added old new) as Ha.
  pose proof (elem_of_removed old new) as Hr.
  pose proof (NoDup_removed old new) as Hnd.
  destruct (added old new) as [|a [|a' la]] eqn:Hadded;
    destruct (removed old new) as [|[id r] [|[id' r'] lr]] eqn:Hremoved;
    intros [= <-]; simpl.
  - symmetry. by apply no_change_iff.
  - (* removal *)
    apply set_eq. intros cert. rewrite elem_of_MembershipByCert, elem_of_ConsentersToMap. split.
    + intros (id' & c & Hc & <-). apply lookup_delete_Some in Hc as [Hne Hc].
      destruct (decide (ClientTlsCert c ∈ ConsentersToMap new)) as [Hin|Hn].
      * by apply elem_of_ConsentersToMap in Hin.
      * assert ((id', c) ∈ [(id, r)]) as Hin by (apply Hr; done).
        apply list_elem_of_singleton in Hin. congruence.
    + intros (c & Hc & <-).
      destruct (decide (ClientTlsCert c ∈ MembershipByCert (Consenters old))) as [Hin|Hn].
      * apply elem_of_MembershipByCert in Hin as (id' & c' & Hc' & Heq).
        exists id', c'. split; [|done]. apply lookup_delete_Some. split; [|done].
        intros <-. assert ((id, r) ∈ [(id, r)]) as Hin by (by left).
        apply Hr in Hin as [Hlook Hn]. apply Hn. apply elem_of_ConsentersToMap.
        exists c. split; [done|]. congruence.
      * assert (c ∈ []) as Hin by (apply Ha; done). by apply elem_of_nil in Hin.
  - (* addition *)
    apply set_eq. intros cert. rewrite elem_of_MembershipByCert, elem_of_ConsentersToMap. split.
    + intros (id' & c & Hc & <-). apply lookup_insert_Some in Hc as [[_ <-]|[Hne Hc]].
      * exists a. split; [|done]. assert (a ∈ [a]) as Hin by (by left). by apply Ha in Hin as [? _].
      * destruct (decide (ClientTlsCert c ∈ ConsentersToMap new)) as [Hin|Hn].
        -- by apply elem_of_ConsentersToMap in Hin.
        -- assert ((id', c) ∈ []) as Hin by (apply Hr; done). by apply elem_of_nil in Hin.
    + intros (c & Hc & <-).
      destruct (decide (ClientTlsCert c ∈ MembershipByCert (Consenters old))) as [Hin|Hn].
      * apply elem_of_MembershipByCert in Hin as (id' & c' & Hc' & Heq).
        exists id', c'. split; [|done]. apply lookup_insert_Some. right. split; [|done].
        intros <-. congruence.
      * assert (c ∈ [a]) as Hin by (apply Ha; done). apply list_elem_of_singleton in Hin as ->.
        exists (NextConsenterId old), a. split; [|done]. apply lookup_insert_eq.
  - (* rotation *)
    apply set_eq. intros cert. rewrite elem_of_MembershipByCert, elem_of_ConsentersToMap. split.
    + intros (id' & c & Hc & <-). apply lookup_insert_Some in Hc as [[_ <-]|[Hne Hc]].
      * exists a. split; [|done]. assert (a ∈ [a]) as Hin by (by left). by apply Ha in Hin as [? _].
      * destruct (decide (ClientTlsCert c ∈ ConsentersToMap new)) as [Hin|Hn].
        -- by apply elem_of_ConsentersToMap in Hin.
        -- assert ((id', c) ∈ [(id, r)]) as Hin by (apply Hr; done).
           apply list_elem_of_singleton in Hin. congruence.
    + intros (c & Hc & <-).
      destruct (decide (ClientTlsCert c ∈ MembershipByCert (Consenters old))) as [Hin|Hn].
      * apply elem_of_MembershipByCert in Hin as (id' & c' & Hc' & Heq).
        exists id', c'. split; [|done]. apply lookup_insert_Some. right. split; [|done].
        intros <-. assert ((id, r) ∈ [(id, r)]) as Hin by (by left).
        apply Hr in Hin as [Hlook Hn]. apply Hn. apply elem_of_ConsentersToMap.
        exists c. split; [done|]. congruence.
      * assert (c ∈ [a]) as Hin by (apply Ha; done). apply list_elem_of_singleton in Hin as ->.
        exists id, a. split; [|done]. apply lookup_insert_eq.
Qed.

(** X1.  The answer of [ComputeMembershipChanges] does not depend on the
    order in which the range over the map of old consenters visits them:
    any two orders give the same changes or the same error. *)
Theorem ComputeMembershipChanges_any_order old new (visited visited' : list (N * Consenter)) :
  visited ≡ₚ map_to_list (Consenters old) →
  visited' ≡ₚ map_to_list (Consenters old) →
  ComputeMembershipChangesIn visited old new = ComputeMembershipChangesIn visited' old new.
Proof.
  intros Hv Hv'. by rewrite !ComputeMembershipChanges_order.
Qed.

(** X2.  [ComputeMembershipChanges] answers that nothing changes, with the
    old metadata as the new ones, exactly when the new consenters carry
    the same set of client TLS certificates as the old ones: consenters
    are compared by client certificate only, so an update of a host, a
    port or a server certificate alone is not a change, and the old
    consenter stays in the metadata. *)
Theorem ComputeMembershipChanges_same_certs old new :
  (ComputeMembershipChanges old new = Ok (unchanged old)
   ↔ ConsentersToMap new = MembershipByCert (Consenters old))
  ∧ (∀ mc, ComputeMembershipChanges old new = Ok mc →
           (Changed mc = false ↔ ConsentersToMap new = MembershipByCert (Consenters old))
           ∧ (Changed mc = false → NewBlockMetadata mc = old ∧ MC_ConfChange mc = None)).
Proof.
  split; [apply ComputeMembershipChanges_unchanged|].
  intros mc. rewrite <- no_change_iff, ComputeMembershipChanges_dispatch.
  destruct (added old new) as [|a [|a' la]]; destruct (removed old new) as [|[id r] [|[id' r'] lr]];
    intros [= <-]; unfold Changed; simpl; (split; [split|]); try done; by intros [? ?].
Qed.

(** X3.  If every raft id in use is below the next consenter id, and that
    id is not the largest [uint64], then the same holds of the metadata
    [ComputeMembershipChanges] answers, the next consenter id does not
    decrease, every consenter that is kept keeps its raft id, and a node
    that is added gets an id no old consenter has. *)
Theorem ComputeMembershipChanges_ids_below_next old new mc :
  ids_below_next old → NextConsenterId old < MaxUint64 →
  ComputeMembershipChanges old new = Ok mc →
  ids_below_next (NewBlockMetadata mc)
  ∧ NextConsenterId old ≤ NextConsenterId (NewBlockMetadata mc)
  ∧ (∀ id c, Consenters (NewBlockMetadata mc) !! id = Some c →
             Consenters old !! id = Some c ∨ AddedNodes mc = [c])
  ∧ (∀ cc, MC_ConfChange mc = Some cc → Type_ cc = ConfChangeAddNode →
           Consenters old !! NodeID cc = None
           ∧ NextConsenterId (NewBlockMetadata mc) = NodeID cc + 1).
Proof.
  intros Hbelow Hmax. rewrite ComputeMembershipChanges_dispatch.
  assert (add64 (NextConsenterId old) 1 = NextConsenterId old + 1) as Hadd.
  { unfold add64, MaxUint64, two64 in *. apply N.mod_small. lia. }
  assert (Consenters old !! NextConsenterId old = None) as Hfresh.
  { destruct (Consenters old !! NextConsenterId old) as [c|] eqn:Hc; [|done].
    apply Hbelow in Hc. lia. }
  pose proof (elem_of_removed old new) as Hr.
  destruct (added old new) as [|a [|a' la]] eqn:Hadded;
    destruct (removed old new) as [|[id r] [|[id' r'] lr]] eqn:Hremoved;
    intros [= <-]; simpl; unfold ids_below_next; simpl.
  - split; [done|]. split; [lia|]. split; [by auto|]. done.
  - split; [|split; [lia|split]].
    + intros id' c Hc. apply lookup_delete_Some in Hc as [_ Hc]. by eapply Hbelow.
    + intros id' c Hc. apply lookup_delete_Some in Hc as [_ Hc]. by left.
    + intros cc [= <-]. done.
  - rewrite Hadd. split; [|split; [lia|split]].
    + intros id' c Hc. apply lookup_insert_Some in Hc as [[<- _]|[_ Hc]]; [lia|].
      apply Hbelow in Hc. lia.
    + intros id' c Hc. apply lookup_insert_Some in Hc as [[_ <-]|[_ Hc]]; auto.
    + intros cc [= <-] _. done.
  - assert (Consenters old !! id = Some r) as Hid by (apply Hr; by left).
    split; [|split; [lia|split]].
    + intros id' c Hc. apply lookup_insert_Some in Hc as [[<- _]|[_ Hc]]; by eapply Hbelow.
    + intros id' c Hc. apply lookup_insert_Some in Hc as [[_ <-]|[_ Hc]]; auto.
    + done.
Qed.

(** X4.  When the next consenter id is not in use, the consenters of the
    metadata [ComputeMembershipChanges] answers carry exactly the client
    certificates of the new consenters. *)
Theorem ComputeMembershipChanges_certs old new mc :
  Consenters old !! NextConsenterId old = None →
  ComputeMembershipChanges old new = Ok mc →
  ∀ cert,
    (∃ id c, Consenters (NewBlockMetadata mc) !! id = Some c ∧ ClientTlsCert c = cert)
    ↔ (∃ c, c ∈ new ∧ ClientTlsCert c = cert).
Proof.
  intros Hfresh Hmc cert.
  rewrite <- elem_of_MembershipByCert, <- elem_of_ConsentersToMap.
  by rewrite (ComputeMembershipChanges_new_certs old new mc Hfresh Hmc).
Qed.

(** X5.  The calculator is idempotent: computed again from the metadata
    it answered and the same new consenters, the changes are none.  So a
    config block that is handled a second time, against the metadata the
    first handling left, changes nothing. *)
Theorem ComputeMembershipChanges_idempotent old new mc :
  Consenters old !! NextConsenterId old = None →
  ComputeMembershipChanges old new = Ok mc →
  ComputeMembershipChanges (NewBlockMetadata mc) new = Ok (unchanged (NewBlockMetadata mc)).
Proof.
  intros Hfresh Hmc. apply ComputeMembershipChanges_unchanged.
  symmetry. by apply (ComputeMembershipChanges_new_certs old).
Qed.

End MembershipInvariants.

(** The rotation of the certificates of consenter 3, with the old
    consenters visited in one order and in the reverse order. *)
Lemma ComputeMembershipChanges_any_order_witness :
  ComputeMembershipChangesIn (reverse (map_to_list (Consenters Examples.three_nodes)))
    Examples.three_nodes [Examples.c1; Examples.c2; Examples.c3']
  = ComputeMembershipChangesIn (map_to_list (Consenters Examples.three_nodes))
      Examples.three_nodes [Examples.c1; Examples.c2; Examples.c3'].
Proof.
  apply (ComputeMembershipChanges_any_order Examples.three_nodes
           [Examples.c1; Examples.c2; Examples.c3']).
  - apply reverse_Permutation.
  - reflexivity.
Defined.

(** Consenter 4 joins consenters 1, 2 and 3 under the raft id 4, and the
    next consenter id becomes 5. *)
Lemma ComputeMembershipChanges_ids_below_next_witness :
  ∃ mc,
    ComputeMembershipChanges Examples.three_nodes
      [Examples.c1; Examples.c2; Examples.c3; Examples.c4] = Ok mc
    ∧ ids_below_next (NewBlockMetadata mc)
    ∧ NextConsenterId (NewBlockMetadata mc) = 5.
Proof.
  eexists. split; [vm_compute; reflexivity|].
  edestruct (ComputeMembershipChanges_ids_below_next Examples.three_nodes
               [Examples.c1; Examples.c2; Examples.c3; Examples.c4])
    as (Hbelow & _ & _ & _).
  - apply (bool_decide_unpack (ids_below_next Examples.three_nodes)). vm_compute. reflexivity.
  - vm_compute. reflexivity.
  - vm_compute. reflexivity.
  - split; [exact Hbelow|]. reflexivity.
Defined.

(** After the rotation of consenter 3, the certificate [client3b] is in the
    metadata. *)
Lemma ComputeMembershipChanges_certs_witness :
  ∃ mc,
    ComputeMembershipChanges Examples.three_nodes [Examples.c1; Examples.c2; Examples.c3'] = Ok mc
    ∧ ∃ id c, Consenters (NewBlockMetadata mc) !! id = Some c ∧ ClientTlsCert c = "client3b".
Proof.
  eexists. split; [vm_compute; reflexivity|].
  apply (ComputeMembershipChanges_certs Examples.three_nodes
           [Examples.c1; Examples.c2; Examples.c3']).
  - vm_compute. reflexivity.
  - vm_compute. reflexivity.
  - exists Examples.c3'. split; [|reflexivity]. repeat constructor.
Defined.

(** The rotation of consenter 3, computed a second time. *)
Lemma ComputeMembershipChanges_idempotent_witness :
  ∃ mc,
    ComputeMembershipChanges Examples.three_nodes [Examples.c1; Examples.c2; Examples.c3'] = Ok mc
    ∧ ComputeMembershipChanges (NewBlockMetadata mc) [Examples.c1; Examples.c2; Examples.c3']
      = Ok (unchanged (NewBlockMetadata mc)).
Proof.
  eexists. split; [vm_compute; reflexivity|].
  apply (ComputeMembershipChanges_idempotent Examples.three_nodes).
  - vm_compute. reflexivity.
  - vm_compute. reflexivity.
Defined.

(** Consenter 2 moves to another host and keeps its certificates: the
    calculator sees no change, and the metadata keep the old host. *)
Lemma ComputeMembershipChanges_same_certs_witness :
  ComputeMembershipChanges Examples.three_nodes
    [Examples.c1; MoreExamples.c2_moved; Examples.c3]
  = Ok (unchanged Examples.three_nodes).
Proof.
  apply (ComputeMembershipChanges_same_certs Examples.three_nodes
           [Examples.c1; MoreExamples.c2_moved; Examples.c3]).
  vm_compute. reflexivity.
Defined.

(** ** Reconciling Raft with the consenters *)

Section Reconcile.

Context `{Codec}.

Lemma NodeExists_elem_of id (nodes : list N) : NodeExists id nodes = true ↔ id ∈ nodes.
Proof.
  unfold NodeExists. rewrite existsb_exists. setoid_rewrite bool_decide_eq_true.
  setoid_rewrite <- list_elem_of_In. naive_solver.
Qed.

Lemma SliceOfConsentersIDs_keys (m : gmap N Consenter) :
  SliceOfConsentersIDs m = (map_to_list m).*1.
Proof.
  unfold SliceOfConsentersIDs.
  assert (∀ (l : list (N * Consenter)) acc,
            foldl (fun result kc => result ++ [kc.1]) acc l = acc ++ l.*1) as Hfold.
  { induction l as [|kc l IH]; intros acc; simpl; [by rewrite app_nil_r|].
    by rewrite IH, <- app_assoc. }
  apply Hfold.
Qed.

Lemma elem_of_SliceOfConsentersIDs (m : gmap N Consenter) id :
  id ∈ SliceOfConsentersIDs m ↔ is_Some (m !! id).
Proof.
  rewrite SliceOfConsentersIDs_keys, list_elem_of_fmap. split.
  - intros ([id' c] & -> & Hin). apply elem_of_map_to_list in Hin. by exists c.
  - intros [c Hc]. exists (id, c). split; [done|]. by apply elem_of_map_to_list.
Qed.

(** A loop that keeps the last element that passes a test. *)
Lemma foldl_last {A} (P : A → bool) (f : A → N) (l : list A) (d : N) :
  foldl (fun acc x => if P x then acc else f x) d l
  = from_option f d (last (filter (fun x => P x = false) l)).
Proof.
  revert d. induction l as [|x l IH]; intros d; simpl; [done|].
  rewrite IH, filter_cons. destruct (P x) eqn:HP.
  - by rewrite decide_False by done.
  - rewrite decide_True by done. rewrite last_cons.
    by destruct (last (filter _ l)).
Qed.

Lemma last_filter_elem_of {A} (P : A → Prop) `{∀ x, Decision (P x)} (l : list A) x :
  x ∈ l → P x → ∃ y, last (filter P l) = Some y ∧ y ∈ l ∧ P y.
Proof.
  intros Hin HP.
  assert (x ∈ filter P l) as Hx by (by apply list_elem_of_filter).
  destruct (last (filter P l)) as [y|] eqn:Hlast.
  - exists y. split; [done|]. apply last_Some_elem_of in Hlast.
    by apply list_elem_of_filter in Hlast as [? ?].
  - apply last_None in Hlast. rewrite Hlast in Hx. by apply elem_of_nil in Hx.
Qed.

(** Fewer nodes than distinct keys: one of the keys is no node. *)
Lemma key_not_node (m : gmap N Consenter) (nodes : list N) :
  (length nodes < size m)%nat → ∃ id, is_Some (m !! id) ∧ id ∉ nodes.
Proof.
  intros Hlen.
  destruct (decide (Forall (fun kc => kc.1 ∈ nodes) (map_to_list m))) as [Hall|Hsome].
  - exfalso.
    assert ((map_to_list m).*1 ⊆+ nodes) as Hsub.
    { apply NoDup_submseteq; [apply NoDup_fst_map_to_list|].
      intros id Hid. apply list_elem_of_fmap in Hid as (kc & -> & Hkc).
      by eapply Forall_forall in Hall. }
    apply submseteq_length in Hsub. rewrite length_fmap, length_map_to_list in Hsub. lia.
  - apply not_Forall_Exists in Hsome; [|apply _].
    apply Exists_exists in Hsome as ([id c] & Hin & Hn).
    exists id. split; [|done]. exists c. by apply elem_of_map_to_list.
Qed.

(** More distinct nodes than keys: one of the nodes is no key. *)
Lemma node_not_key (m : gmap N Consenter) (nodes : list N) :
  NoDup nodes → (size m < length nodes)%nat → ∃ id, id ∈ nodes ∧ m !! id = None.
Proof.
  intros Hnd Hlen.
  destruct (decide (Forall (fun id => is_Some (m !! id)) nodes)) as [Hall|Hsome].
  - exfalso.
    assert (nodes ⊆+ (map_to_list m).*1) as Hsub.
    { apply NoDup_submseteq; [done|]. intros id Hid.
      eapply Forall_forall in Hall as [c Hc]; [|done].
      apply list_elem_of_fmap. exists (id, c). split; [done|]. by apply elem_of_map_to_list. }
    apply submseteq_length in Hsub. rewrite length_fmap, length_map_to_list in Hsub. lia.
  - apply not_Forall_Exists in Hsome; [|apply _].
    apply Exists_exists in Hsome as (id & Hin & Hn).
    exists id. split; [done|]. by apply eq_None_not_Some.
Qed.

Lemma ConfChangeFromState_add md cs :
  (length (Nodes cs) < size (Consenters md))%nat →
  Type_ (ConfChangeFromState md cs) = ConfChangeAddNode
  ∧ is_Some (Consenters md !! NodeID (ConfChangeFromState md cs))
  ∧ NodeID (ConfChangeFromState md cs) ∉ Nodes cs.
Proof.
  intros Hlen. unfold ConfChangeFromState.
  rewrite length_map_to_list, bool_decide_eq_true_2 by done. simpl. split; [done|].
  rewrite (foldl_last (fun kc : N * Consenter => NodeExists kc.1 (Nodes cs)) fst).
  destruct (key_not_node _ _ Hlen) as (id & [c Hc] & Hid).
  destruct (last_filter_elem_of
              (fun kc : N * Consenter => NodeExists kc.1 (Nodes cs) = false)
              (map_to_list (Consenters md)) (id, c)) as ([id' c'] & -> & Hin & Hno).
  { by apply elem_of_map_to_list. }
  { simpl. apply not_true_is_false. by rewrite NodeExists_elem_of. }
  simpl in *. apply elem_of_map_to_list in Hin. split; [by exists c'|].
  rewrite <- NodeExists_elem_of. congruence.
Qed.

Lemma ConfChangeFromState_remove md cs :
  NoDup (Nodes cs) → (size (Consenters md) < length (Nodes cs))%nat →
  Type_ (ConfChangeFromState md cs) = ConfChangeRemoveNode
  ∧ NodeID (ConfChangeFromState md cs) ∈ Nodes cs
  ∧ Consenters md !! NodeID (ConfChangeFromState md cs) = None.
Proof.
  intros Hnd Hlen. unfold ConfChangeFromState.
  rewrite length_map_to_list, bool_decide_eq_false_2 by lia. simpl. split; [done|].
  rewrite (foldl_last (fun nodeID => NodeExists nodeID (SliceOfConsentersIDs (Consenters md)))
             (fun nodeID => nodeID)).
  destruct (node_not_key _ _ Hnd Hlen) as (id & Hid & Hnone).
  destruct (last_filter_elem_of
              (fun nodeID => NodeExists nodeID (SliceOfConsentersIDs (Consenters md)) = false)
              (Nodes cs) id) as (id' & -> & Hin & Hno); [done| |].
  { apply not_true_is_false. rewrite NodeExists_elem_of, elem_of_SliceOfConsentersIDs.
    rewrite Hnone. by intros [? ?]. }
  simpl. split; [done|]. apply eq_None_not_Some.
  rewrite <- elem_of_SliceOfConsentersIDs, <- NodeExists_elem_of. congruence.
Qed.

(** X6.  When Raft has fewer nodes than there are consenters, the function
    [ConfChange] answers the addition of a node that is a consenter and is
    not yet a node of Raft. *)
Theorem ConfChange_adds_missing_consenter md cs :
  (length (Nodes cs) < size (Consenters md))%nat →
  Type_ (ConfChangeFromState md cs) = ConfChangeAddNode
  ∧ is_Some (Consenters md !! NodeID (ConfChangeFromState md cs))
  ∧ NodeID (ConfChangeFromState md cs) ∉ Nodes cs.
Proof. apply ConfChangeFromState_add. Qed.

(** X7.  When Raft has more nodes than there are consenters, and no node
    twice, the function [ConfChange] answers the removal of a node of Raft
    that is no consenter.  When every node of Raft is a consenter and
    there are no more consenters than nodes, it answers the removal of
    node 0, which is no node: the caller has to rule the case out, as
    [getInFlightConfChange] does by comparing the sizes. *)
Theorem ConfChange_removes_stale_node md cs :
  (NoDup (Nodes cs) → (size (Consenters md) < length (Nodes cs))%nat →
   Type_ (ConfChangeFromState md cs) = ConfChangeRemoveNode
   ∧ NodeID (ConfChangeFromState md cs) ∈ Nodes cs
   ∧ Consenters md !! NodeID (ConfChangeFromState md cs) = None)
  ∧ ((size (Consenters md) ≤ length (Nodes cs))%nat →
     Forall (fun id => is_Some (Consenters md !! id)) (Nodes cs) →
     ConfChangeFromState md cs = {| Type_ := ConfChangeRemoveNode; NodeID := 0 |}).
Proof.
  split; [apply ConfChangeFromState_remove|].
  intros Hlen Hall. unfold ConfChangeFromState.
  rewrite length_map_to_list, bool_decide_eq_false_2 by lia. f_equal.
  rewrite (foldl_last (fun nodeID => NodeExists nodeID (SliceOfConsentersIDs (Consenters md)))
             (fun nodeID => nodeID)).
  assert (filter (fun nodeID => NodeExists nodeID (SliceOfConsentersIDs (Consenters md)) = false)
            (Nodes cs) = []) as ->; [|done].
  apply elem_of_nil_inv. intros id Hin. apply list_elem_of_filter in Hin as [Hno Hin].
  eapply Forall_forall in Hall; [|done].
  apply elem_of_SliceOfConsentersIDs, NodeExists_elem_of in Hall. congruence.
Qed.

(** X8.  A configuration change that [getInFlightConfChange] reads from
    the state of Raft, when none is recorded as in progress and Raft
    answers a configuration state that has no node twice, reconciles the
    two: it adds a consenter that is no node of Raft, or removes a node of
    Raft that is no consenter.  The call asks Raft at most once and
    changes nothing else in the chain. *)
Theorem getInFlightConfChange_reconciles (c c' : Chain) (cc : ConfChange) :
  confChangeInProgress c = None →
  let zero := {| Type_ := ConfChangeAddNode; NodeID := 0 |} in
  NoDup (Nodes (Node_ApplyConfChange (Node c) (trace c) zero)) →
  getInFlightConfChange c = Ret (Some cc, c') →
  reconciles (opts_BlockMetadata c) (Node_ApplyConfChange (Node c) (trace c) zero) cc
  ∧ c' = set_trace (trace c ++ [ApplyConfChange zero]) c.
Proof.
  intros Hnone zero Hnd. unfold getInFlightConfChange. unfold_M. simpl. rewrite Hnone.
  destruct (Number (Header (lastBlock c)) =? 0); [done|].
  destruct (IsConfigBlock (lastBlock c)); simpl; [|done].
  destruct (detectMigration_outcome c) as [[b ->]|[p ->]]; [|done].
  destruct b; [done|]. simpl.
  destruct (bool_decide _) eqn:Hsize; [done|]. apply bool_decide_eq_false in Hsize.
  intros [= <- <-]. split; [|done].
  set (cs := Node_ApplyConfChange (Node c) (trace c) _) in *.
  destruct (decide (length (Nodes cs) < size (Consenters (opts_BlockMetadata c)))%nat)
    as [Hlt|Hge].
  - left. by apply ConfChangeFromState_add.
  - right. apply ConfChangeFromState_remove; [apply Hnd | lia].
Qed.

End Reconcile.

(** Consenter 4 is in the block metadata and Raft has the nodes 1, 2 and 3:
    the change adds node 4. *)
Lemma ConfChange_adds_missing_consenter_witness :
  Type_ (ConfChangeFromState MoreExamples.four_nodes MoreExamples.three_raft_nodes)
  = ConfChangeAddNode
  ∧ is_Some (Consenters MoreExamples.four_nodes
               !! NodeID (ConfChangeFromState MoreExamples.four_nodes
                            MoreExamples.three_raft_nodes))
  ∧ NodeID (ConfChangeFromState MoreExamples.four_nodes MoreExamples.three_raft_nodes)
    ∉ Nodes MoreExamples.three_raft_nodes.
Proof.
  apply (ConfChange_adds_missing_consenter MoreExamples.four_nodes MoreExamples.three_raft_nodes).
  vm_compute. lia.
Defined.

(** Raft has the nodes 1 to 4 and the block metadata the consenters 1, 2
    and 3: the change removes a node that is no consenter. *)
Lemma ConfChange_removes_stale_node_witness :
  Type_ (ConfChangeFromState Examples.three_nodes MoreExamples.four_raft_nodes)
  = ConfChangeRemoveNode
  ∧ NodeID (ConfChangeFromState Examples.three_nodes MoreExamples.four_raft_nodes)
    ∈ Nodes MoreExamples.four_raft_nodes
  ∧ Consenters Examples.three_nodes
      !! NodeID (ConfChangeFromState Examples.three_nodes MoreExamples.four_raft_nodes)
    = None.
Proof.
  destruct (ConfChange_removes_stale_node Examples.three_nodes MoreExamples.four_raft_nodes)
    as [Hremove _].
  apply Hremove.
  - apply (bool_decide_unpack (NoDup (Nodes MoreExamples.four_raft_nodes))). vm_compute. reflexivity.
  - vm_compute. lia.
Defined.

(** A new leader finds the addition of consenter 4 unfinished. *)
Lemma getInFlightConfChange_reconciles_witness :
  ∃ cc c',
    getInFlightConfChange (H := Examples.codec) MoreExamples.chain_after_add = Ret (Some cc, c')
    ∧ reconciles MoreExamples.four_nodes MoreExamples.three_raft_nodes cc.
Proof.
  eexists _, _. split; [vm_compute; reflexivity|].
  eapply (getInFlightConfChange_reconciles (H := Examples.codec) MoreExamples.chain_after_add).
  - reflexivity.
  - apply (bool_decide_unpack (NoDup [1; 2; 3])). vm_compute. reflexivity.
  - vm_compute. reflexivity.
Defined.

(** ** Eviction: the membership test and the suspector *)

Section ChannelMembership.

Context `{Codec} `{ChannelConfig}.

Lemma consenterOfChannelLoop_spec conCert (consenters : list Consenter) :
  (Exists (fun c => conCert ∈ slot_certs c) consenters
   ∧ consenterOfChannelLoop conCert (Some <$> consenters) = Ret None)
  ∨ (¬ Exists (fun c => conCert ∈ slot_certs c) consenters
     ∧ consenterOfChannelLoop conCert (Some <$> consenters) = Ret (Some ErrNotInChannel)).
Proof.
  induction consenters as [|c cs IH].
  - right. split; [by intros ?%Exists_nil | done].
  - rewrite fmap_cons. cbn [consenterOfChannelLoop].
    destruct (bool_decide (conCert = ServerTlsCert c)) eqn:Hs; simpl.
    { apply bool_decide_eq_true in Hs. left. split; [|done].
      apply Exists_cons_hd. apply elem_of_slot_certs. auto. }
    destruct (bool_decide (conCert = ClientTlsCert c)) eqn:Hc; simpl.
    { apply bool_decide_eq_true in Hc. left. split; [|done].
      apply Exists_cons_hd. apply elem_of_slot_certs. auto. }
    apply bool_decide_eq_false in Hs, Hc.
    destruct IH as [[Hex ->]|[Hno ->]]; [left | right]; (split; [|done]).
    + by apply Exists_cons_tl.
    + intros [Hhd|Htl]%Exists_cons; [|done].
      apply elem_of_slot_certs in Hhd as [?|?]; done.
Qed.

Lemma consenterOfChannelLoop_not_forbidden conCert (consenters : list (option Consenter)) :
  consenterOfChannelLoop conCert consenters ≠ Ret (Some ErrForbidden).
Proof.
  induction consenters as [|[c|] cs IH]; simpl; [done| |done].
  by destruct (_ || _).
Qed.

Lemma IsConsenterOfChannel_consenters conCert configBlock :
  match channel_consenters configBlock with
  | Some consenters =>
      IsConsenterOfChannel conCert (Some configBlock)
      = consenterOfChannelLoop conCert consenters
  | None => ∃ msg, IsConsenterOfChannel conCert (Some configBlock) = Ret (Some (ErrOther msg))
  end.
Proof.
  unfold channel_consenters, IsConsenterOfChannel.
  destruct (ExtractEnvelope configBlock 0); [|by eauto].
  destruct (NewBundleFromEnvelope _) as [bundle|]; [|by eauto].
  destruct (Bundle_OrdererConfig bundle); [|by eauto].
  destruct (UnmarshalConfigMetadata _); [done | by eauto].
Qed.

Lemma IsConsenterOfChannel_member conCert configBlock (consenters : list Consenter) :
  channel_consenters configBlock = Some (Some <$> consenters) →
  Exists (fun c => conCert ∈ slot_certs c) consenters →
  IsConsenterOfChannel conCert (Some configBlock) = Ret None.
Proof.
  intros Hcs Hex. pose proof (IsConsenterOfChannel_consenters conCert configBlock) as Hc.
  rewrite Hcs in Hc. rewrite Hc.
  by destruct (consenterOfChannelLoop_spec conCert consenters) as [[_ ->]|[Hno _]].
Qed.

(** X9.  [IsConsenterOfChannel] answers by the consenters of the config
    block: no error when the certificate is the server or the client
    certificate of one of them, [ErrNotInChannel] when it is a certificate
    of none; when the block cannot be read, the error is another one.  It
    never answers [ErrForbidden], and a nil block is an error. *)
Theorem IsConsenterOfChannel_spec conCert configBlock :
  (∀ consenters : list Consenter,
     channel_consenters configBlock = Some (Some <$> consenters) →
     (Exists (fun c => conCert ∈ slot_certs c) consenters
      ∧ IsConsenterOfChannel conCert (Some configBlock) = Ret None)
     ∨ (¬ Exists (fun c => conCert ∈ slot_certs c) consenters
        ∧ IsConsenterOfChannel conCert (Some configBlock) = Ret (Some ErrNotInChannel)))
  ∧ (channel_consenters configBlock = None →
     ∃ msg, IsConsenterOfChannel conCert (Some configBlock) = Ret (Some (ErrOther msg)))
  ∧ IsConsenterOfChannel conCert (Some configBlock) ≠ Ret (Some ErrForbidden)
  ∧ IsConsenterOfChannel conCert None = Ret (Some (ErrOther "nil block")).
Proof.
  pose proof (IsConsenterOfChannel_consenters conCert configBlock) as Hc.
  split; [|split; [|split; [|done]]].
  - intros consenters Hcs. rewrite Hcs in Hc. rewrite Hc.
    apply consenterOfChannelLoop_spec.
  - intros Hcs. by rewrite Hcs in Hc.
  - destruct (channel_consenters configBlock) as [consenters|].
    + rewrite Hc. apply consenterOfChannelLoop_not_forbidden.
    + destruct Hc as [msg ->]. done.
Qed.

Lemma pullAndWrite_only_adds (es : evictionSuspector) puller last fuel seq written calls :
  ∃ more, (pullAndWrite fuel es puller last seq written calls).1 = calls ++ more.
Proof.
  revert seq written calls. induction fuel as [|fuel IH]; intros seq written calls; simpl.
  - exists []. by rewrite app_nil_r.
  - destruct (seq <=? last); [|exists []; by rewrite app_nil_r].
    destruct (es_writeBlock es written (BP_PullBlock puller seq)).
    + simpl. by eexists.
    + destruct (IH (add64 seq 1) (written ++ [BP_PullBlock puller seq])
                  (calls ++ [CallPullBlock seq; CallWriteBlock (BP_PullBlock puller seq)]))
        as [more ->].
      rewrite <- app_assoc. by eexists.
Qed.

(** What a run of [confirmSuspicion] that returns has done: nothing to
    the ledger and to the suspector, or the halt. *)
Lemma confirmSuspicion_returns fuel (es es' : evictionSuspector) t calls :
  confirmSuspicion fuel es t = (calls, Ret es') →
  (es' = es ∧ (CallHalt ∉ calls)
   ∧ (∀ seq, CallPullBlock seq ∉ calls) ∧ (∀ block, CallWriteBlock block ∉ calls))
  ∨ (es' = set_halted es true ∧ halted es = false ∧ CallHalt ∈ calls).
Proof.
  unfold confirmSuspicion.
  destruct (bool_decide (evictionSuspicionThreshold es > t)%Z); simpl.
  { intros [= <- <-]. left. set_solver. }
  destruct (halted es) eqn:Hhalted; simpl.
  { intros [= <- <-]. left. set_solver. }
  destruct (createPuller es tt) as [puller|]; [|done].
  destruct (pullLastConfigBlock es puller) as [b|].
  2:{ intros [= <- <-]. left. set_solver. }
  destruct (_ <=? height es tt).
  { intros [= <- <-]. left. set_solver. }
  destruct (_ && _).
  { intros [= <- <-]. left. set_solver. }
  match goal with
  | |- context [pullAndWrite ?f ?e ?p ?l ?s ?w ?cs] =>
      destruct (pullAndWrite_only_adds e p l f s w cs) as [more Hmore];
      destruct (pullAndWrite f e p l s w cs) as [calls' r]
  end.
  simpl in Hmore. destruct r as [?|? []|]; simpl; [|done|done].
  intros [= <- <-]. right. split; [done|]. split; [done|]. rewrite Hmore. set_solver.
Qed.

(** X10.  A node is never halted by a config block that lists it.  When
    the membership test of the suspector is [IsConsenterOfChannel] for the
    certificate of the node, and the last config block pulled has a
    consenter with that certificate as its server or client certificate,
    [confirmSuspicion] returns with the suspector as it was, and has
    neither halted the chain nor pulled or written a block. *)
Theorem confirmSuspicion_member_not_halted fuel (es : evictionSuspector) t conCert
    puller lastConfigBlock (consenters : list Consenter) :
  createPuller es tt = Ok puller →
  pullLastConfigBlock es puller = Ok lastConfigBlock →
  IsConsenterOfChannel conCert (Some lastConfigBlock) = Ret (amIInChannel es lastConfigBlock) →
  channel_consenters lastConfigBlock = Some (Some <$> consenters) →
  Exists (fun c => conCert ∈ slot_certs c) consenters →
  ∃ calls,
    confirmSuspicion fuel es t = (calls, Ret es)
    ∧ (CallHalt ∉ calls)
    ∧ (∀ seq, CallPullBlock seq ∉ calls) ∧ (∀ block, CallWriteBlock block ∉ calls).
Proof.
  intros Hpuller Hpull Htest Hcs Hex.
  rewrite (IsConsenterOfChannel_member _ _ _ Hcs Hex) in Htest. injection Htest as Htest.
  unfold confirmSuspicion.
  destruct (_ || _); [eexists; split; [done|]; set_solver|].
  rewrite Hpuller, Hpull.
  destruct (_ <=? height es tt); [eexists; split; [done|]; set_solver|].
  rewrite <- Htest. simpl. eexists; split; [done|]. set_solver.
Qed.

(** X11.  [confirmSuspicion] halts the chain at most once.  A run that
    returns either leaves the suspector as it was, and then has neither
    halted the chain nor pulled or written a block, or has halted the
    chain and marked the suspector as halted; and on a suspector that is
    marked, every later run returns at once, without a call. *)
Theorem confirmSuspicion_halts_once fuel (es es' : evictionSuspector) t calls :
  confirmSuspicion fuel es t = (calls, Ret es') →
  ((es' = es ∧ (CallHalt ∉ calls)
    ∧ (∀ seq, CallPullBlock seq ∉ calls) ∧ (∀ block, CallWriteBlock block ∉ calls))
   ∨ (es' = set_halted es true ∧ halted es = false ∧ CallHalt ∈ calls))
  ∧ (halted es = true ∨ CallHalt ∈ calls →
     ∀ fuel' t', confirmSuspicion fuel' es' t' = ([], Ret es')).
Proof.
  intros Hrun. pose proof (confirmSuspicion_returns _ _ _ _ _ Hrun) as Hcases.
  split; [done|]. intros Hhalted fuel' t'.
  assert (halted es' = true) as Hes'.
  { destruct Hcases as [(-> & Hno & _)|(-> & _ & _)]; [|done].
    by destruct Hhalted. }
  unfold confirmSuspicion. by rewrite Hes', orb_true_r.
Qed.

End ChannelMembership.

(** ** The periodic check *)

Section PeriodicChecks.

Implicit Types (pc : PeriodicCheck) (t : tick) (timers : nat).

(** While the condition holds and the check is not stopped, every check
    reports the time since the condition held first. *)
Lemma pc_steps_streak pc timers (ticks : list tick) :
  conditionHoldsSince pc ≠ 0%Z → stopped pc = 0 →
  Forall (fun t => condition t = true) ticks →
  pc_steps (PcFire <$> ticks) (pc, S timers)
  = ((pc, S timers),
     (fun t => Some (Time_Sub (now_since t) (conditionHoldsSince pc))) <$> ticks).
Proof.
  intros Hsince Hrun Hall. induction Hall as [|t ticks Ht Hall IH]; [done|].
  rewrite fmap_cons. cbn [pc_steps pc_step]. unfold check, conditionFulfilled, shouldRun.
  rewrite Ht, bool_decide_eq_false_2 by done. rewrite bool_decide_eq_true_2 by done.
  by rewrite IH.
Qed.

Lemma check_first pc t :
  conditionHoldsSince pc = 0%Z → stopped pc = 0 → condition t = true →
  check t pc
  = ({| conditionHoldsSince := now t; once := once pc; stopped := stopped pc |},
     Some (Time_Sub (now_since t) (now t)), true).
Proof.
  intros Hsince Hrun Ht. unfold check, conditionFulfilled, shouldRun. rewrite Ht.
  rewrite bool_decide_eq_true_2 by done. simpl. by rewrite bool_decide_eq_true_2 by done.
Qed.

(** X12.  [PeriodicCheck] reports the cumulative period for which the
    condition has held at consecutive checks.  From [Run] on, and again
    after every check at which the condition does not hold, as long as
    the condition holds and the check is not stopped, each check reports
    the time from the first of these checks to itself, and sets the timer
    for the next; a check at which the condition does not hold reports
    nothing. *)
Theorem PeriodicCheck_reports_cumulative (t0 : tick) (ticks : list tick) :
  now t0 ≠ 0%Z →
  Forall (fun t => condition t = true) (t0 :: ticks) →
  let reports := (fun t => Some (Time_Sub (now_since t) (now t0))) <$> (t0 :: ticks) in
  pc_steps (PcRun t0 :: (PcFire <$> ticks)) (PeriodicCheck_new, 0%nat)
  = (({| conditionHoldsSince := now t0; once := true; stopped := 0 |}, 1%nat), reports)
  ∧ (∀ pc timers (tf : tick),
       stopped pc = 0 → condition tf = false →
       (pc_steps (PcFire tf :: (PcFire <$> (t0 :: ticks))) (pc, S timers)).2
       = None :: reports).
Proof.
  intros Hnow Hall reports. inversion Hall as [|? ? Ht0 Hticks]; subst. split.
  - cbn [pc_steps pc_step PeriodicCheck_new once].
    rewrite check_first by done. simpl.
    rewrite pc_steps_streak by done. done.
  - intros pc timers tf Hrun Htf. rewrite fmap_cons.
    cbn [pc_steps pc_step]. unfold check at 1. rewrite Htf. unfold shouldRun. simpl.
    rewrite bool_decide_eq_true_2 by done.
    rewrite check_first by done. simpl.
    rewrite pc_steps_streak by done. done.
Qed.

Lemma check_stopped pc t :
  stopped pc ≠ 0 → ∃ pc' report, check t pc = (pc', report, false)
                                 ∧ stopped pc' = stopped pc ∧ once pc' = once pc.
Proof.
  intros Hstopped. unfold check, conditionFulfilled, conditionNotFulfilled, shouldRun.
  destruct (condition t); simpl.
  - destruct (bool_decide (conditionHoldsSince pc = 0%Z)); simpl;
      rewrite bool_decide_eq_false_2 by done; by eauto.
  - rewrite bool_decide_eq_false_2 by done. by eauto.
Qed.

Lemma pc_steps_stopped pc timers (evs : list pc_event) :
  stopped pc ≠ 0 → PcStop ∉ evs →
  let '((pc', timers'), reports) := pc_steps evs (pc, timers) in
  (length (filter is_Some reports) + timers' ≤ timers + (if once pc then 0 else 1))%nat
  ∧ stopped pc' = stopped pc.
Proof.
  revert pc timers. induction evs as [|ev evs IH]; intros pc timers Hstopped Hno.
  { simpl. split; [destruct (once pc); lia | done]. }
  assert (PcStop ∉ evs) as Hno' by set_solver.
  cbn [pc_steps]. destruct ev as [t|t|]; [| |set_solver]; cbn [pc_step].
  - destruct (once pc) eqn:Honce.
    + specialize (IH pc timers Hstopped Hno'). rewrite Honce in IH.
      destruct (pc_steps evs (pc, timers)) as [[pc' timers'] reports].
      rewrite filter_cons_False by (by intros [? ?]). done.
    + match goal with |- context [check t ?p] =>
        destruct (check_stopped p t) as (pc1 & report & -> & Hs1 & Ho1); [done|] end.
      simpl in Hs1, Ho1.
      specialize (IH pc1 timers). rewrite Ho1, Hs1 in IH. specialize (IH Hstopped Hno').
      destruct (pc_steps evs (pc1, timers)) as [[pc' timers'] reports].
      destruct IH as [IH ->]. split; [|done].
      destruct report; [rewrite filter_cons_True by done|
                        rewrite filter_cons_False by (by intros [? ?])]; simpl; lia.
  - destruct timers as [|timers].
    + specialize (IH pc 0%nat Hstopped Hno').
      destruct (pc_steps evs (pc, 0%nat)) as [[pc' timers'] reports].
      rewrite filter_cons_False by (by intros [? ?]). done.
    + destruct (check_stopped pc t) as (pc1 & report & -> & Hs1 & Ho1); [done|].
      specialize (IH pc1 timers). rewrite Ho1, Hs1 in IH. specialize (IH Hstopped Hno').
      destruct (pc_steps evs (pc1, timers)) as [[pc' timers'] reports].
      destruct IH as [IH ->]. split; [|done].
      destruct report; [rewrite filter_cons_True by done|
                        rewrite filter_cons_False by (by intros [? ?])]; simpl; lia.
Qed.

(** X13.  [Stop] does not cancel the timer that is set: once the check is
    stopped, each timer that is set still runs one check, which may
    report, and sets no other; and [Run] runs its check if it has not run
    before.  So there are at most as many reports after [Stop] as there
    were timers set, and one more if [Run] was not called yet. *)
Theorem PeriodicCheck_stopped_reports pc timers (evs : list pc_event) :
  stopped pc ≠ 0 → PcStop ∉ evs →
  let after := pc_steps evs (pc, timers) in
  (length (filter is_Some after.2) + after.1.2 ≤ timers + (if once pc then 0 else 1))%nat
  ∧ stopped after.1.1 = stopped pc.
Proof.
  intros Hstopped Hno. pose proof (pc_steps_stopped pc timers evs Hstopped Hno) as Hsteps.
  simpl. by destruct (pc_steps evs (pc, timers)) as [[pc' timers'] reports].
Qed.

End PeriodicChecks.

(** The last config block lists consenter 2, whose server certificate the
    node holds: the suspicion is not confirmed, and the catch-up is
    triggered instead of a halt. *)
Lemma confirmSuspicion_member_not_halted_witness :
  ∃ calls,
    confirmSuspicion (H := Examples.codec) 10 Examples.member_suspector 700
    = (calls, Ret Examples.member_suspector)
    ∧ (CallHalt ∉ calls)
    ∧ (∀ seq, CallPullBlock seq ∉ calls) ∧ (∀ block, CallWriteBlock block ∉ calls).
Proof.
  apply (confirmSuspicion_member_not_halted
           (H := Examples.codec) (H0 := MoreExamples.channel_config)
           10 Examples.member_suspector 700 "server2"
           MoreExamples.config_49_puller (Examples.block 49 ["config:same"])
           [Examples.c1; Examples.c2; Examples.c3]).
  - reflexivity.
  - reflexivity.
  - vm_compute. reflexivity.
  - vm_compute. reflexivity.
  - apply Exists_cons_tl, Exists_cons_hd. vm_compute. left.
Defined.

(** The self-eviction scenario, and a later report to the same suspector. *)
Lemma confirmSuspicion_halts_once_witness :
  confirmSuspicion (H := Examples.codec) 10 (set_halted Examples.evicted_suspector true) 900
  = ([], Ret (set_halted Examples.evicted_suspector true)).
Proof.
  edestruct (confirmSuspicion_halts_once (H := Examples.codec) 10 Examples.evicted_suspector
               (set_halted Examples.evicted_suspector true) 700) as [_ Hlater].
  - vm_compute. reflexivity.
  - apply Hlater. right. vm_compute. do 4 right. left.
Defined.

(** The condition holds at the checks at times 100, 200 and 300: the
    periods reported are 1, 101 and 201. *)
Lemma PeriodicCheck_reports_cumulative_witness :
  pc_steps [PcRun (MoreExamples.holds_at 100); PcFire (MoreExamples.holds_at 200);
            PcFire (MoreExamples.holds_at 300)]
    (PeriodicCheck_new, 0%nat)
  = (({| conditionHoldsSince := 100; once := true; stopped := 0 |}, 1%nat),
     [Some 1%Z; Some 101%Z; Some 201%Z]).
Proof.
  destruct (PeriodicCheck_reports_cumulative (MoreExamples.holds_at 100)
              [MoreExamples.holds_at 200; MoreExamples.holds_at 300]) as [Hrun _].
  - vm_compute. discriminate.
  - repeat constructor.
  - exact Hrun.
Defined.

(** A check that is stopped while its timer is set: the timer fires and
    the check reports once more; a second firing finds no timer. *)
Lemma PeriodicCheck_stopped_reports_witness :
  let after := pc_steps [PcFire (MoreExamples.holds_at 100); PcFire (MoreExamples.holds_at 200)]
                 (MoreExamples.stopped_check, 1%nat) in
  (length (filter is_Some after.2) + after.1.2 ≤ 1 + 0)%nat
  ∧ stopped after.1.1 = 1.
Proof.
  apply (PeriodicCheck_stopped_reports MoreExamples.stopped_check 1
           [PcFire (MoreExamples.holds_at 100); PcFire (MoreExamples.holds_at 200)]).
  - vm_compute. discriminate.
  - rewrite !elem_of_cons, elem_of_nil. intros [?|[?|?]]; done.
Defined.

(** The certificate [server2] is the server certificate of a consenter of
    config block 49. *)
Lemma IsConsenterOfChannel_spec_witness :
  IsConsenterOfChannel (H := Examples.codec) (H0 := MoreExamples.channel_config)
    "server2" (Some (Examples.block 49 ["config:same"]))
  = Ret None.
Proof.
  destruct (IsConsenterOfChannel_spec (H := Examples.codec) (H0 := MoreExamples.channel_config)
              "server2" (Examples.block 49 ["config:same"])) as (Hconsenters & _).
  destruct (Hconsenters [Examples.c1; Examples.c2; Examples.c3]) as [[_ Hin]|[Hout _]].
  - vm_compute. reflexivity.
  - exact Hin.
  - exfalso. apply Hout. apply Exists_cons_tl, Exists_cons_hd. vm_compute. left.
Defined.

(** ** The chain: peers, validation of configuration updates, proposals *)

(** Computes the field updates of a chain given by its fields. *)
Ltac chain_fields :=
  cbv [modify set_lastKnownLeader set_startC_closed set_doneC_closed set_errorC set_errorC_closed
       set_confChangeInProgress set_justElected set_configInflight set_blockInflight
       set_lastBlock set_appliedIndex set_sizeLimit set_accDataSize set_lastSnapBlockNum
       set_confState set_opts_BlockMetadata set_trace
       raftID channelID lastKnownLeader startC_closed doneC_closed errorC errorC_closed
       confChangeInProgress justElected configInflight blockInflight lastBlock appliedIndex
       sizeLimit accDataSize lastSnapBlockNum confState fresh opts_BlockMetadata
       opts_MaxInflightMsgs support chain_createPuller Node trace].

Section ChainMore.

Context `{Codec} `{BlockCreator}.

Lemma remotePeersLoop_ok self (visited : list (N * Consenter)) acc nodes :
  remotePeersLoop self visited acc = Ok nodes →
  ∃ more, nodes = acc ++ more
          ∧ Forall2 (fun kc node => peer_of kc.1 kc.2 node)
                    (filter (fun kc => kc.1 ≠ self) visited) more.
Proof.
  revert acc. induction visited as [|[id c] l IH]; intros acc; simpl.
  - intros [= <-]. exists []. by rewrite app_nil_r.
  - rewrite filter_cons. simpl. destruct (bool_decide (id = self)) eqn:Hself.
    + apply bool_decide_eq_true in Hself. rewrite decide_False by (by intros ?). apply IH.
    + apply bool_decide_eq_false in Hself. rewrite decide_True by done.
      unfold pemToDER, mbind, result_bind.
      destruct (pem_Decode (ServerTlsCert c)) as [server|] eqn:Hs; [|done].
      destruct (pem_Decode (ClientTlsCert c)) as [client|] eqn:Hc; [|done].
      intros Hloop. apply IH in Hloop as (more & -> & Hmore).
      eexists. rewrite <- app_assoc. split; [done|]. constructor; [|done].
      by repeat split.
Qed.

(** X14.  The peers [remotePeers] answers are the consenters other than
    this node: each of them once, under its raft id, with its endpoint
    and with both certificates decoded from PEM; this node is never among
    them. *)
Theorem remotePeers_others (c : Chain) (nodes : list RemoteNode) :
  remotePeers c = Ok nodes →
  NoDup (RN_ID <$> nodes)
  ∧ (∀ id, id ∈ RN_ID <$> nodes
           ↔ id ≠ raftID c ∧ is_Some (Consenters (opts_BlockMetadata c) !! id))
  ∧ (∀ node, node ∈ nodes →
             ∃ consenter, Consenters (opts_BlockMetadata c) !! RN_ID node = Some consenter
                          ∧ peer_of (RN_ID node) consenter node).
Proof.
  unfold remotePeers. intros Hloop.
  apply remotePeersLoop_ok in Hloop as (more & -> & Hmore). simpl.
  set (others := filter (fun kc : N * Consenter => kc.1 ≠ raftID c)
                   (map_to_list (Consenters (opts_BlockMetadata c)))) in *.
  assert (RN_ID <$> more = others.*1) as Hids.
  { clearbody others. induction Hmore as [|kc node l k Hp Hmore IH]; [done|].
    rewrite !fmap_cons, IH. f_equal. apply Hp. }
  assert (∀ id co, (id, co) ∈ others
                   ↔ id ≠ raftID c ∧ Consenters (opts_BlockMetadata c) !! id = Some co)
    as Hothers.
  { intros id co. unfold others. rewrite list_elem_of_filter, elem_of_map_to_list. done. }
  split; [|split].
  - rewrite Hids. unfold others.
    apply (NoDup_fmap_2_strong fst).
    + intros [id1 c1] [id2 c2] Hin1 Hin2 Heq. simpl in Heq. subst id2.
      apply list_elem_of_filter in Hin1 as [_ Hin1], Hin2 as [_ Hin2].
      apply elem_of_map_to_list in Hin1, Hin2. congruence.
    + apply NoDup_filter, NoDup_map_to_list.
  - intros id. rewrite Hids, list_elem_of_fmap. split.
    + intros ([id' co] & -> & Hin). apply Hothers in Hin as [? ?]. split; [done|]. by exists co.
    + intros [Hne [co Hco]]. exists (id, co). split; [done|]. by apply Hothers.
  - intros node Hin.
    apply list_elem_of_lookup in Hin as [i Hi].
    destruct (Forall2_lookup_r _ _ _ _ _ Hmore Hi) as ([id co] & Hkc & Hp).
    apply list_elem_of_lookup_2 in Hkc. apply Hothers in Hkc as [_ Hco].
    exists co. pose proof Hp as [Hid _]. simpl in Hid. rewrite Hid. by split.
Qed.

Lemma checkConsentersSet_outcome (configValue : ConfigValue) (c : Chain) :
  ∃ r, checkConsentersSet configValue c = Ret (r, c)
       ∧ (r = None
          ↔ ∃ md new,
              MetadataFromConfigValue configValue = Ok md
              ∧ CM_Consenters md = Some <$> new
              ∧ ¬ cert_in_two_slots md
              ∧ (length (added (opts_BlockMetadata c) new) ≤ 1)%nat
              ∧ (length (removed (opts_BlockMetadata c) new) ≤ 1)%nat).
Proof.
  unfold checkConsentersSet.
  destruct (MetadataFromConfigValue configValue) as [md|err].
  2:{ eexists. split; [done|]. split; [done|]. by intros (md & new & [=] & _). }
  unfold MetadataHasDuplication.
  destruct (existsb _ (CM_Consenters md)) eqn:Hnil.
  { apply existsb_nil_consenter in Hnil. eexists. split; [done|]. split; [done|].
    intros (md' & new & [= <-] & Hnew & _). rewrite Hnew in Hnil.
    apply list_elem_of_fmap in Hnil as (? & ? & _). done. }
  assert (None ∉ CM_Consenters md) as Hnone.
  { intros Hin. apply existsb_nil_consenter in Hin. congruence. }
  destruct (no_nil_consenter _ Hnone) as [new Hnew].
  rewrite Hnew. destruct (duplicationLoop_spec new ∅) as (r & -> & Hr).
  assert (dup_from ∅ new ↔ cert_in_two_slots md) as Hdup.
  { destruct md as [l opts]. simpl in Hnew. subst l. apply dup_from_empty_two_slots. }
  destruct r as [e|].
  { eexists. split; [done|]. split; [done|].
    intros (md' & new' & [= <-] & _ & Hno & _). exfalso. apply Hno, Hdup, Hr. by eexists. }
  unfold_M. simpl.
  assert (derefConsenters (Some <$> new) = Some new) as -> by (by apply derefConsenters_Some).
  pose proof (ComputeMembershipChanges_is_err (opts_BlockMetadata c) new) as Herr.
  destruct (ComputeMembershipChanges (opts_BlockMetadata c) new) as [mc|e]; simpl in Herr.
  - eexists. split; [done|]. split; [|done]. intros _. exists md, new.
    split; [done|]. split; [done|]. split.
    + intros Htwo. apply Hdup, Hr in Htwo. by destruct Htwo.
    + destruct (decide (length (added (opts_BlockMetadata c) new) ≤ 1)%nat);
        destruct (decide (length (removed (opts_BlockMetadata c) new) ≤ 1)%nat);
        try done; exfalso; assert (false = true) by (apply Herr; lia); done.
  - eexists. split; [done|]. split; [done|].
    intros (md' & new' & [= <-] & Hnew' & _ & Ha & Hr').
    rewrite Hnew in Hnew'. apply (inj (fmap Some)) in Hnew'. subst new'.
    exfalso. assert (true = true) as Ht by done. apply Herr in Ht. lia.
Qed.

(** X15.  [checkConsentersSet], given a configuration value that is not
    nil, never panics and leaves the chain as it is.  It accepts the
    configuration value exactly when the metadata in
    it can be read, have no nil consenter and no certificate in two
    consenter slots, and add at most one consenter to those of the chain
    and remove at most one. *)
Theorem checkConsentersSet_spec (configValue : ConfigValue) (c : Chain) :
  ∃ r, checkConsentersSet configValue c = Ret (r, c)
       ∧ (r = None
          ↔ ∃ md new,
              MetadataFromConfigValue configValue = Ok md
              ∧ CM_Consenters md = Some <$> new
              ∧ ¬ cert_in_two_slots md
              ∧ (length (added (opts_BlockMetadata c) new) ≤ 1)%nat
              ∧ (length (removed (opts_BlockMetadata c) new) ≤ 1)%nat).
Proof. apply checkConsentersSet_outcome. Qed.

(** Refutes a case of the envelope against the facts of another one. *)
Ltac cases_differ :=
  intros;
  repeat match goal with
         | H : ∃ _, _ |- _ => destruct H
         | H : _ ∧ _ |- _ => destruct H
         | H : _ ∨ _ |- _ => destruct H
         end;
  congruence.

(** X16.  [checkConfigUpdateValidity] leaves the chain as it is, whether
    it returns or panics, and its only panic is a nil dereference.  It
    panics exactly when the payload has no header, or the envelope is a
    config update whose write set is nil, or whose orderer group or
    consensus type value is bound to nil.  It accepts exactly an orderer
    transaction, a config update whose write set does not touch the
    consensus type, and a config update that writes a consensus type
    [checkConsentersSet] accepts.  In every other case it returns an
    error: an envelope it cannot read, a header type other than these
    two, or a consenter set that is rejected. *)
Theorem checkConfigUpdateValidity_spec (ctx : Envelope) (c : Chain) :
  ((∃ r, checkConfigUpdateValidity ctx c = Ret (r, c))
   ∨ checkConfigUpdateValidity ctx c = PanicAt PanicNilDereference c)
  ∧ (checkConfigUpdateValidity ctx c = PanicAt PanicNilDereference c
     ↔ ∃ payload,
         UnmarshalPayload (Env_Payload ctx) = Ok payload
         ∧ (P_Header payload = None
            ∨ ∃ channelHeader chdr configUpdate,
                P_Header payload = Some channelHeader
                ∧ UnmarshalChannelHeader channelHeader = Ok chdr
                ∧ CH_Type chdr = HeaderType_CONFIG
                ∧ UnmarshalConfigUpdateFromPayload payload = Ok configUpdate
                ∧ (WriteSet configUpdate = None
                   ∨ ∃ groups,
                       WriteSet configUpdate = Some groups
                       ∧ (groups !! "Orderer" = Some None
                          ∨ ∃ group,
                              groups !! "Orderer" = Some (Some group)
                              ∧ Values group !! "ConsensusType" = Some None))))
  ∧ (checkConfigUpdateValidity ctx c = Ret (None, c)
     ↔ ∃ payload channelHeader chdr,
         UnmarshalPayload (Env_Payload ctx) = Ok payload
         ∧ P_Header payload = Some channelHeader
         ∧ UnmarshalChannelHeader channelHeader = Ok chdr
         ∧ (CH_Type chdr = HeaderType_ORDERER_TRANSACTION
            ∨ (CH_Type chdr = HeaderType_CONFIG
               ∧ ∃ configUpdate groups,
                   UnmarshalConfigUpdateFromPayload payload = Ok configUpdate
                   ∧ WriteSet configUpdate = Some groups
                   ∧ (groups !! "Orderer" = None
                      ∨ ∃ group,
                          groups !! "Orderer" = Some (Some group)
                          ∧ (Values group !! "ConsensusType" = None
                             ∨ ∃ val,
                                 Values group !! "ConsensusType" = Some (Some val)
                                 ∧ checkConsentersSet val c = Ret (None, c)))))).
Proof.
  assert (HeaderType_CONFIG ≠ HeaderType_ORDERER_TRANSACTION) as Htypes by done.
  unfold checkConfigUpdateValidity.
  destruct (UnmarshalPayload (Env_Payload ctx)) as [payload|err] eqn:Hp.
  2:{ unfold_M. split; [by eauto|]. split; (split; [done|]); cases_differ. }
  destruct (P_Header payload) as [channelHeader|] eqn:Hheader.
  2:{ unfold_M. split; [by right|]. split.
      - split; [|done]. intros _. exists payload. by auto 10.
      - split; [done|]. cases_differ. }
  destruct (UnmarshalChannelHeader channelHeader) as [chdr|err] eqn:Hh.
  2:{ unfold_M. split; [by eauto|]. split; (split; [done|]); cases_differ. }
  destruct (bool_decide (CH_Type chdr = HeaderType_ORDERER_TRANSACTION)) eqn:Hord.
  { apply bool_decide_eq_true in Hord. unfold_M. split; [by eauto|]. split.
    - split; [done|]. cases_differ.
    - split; [|done]. intros _. exists payload, channelHeader, chdr. by auto 10. }
  apply bool_decide_eq_false in Hord.
  destruct (bool_decide (CH_Type chdr = HeaderType_CONFIG)) eqn:Hcfg.
  2:{ apply bool_decide_eq_false in Hcfg. unfold_M. split; [by eauto|].
      split; (split; [done|]); cases_differ. }
  apply bool_decide_eq_true in Hcfg.
  destruct (UnmarshalConfigUpdateFromPayload payload) as [configUpdate|err] eqn:Hupdate.
  2:{ unfold_M. split; [by eauto|]. split; (split; [done|]); cases_differ. }
  destruct (WriteSet configUpdate) as [groups|] eqn:Hws.
  2:{ unfold_M. split; [by right|]. split.
      - split; [|done]. intros _. exists payload. split; [done|]. right.
        exists channelHeader, chdr, configUpdate. by auto 10.
      - split; [done|]. cases_differ. }
  destruct (groups !! "Orderer") as [[group|]|] eqn:Hgroup.
  3:{ unfold_M. split; [by eauto|]. split.
      - split; [done|]. cases_differ.
      - split; [|done]. intros _. exists payload, channelHeader, chdr.
        split; [done|]. split; [done|]. split; [done|]. right. split; [done|].
        exists configUpdate, groups. by auto 10. }
  2:{ unfold_M. split; [by right|]. split.
      - split; [|done]. intros _. exists payload. split; [done|]. right.
        exists channelHeader, chdr, configUpdate.
        split; [done|]. split; [done|]. split; [done|]. split; [done|]. right.
        exists groups. by auto 10.
      - split; [done|]. cases_differ. }
  destruct (Values group !! "ConsensusType") as [[val|]|] eqn:Hval.
  3:{ unfold_M. split; [by eauto|]. split.
      - split; [done|]. cases_differ.
      - split; [|done]. intros _. exists payload, channelHeader, chdr.
        split; [done|]. split; [done|]. split; [done|]. right. split; [done|].
        exists configUpdate, groups. split; [done|]. split; [done|]. right.
        exists group. by auto 10. }
  2:{ unfold_M. split; [by right|]. split.
      - split; [|done]. intros _. exists payload. split; [done|]. right.
        exists channelHeader, chdr, configUpdate.
        split; [done|]. split; [done|]. split; [done|]. split; [done|]. right.
        exists groups. split; [done|]. right. exists group. by auto 10.
      - split; [done|]. cases_differ. }
  destruct (checkConsentersSet_outcome val c) as (r & Hr & _).
  rewrite Hr. split; [by eauto|]. split.
  - split; [done|]. cases_differ.
  - split.
    + intros [= ->]. exists payload, channelHeader, chdr.
      split; [done|]. split; [done|]. split; [done|]. right. split; [done|].
      exists configUpdate, groups. split; [done|]. split; [done|]. right.
      exists group. split; [done|]. right. exists val. by auto 10.
    + intros (payload' & h' & chdr' & [= <-] & Hh' & Hc' & Hrest).
      rewrite Hheader in Hh'. injection Hh' as <-.
      rewrite Hh in Hc'. injection Hc' as <-.
      destruct Hrest as [?|[_ (cu & gs & Hcu & Hgs & Hrest)]]; [done|].
      rewrite Hupdate in Hcu. injection Hcu as <-.
      rewrite Hws in Hgs. injection Hgs as <-.
      destruct Hrest as [?|(g & Hg & Hrest)]; [congruence|].
      rewrite Hgroup in Hg. injection Hg as <-.
      destruct Hrest as [?|(v & Hv & Hrest)]; [congruence|].
      rewrite Hval in Hv. injection Hv as <-. congruence.
Qed.

(** [propose] with a leader's channel that has room for the batches. *)
Lemma propose_room (room : nat) (creator : blockCreator) (batches : list (list Envelope))
    (c : Chain) :
  (length batches ≤ room)%nat →
  ∃ c', propose room true (Some creator) batches c
        = Ret (Some (createBlocks creator batches).2, c')
        ∧ blockInflight c' = (blockInflight c + Z.of_nat (length batches))%Z
        ∧ trace c' = trace c ++ (SendBlock <$> (createBlocks creator batches).1)
        ∧ configInflight c'
          = configInflight c || existsb IsConfigBlock (createBlocks creator batches).1
        ∧ lastBlock c' = lastBlock c ∧ appliedIndex c' = appliedIndex c
        ∧ opts_BlockMetadata c' = opts_BlockMetadata c.
Proof.
  revert room creator c. induction batches as [|batch batches IH]; intros room creator c Hroom.
  - exists c. simpl. rewrite Z.add_0_r, app_nil_r, orb_false_r. done.
  - cbn [propose createBlocks]. destruct (createNextBlock creator batch) as [b creator'].
    destruct room as [|room]; [simpl in Hroom; lia|].
    destruct (IH room creator'
                (set_blockInflight
                   (blockInflight c + 1)%Z
                   ((if IsConfigBlock b then set_configInflight true else id)
                      (set_trace (trace c ++ [SendBlock b]) c))))
      as (c' & Hc' & Hin & Htr & Hcfg & Hlast & Happ & Hmd); [simpl in Hroom; lia|].
    exists c'. destruct (createBlocks creator' batches) as [blocks creator''] eqn:Hblocks.
    simpl in *. split.
    { unfold_M. simpl. destruct (IsConfigBlock b); simpl; exact Hc'. }
    rewrite Hin, Htr, Hcfg, Hlast, Happ, Hmd.
    destruct (IsConfigBlock b); simpl; rewrite <- ?app_assoc; simpl;
      repeat split; try done; try lia.
Qed.

(** X17.  [propose] sends one block for each batch to the leader's block
    channel, in order, counts each as in flight and marks a config block
    as in flight, when the channel has room for them; it panics when
    there is a batch and the channel is nil, as it is on a follower, or
    has no room for all the batches, or there is no block creator; with
    no batch it does nothing. *)
Theorem propose_spec (room : nat) (ch : bool) (bc : option blockCreator)
    (batches : list (list Envelope)) (c : Chain) :
  (∀ creator, ch = true → bc = Some creator → (length batches ≤ room)%nat →
     ∃ c', propose room ch bc batches c = Ret (Some (createBlocks creator batches).2, c')
           ∧ blockInflight c' = (blockInflight c + Z.of_nat (length batches))%Z
           ∧ trace c' = trace c ++ (SendBlock <$> (createBlocks creator batches).1)
           ∧ configInflight c'
             = configInflight c || existsb IsConfigBlock (createBlocks creator batches).1)
  ∧ (batches ≠ [] → ch = false ∨ bc = None ∨ (room < length batches)%nat →
     ∃ p c', propose room ch bc batches c = PanicAt p c')
  ∧ (batches = [] → propose room ch bc batches c = Ret (bc, c)).
Proof.
  split; [|split].
  - intros creator -> -> Hroom.
    destruct (propose_room room creator batches c Hroom) as (c' & ? & ? & ? & ? & _).
    by exists c'.
  - revert room bc c. induction batches as [|batch batches IH]; intros room bc c Hne Hbad; [done|].
    cbn [propose]. destruct bc as [creator|]; [|by eauto].
    destruct (createNextBlock creator batch) as [b creator'].
    destruct ch; [|by eauto]. destruct room as [|room]; [by eauto|].
    destruct Hbad as [?|[?|Hroom]]; [done|done|]. simpl in Hroom.
    assert (batches ≠ []) as Hne' by (intros ->; simpl in Hroom; lia).
    unfold_M. simpl.
    destruct (IsConfigBlock b); simpl;
      match goal with
      | |- context [propose room true (Some creator') batches ?c1] =>
          destruct (IH room (Some creator') c1) as (p & c2 & Hp); [done | right; right; lia |]
      end; rewrite Hp; by eauto.
  - intros ->. done.
Qed.

End ChainMore.

(** ** Starting the chain *)

Section StartMore.

Context `{Codec}.

Lemma detectMigration_frame (c c1 : Chain) :
  support c1 = support c → lastBlock c1 = lastBlock c →
  detectMigration c1
  = match detectMigration c with
    | Ret (b, _) => Ret (b, c1)
    | PanicAt p _ => PanicAt p c1
    | OutOfFuel => OutOfFuel
    end.
Proof.
  intros Hs Hl. unfold detectMigration. unfold_M. simpl. rewrite Hs, Hl.
  destruct (Kafka2RaftMigration (support c)); [|done].
  destruct (GetLastConfigIndexFromBlock (lastBlock c)); [|done].
  destruct (bool_decide _); [done|].
  by destruct (IsSystemChannel (support c)).
Qed.

Lemma outcome_only_Ret {A} (r : outcome Chain A) (a : A) :
  outcome_only r = Ret a → r = Ret a.
Proof. destruct r; simpl; congruence. Qed.

Lemma outcome_only_Panic {A} (r : outcome Chain A) (p : panic) :
  outcome_only r = Panic p → ∃ c', r = PanicAt p c'.
Proof. destruct r; simpl; [done| |done]. intros [= ->]. by eauto. Qed.

(** What [Start] does, case by case. *)
Lemma Start_cases (c : Chain) :
  outcome_only (Start c)
  = match remotePeers c with
    | Err _ =>
        if doneC_closed c then Panic PanicCloseOfClosedChannel
        else Ret (tt, set_doneC_closed true c)
    | Ok nodes =>
        let isJoin := 1 <? Height (support c) (trace c ++ [Configure (channelID c) nodes]) in
        match (if isJoin then detectMigration c else Ret (false, c)) with
        | Ret (isMigration, _) =>
            if startC_closed c then Panic PanicCloseOfClosedChannel
            else if errorC_closed c then Panic PanicCloseOfClosedChannel
            else Ret (tt, started c nodes isJoin isMigration)
        | PanicAt p _ => Panic p
        | OutOfFuel => OutOfFuel
        end
    end.
Proof.
  unfold Start. unfold mbind at 1. unfold M_bind at 1. unfold configureComm. cbv beta.
  destruct (remotePeers c) as [nodes|err].
  - unfold close_startC, close_errorC. unfold_M. simpl.
    destruct (1 <? Height (support c) _).
    + match goal with
      | |- context [detectMigration ?c1] => rewrite (detectMigration_frame c c1) by done
      end.
      destruct (detectMigration_outcome c) as [[b ->]|[p ->]]; [|done]. simpl.
      destruct (startC_closed c); [done|]. simpl.
      destruct (errorC_closed c); [done|]. simpl.
      unfold started. destruct c. chain_fields. by rewrite <- ?app_assoc.
    + simpl. destruct (startC_closed c); [done|]. simpl.
      destruct (errorC_closed c); [done|]. simpl.
      unfold started. destruct c. chain_fields. by rewrite <- ?app_assoc.
  - unfold close_doneC. unfold_M. simpl. by destruct (doneC_closed c).
Qed.

Lemma detectMigration_returns (c : Chain) :
  (Kafka2RaftMigration (support c) = true →
   is_err (GetLastConfigIndexFromBlock (lastBlock c)) = false) →
  ∃ b, detectMigration c = Ret (b, c).
Proof.
  intros Hmig. unfold detectMigration. unfold_M. simpl.
  destruct (Kafka2RaftMigration (support c)); [|by eauto].
  destruct (GetLastConfigIndexFromBlock (lastBlock c)); [|by discriminate Hmig].
  destruct (bool_decide _); [by eauto|].
  destruct (IsSystemChannel (support c)); by eauto.
Qed.

(** X18.  [Start] on a chain as [NewChain] makes it, with its three
    channels open.  When a certificate of another consenter is not PEM,
    [Start] closes [doneC] and starts nothing, and [isRunning] reports
    that the chain is not started.  Otherwise, unless the migration check
    panics on the last config index, [Start] configures the communication
    with the other consenters, starts the Raft node, the garbage
    collection, the main loop and the periodic check, in this order,
    closes [startC] and [errorC], and the chain is running; it then
    suspects an eviction exactly when no leader is known. *)
Theorem Start_new_chain (c : Chain) :
  startC_closed c = false → doneC_closed c = false → errorC_closed c = false →
  isRunning c = Some "chain is not started"
  ∧ (bad_pem (raftID c) (opts_BlockMetadata c) →
     ∃ c', Start c = Ret (tt, c') ∧ trace c' = trace c ∧ doneC_closed c' = true
           ∧ isRunning c' = Some "chain is not started" ∧ suspectEviction c' = false)
  ∧ (¬ bad_pem (raftID c) (opts_BlockMetadata c) →
     (Kafka2RaftMigration (support c) = true →
      is_err (GetLastConfigIndexFromBlock (lastBlock c)) = false) →
     ∃ c' nodes isJoin isMigration,
       Start c = Ret (tt, c')
       ∧ remotePeers c = Ok nodes
       ∧ trace c' = trace c ++ [Configure (channelID c) nodes;
                                NodeStart (fresh c) isJoin isMigration;
                                GoGc; GoServeRequest; PeriodicCheckerRun]
       ∧ startC_closed c' = true
       ∧ errorC_closed c' = true
       ∧ isRunning c' = None
       ∧ suspectEviction c' = bool_decide (lastKnownLeader c = 0)).
Proof.
  intros HstartC HdoneC HerrorC. unfold suspectEviction, isRunning.
  rewrite HstartC. split; [done|].
  pose proof (Start_cases c) as Hcases. pose proof (remotePeers_err c) as Hbad.
  destruct (remotePeers c) as [nodes|err]; simpl in Hbad.
  - split; [intros Hb; apply Hbad in Hb; done|]. intros _ Hmig.
    destruct (detectMigration_returns c Hmig) as [b Hb]. simpl in Hcases.
    rewrite HstartC, HerrorC in Hcases.
    destruct (1 <? Height (support c) _) eqn:Hjoin.
    + rewrite Hb in Hcases. apply outcome_only_Ret in Hcases.
      eexists _, nodes, true, b. split; [exact Hcases|].
      split; [done|]. simpl. by rewrite HdoneC.
    + apply outcome_only_Ret in Hcases.
      eexists _, nodes, false, false. split; [exact Hcases|].
      split; [done|]. simpl. by rewrite HdoneC.
  - split; [|intros Hok; exfalso; by apply Hok, Hbad]. intros _.
    rewrite HdoneC in Hcases. apply outcome_only_Ret in Hcases.
    eexists. split; [exact Hcases|]. simpl. by rewrite HstartC.
Qed.

(** X19.  [Start] is not to be called twice: on the chain a call of
    [Start] has returned from, be it started or not, the next call
    panics, as it closes a channel that is closed. *)
Theorem Start_twice_panics (c c' : Chain) :
  Start c = Ret (tt, c') → ∃ p c'', Start c' = PanicAt p c''.
Proof.
  intros Hstart.
  assert (outcome_only (Start c) = Ret (tt, c')) as Hfirst by (by rewrite Hstart).
  assert (∃ p, outcome_only (Start c') = Panic p) as [p Hp];
    [|apply outcome_only_Panic in Hp; by eauto].
  clear Hstart. revert Hfirst.
  rewrite (Start_cases c), (Start_cases c').
  destruct (remotePeers c) as [nodes|err] eqn:Hpeers.
  - simpl. intros Hfirst.
    assert (∃ isJoin isMigration, c' = started c nodes isJoin isMigration) as (j & m & ->).
    { destruct (if 1 <? Height (support c) _ then _ else _) as [[b c1]|p c1|]; [|done|done].
      destruct (startC_closed c); [done|]. destruct (errorC_closed c); [done|].
      injection Hfirst as <-. by eauto. }
    assert (remotePeers (started c nodes j m) = Ok nodes) as -> by exact Hpeers.
    cbv zeta.
    match goal with
    | |- context [if ?b then detectMigration ?c1 else _] =>
        destruct b;
          [rewrite (detectMigration_frame c c1) by done;
           destruct (detectMigration_outcome c) as [[b' ->]|[p ->]]|]
    end; simpl; by eauto.
  - destruct (doneC_closed c) eqn:Hdone; [done|]. intros [= <-].
    assert (remotePeers (set_doneC_closed true c) = Err err) as -> by exact Hpeers.
    simpl. by eauto.
Qed.

End StartMore.

(** Node 1 of three consenters has the peers 2 and 3. *)
Lemma remotePeers_others_witness :
  ∃ nodes,
    remotePeers (H := Examples.codec) Examples.chain_at_4 = Ok nodes
    ∧ NoDup (RN_ID <$> nodes)
    ∧ (∀ id, id ∈ RN_ID <$> nodes
             ↔ id ≠ 1 ∧ is_Some (Consenters Examples.three_nodes !! id)).
Proof.
  eexists. split; [vm_compute; reflexivity|].
  edestruct (remotePeers_others (H := Examples.codec) Examples.chain_at_4) as (Hnodup & Hids & _).
  - vm_compute. reflexivity.
  - split; [exact Hnodup | exact Hids].
Defined.

(** The chain of the examples starts: its peers are configured, the Raft
    node joins an existing channel, and the chain is running. *)
Lemma Start_new_chain_witness :
  ∃ c' nodes isJoin isMigration,
    Start (H := Examples.codec) Examples.chain_at_4 = Ret (tt, c')
    ∧ remotePeers (H := Examples.codec) Examples.chain_at_4 = Ok nodes
    ∧ trace c' = [Configure "mychannel" nodes; NodeStart false isJoin isMigration;
                  GoGc; GoServeRequest; PeriodicCheckerRun]
    ∧ isRunning c' = None
    ∧ suspectEviction c' = true.
Proof.
  destruct (Start_new_chain (H := Examples.codec) Examples.chain_at_4) as (_ & _ & Hstart);
    [reflexivity | reflexivity | reflexivity |].
  destruct Hstart as (c' & nodes & isJoin & isMigration & Hc' & Hnodes & Htrace & _ & _ & Hrun & Hsus).
  - intros Hbad. apply (remotePeers_err (H := Examples.codec) Examples.chain_at_4) in Hbad.
    vm_compute in Hbad. discriminate Hbad.
  - intros Hmig. vm_compute in Hmig. discriminate Hmig.
  - exists c', nodes, isJoin, isMigration.
    split; [exact Hc'|]. split; [exact Hnodes|]. split; [exact Htrace|].
    split; [exact Hrun | exact Hsus].
Defined.

(** The chain of the examples, started twice. *)
Lemma Start_twice_panics_witness :
  ∃ c', Start (H := Examples.codec) Examples.chain_at_4 = Ret (tt, c')
        ∧ ∃ p c'', Start (H := Examples.codec) c' = PanicAt p c''.
Proof.
  eexists. split; [vm_compute; reflexivity|].
  eapply (Start_twice_panics (H := Examples.codec) Examples.chain_at_4).
  vm_compute. reflexivity.
Defined.

(** The chain of three consenters accepts the update that adds consenter 4
    and rejects the one that adds consenters 4 and 5. *)
Lemma checkConsentersSet_spec_witness :
  checkConsentersSet (H := Examples.codec) {| Value := "config:add" |} Examples.chain_at_4
  = Ret (None, Examples.chain_at_4)
  ∧ checkConsentersSet (H := Examples.codec) {| Value := "config:add-two" |} Examples.chain_at_4
    = Ret (Some "update of more than one consenter at a time is not supported",
           Examples.chain_at_4).
Proof.
  destruct (checkConsentersSet_spec (H := Examples.codec) {| Value := "config:add" |}
              Examples.chain_at_4) as (r & Hr & _).
  split; [|vm_compute; reflexivity].
  rewrite Hr. revert Hr. vm_compute. intros [= <-]. reflexivity.
Defined.

(** A config update that adds consenter 4 is accepted; an envelope with an
    empty payload, and a config update without a write set, panic with a
    nil dereference. *)
Lemma checkConfigUpdateValidity_spec_witness :
  checkConfigUpdateValidity (H := Examples.codec)
    {| Env_Payload := "config:add"; Env_Signature := "" |} Examples.chain_at_4
  = Ret (None, Examples.chain_at_4)
  ∧ checkConfigUpdateValidity (H := Examples.codec)
      {| Env_Payload := ""; Env_Signature := "" |} Examples.chain_at_4
    = PanicAt PanicNilDereference Examples.chain_at_4
  ∧ checkConfigUpdateValidity (H := Examples.codec)
      {| Env_Payload := "config:no-write-set"; Env_Signature := "" |} Examples.chain_at_4
    = PanicAt PanicNilDereference Examples.chain_at_4.
Proof.
  split; [|split].
  - destruct (checkConfigUpdateValidity_spec (H := Examples.codec)
                {| Env_Payload := "config:add"; Env_Signature := "" |} Examples.chain_at_4)
      as (_ & _ & Haccepts).
    apply Haccepts. eexists _, _, _.
    split; [vm_compute; reflexivity|]. split; [reflexivity|]. split; [reflexivity|].
    right. split; [reflexivity|]. eexists _, _.
    split; [reflexivity|]. split; [reflexivity|]. right. eexists.
    split; [reflexivity|]. right. eexists. split; [reflexivity|]. vm_compute. reflexivity.
  - destruct (checkConfigUpdateValidity_spec (H := Examples.codec)
                {| Env_Payload := ""; Env_Signature := "" |} Examples.chain_at_4)
      as (_ & Hpanics & _).
    apply Hpanics. eexists. split; [reflexivity|]. left. reflexivity.
  - destruct (checkConfigUpdateValidity_spec (H := Examples.codec)
                {| Env_Payload := "config:no-write-set"; Env_Signature := "" |}
                Examples.chain_at_4) as (_ & Hpanics & _).
    apply Hpanics. eexists. split; [reflexivity|]. right. eexists _, _, _.
    split; [reflexivity|]. split; [reflexivity|]. split; [reflexivity|].
    split; [reflexivity|]. left. reflexivity.
Defined.

(** A leader with room for two blocks proposes one batch. *)
Lemma propose_spec_witness :
  ∃ c',
    propose (H := Examples.codec) (H0 := Examples.block_creator) 2 true
      (Some MoreExamples.creator_at_4) [[MoreExamples.tx_envelope]] Examples.chain_at_4
    = Ret (Some {| bc_hash := "5"; bc_number := 5 |}, c')
    ∧ blockInflight c' = 1%Z
    ∧ trace c' = [SendBlock (Examples.block 5 ["tx"])].
Proof.
  destruct (propose_spec (H := Examples.codec) (H0 := Examples.block_creator) 2 true
              (Some MoreExamples.creator_at_4) [[MoreExamples.tx_envelope]] Examples.chain_at_4)
    as (Hroom & _).
  destruct (Hroom MoreExamples.creator_at_4) as (c' & Hc' & Hinflight & Htrace & _).
  - reflexivity.
  - reflexivity.
  - vm_compute. lia.
  - exists c'. split; [exact Hc'|]. split; [exact Hinflight | exact Htrace].
Defined.

(** ** Relations between the chain before and after a method *)

Section Steps.

Context `{Codec} (R : relation Chain) `{!PreOrder R}.

Lemma steps_ret {A} (a : A) : steps R (mret a).
Proof. intros c a' c' [= <- <-]. done. Qed.

Lemma steps_get : steps R get.
Proof. intros c a' c' [= <- <-]. done. Qed.

Lemma steps_raise {A} p : steps R (raise p : M A).
Proof. intros c a c' [=]. Qed.

Lemma steps_panicf {A} msg : steps R (panicf msg : M A).
Proof. intros c a c' [=]. Qed.

Lemma steps_outOfFuel {A} : steps R (outOfFuel : M A).
Proof. intros c a c' [=]. Qed.

Lemma steps_modify (f : Chain → Chain) : (∀ c, R c (f c)) → steps R (modify f).
Proof. intros Hf c a c' [= <- <-]. apply Hf. Qed.

Lemma steps_emit (e : effect) :
  (∀ c, R c (set_trace (trace c ++ [e]) c)) → steps R (emit e).
Proof. intros He. by apply steps_modify. Qed.

Lemma steps_bind {A B} (m : M A) (k : A → M B) :
  steps R m → (∀ a, steps R (k a)) → steps R (m ≫= k).
Proof.
  intros Hm Hk c b c'. unfold mbind, M_bind.
  destruct (m c) as [[a c1]| |] eqn:Hmc; [|done|done].
  intros Hkc. transitivity c1; [by eapply Hm | by eapply Hk].
Qed.

Lemma steps_when (b : bool) (m : M unit) : steps R m → steps R (when b m).
Proof. intros Hm. destruct b; [done|]. apply steps_ret. Qed.

Lemma steps_defer {A} (deferred : M unit) (body : M A) :
  steps R deferred → steps R body → steps R (defer deferred body).
Proof.
  intros Hd Hb c a c'. unfold defer.
  destruct (body c) as [[a1 c1]|p c1|] eqn:Hbody.
  - intros Hrest. transitivity c1; [by eapply Hb|]. revert Hrest.
    apply steps_bind; [done|]. intros []. apply steps_ret.
  - by destruct (deferred c1) as [[[] c2]| |].
  - done.
Qed.

Lemma steps_configureComm :
  (∀ c nodes, R c (set_trace (trace c ++ [Configure (channelID c) nodes]) c)) →
  steps R configureComm.
Proof.
  intros He c a c'. unfold configureComm.
  destruct (remotePeers c); [|by intros [= <- <-]].
  unfold_M. intros [= <- <-]. apply He.
Qed.

End Steps.

(** Proves that a method built from the operations of the monad takes the
    chain to a related one; [side] proves that an update does. *)
Ltac steps_step side :=
  first
    [ assumption
    | solve [eauto]
    | apply steps_ret; apply _
    | apply steps_get; apply _
    | apply steps_raise
    | apply steps_panicf
    | apply steps_outOfFuel
    | apply steps_configureComm; [apply _ | intros; side]
    | apply steps_when; [apply _ |]
    | apply steps_defer; [apply _ | |]
    | apply steps_emit; [intros; side]
    | apply steps_modify; [intros; side]
    | apply steps_bind; [apply _ | | intros ?]
    | match goal with
      | |- steps _ (if ?b then _ else _) => destruct b
      | |- steps _ (match ?x with _ => _ end) => destruct x
      | |- steps _ (let 'pair _ _ := ?x in _) => destruct x
      end ].

Ltac solve_steps side := repeat steps_step side.

(** ** The ledger *)

Section Ledger.

Context `{Codec}.

Lemma ledger_blocks_ledger (c : Chain) : ledger_blocks c = omap written_block (ledger c).
Proof.
  unfold ledger_blocks, ledger. induction (trace c) as [|e es IH]; [done|].
  rewrite filter_cons.
  destruct e; simpl; first [exact IH | f_equal; exact IH].
Qed.

Lemma consecutive_app (n : N) (blocks1 blocks2 : list Block) :
  consecutive n (blocks1 ++ blocks2)
  ↔ consecutive n blocks1 ∧ consecutive (last_number n blocks1) blocks2.
Proof.
  revert n. induction blocks1 as [|b bs IH]; intros n; simpl.
  - unfold last_number. simpl. tauto.
  - rewrite IH. unfold last_number. rewrite last_cons.
    destruct (last bs); simpl; tauto.
Qed.

Lemma last_number_lastBlock (b : Block) (blocks : list Block) :
  Number (Header (from_option id b (last blocks))) = last_number (Number (Header b)) blocks.
Proof. unfold last_number. by destruct (last blocks). Qed.

#[global] Instance appends_preorder source : PreOrder (appends source).
Proof.
  split.
  - intros c. exists []. by rewrite app_nil_r.
  - intros c1 c2 c3 (bs1 & Hl1 & Hc1 & Hlast1 & Hs1) (bs2 & Hl2 & Hc2 & Hlast2 & Hs2).
    exists (bs1 ++ bs2). split; [by rewrite Hl2, Hl1, app_assoc|]. split; [|split].
    + apply consecutive_app. split; [done|]. by rewrite <- last_number_lastBlock, <- Hlast1.
    + rewrite Hlast2, Hlast1, last_app. by destruct (last bs2).
    + by apply Forall_app.
Qed.

Lemma appends_mono (source source' : Block → Prop) c c' :
  (∀ b, source b → source' b) → appends source c c' → appends source' c c'.
Proof.
  intros Hsub (bs & ? & ? & ? & Hs). exists bs. repeat split; try done.
  eapply Forall_impl; [done|]. done.
Qed.

Lemma steps_appends_mono {A} (source source' : Block → Prop) (m : M A) :
  (∀ b, source b → source' b) → steps (appends source) m → steps (appends source') m.
Proof. intros Hsub Hm c a c' Hc. eapply appends_mono; [done|]. by eapply Hm. Qed.

(** An update that leaves the last block and the trace alone, or adds a
    call that is no write, appends nothing. *)
Lemma appends_nothing source (c c' : Chain) :
  ledger_blocks c' = ledger_blocks c → lastBlock c' = lastBlock c → appends source c c'.
Proof. intros Hl Hb. exists []. by rewrite app_nil_r. Qed.

Lemma ledger_blocks_emit (c : Chain) (e : effect) :
  ledger_blocks (set_trace (trace c ++ [e]) c)
  = ledger_blocks c ++ from_option (fun b => [b]) [] (written_block e).
Proof.
  unfold ledger_blocks. simpl. rewrite omap_app. simpl. by destruct (written_block e).
Qed.

End Ledger.

(** An update of the chain that appends nothing to the ledger. *)
Ltac appends_side :=
  apply appends_nothing; [first [reflexivity | rewrite ledger_blocks_emit; apply app_nil_r] | reflexivity].

Section ApplyLedger.

Context `{Codec}.

Lemma appends_detectConfChange source block : steps (appends source) (detectConfChange block).
Proof. unfold detectConfChange, newConfigMetadata. solve_steps appends_side. Qed.

(** [writeBlock] appends the block, or nothing when the block is behind. *)
Lemma writeBlock_appends (block : Block) (index : N) (c c' : Chain) :
  writeBlock block index c = Ret (tt, c') →
  c' = c
  ∨ (Number (Header block) = expected c ∧ lastBlock c' = block
     ∧ ledger_blocks c' = ledger_blocks c ++ [block]).
Proof.
  unfold expected, writeBlock. unfold_M. simpl.
  destruct (add64 _ 1 <? Number (Header block)) eqn:Hgt; [done|].
  destruct (Number (Header block) <? add64 _ 1) eqn:Hlt; [intros [= <-]; by left|].
  apply N.ltb_ge in Hgt, Hlt. intros Hw. right. split; [lia|]. revert Hw.
  set (c1 := if bool_decide (0 < blockInflight c)%Z
             then set_blockInflight (blockInflight c - 1)%Z c else c).
  match goal with
  | |- context [?t] =>
      lazymatch t with
      | (if bool_decide (0 < blockInflight c)%Z then _ else _) c =>
          assert (t = Ret (tt, c1)) as ->
            by (unfold c1; by destruct (bool_decide (0 < blockInflight c)%Z))
      end
  end.
  assert (trace c1 = trace c) as Htrace
    by (unfold c1; by destruct (bool_decide (0 < blockInflight c)%Z)).
  clearbody c1.
  destruct (IsConfigBlock block).
  - destruct (writeConfigBlock_outcome (set_lastBlock block c1) block index)
      as [[_ (p & c2 & -> & _)]
         |[(_ & _ & p & c2 & -> & _)|[_ (c2 & -> & Hlast & _ & Hledger)]]]; [done|done|].
    intros [= <-]. split; [done|].
    rewrite !ledger_blocks_ledger, Hledger. unfold ledger. simpl.
    rewrite Htrace, omap_app. done.
  - intros [= <-]. split; [done|].
    unfold ledger_blocks. simpl. rewrite Htrace, omap_app. done.
Qed.

Lemma appends_writeBlock (source : Block → Prop) block index :
  source block → steps (appends source) (writeBlock block index).
Proof.
  intros Hsrc c [] c' Hw. apply writeBlock_appends in Hw as [->|(Hn & Hlast & Hl)]; [done|].
  exists [block]. split; [done|]. split; [by split|]. split; [done|]. by constructor.
Qed.

Lemma appends_applyEntry i ent appliedb position :
  steps (appends (carried_by [ent])) (applyEntry i ent appliedb position).
Proof.
  unfold applyEntry. destruct (E_Type ent) eqn:Hty.
  - apply steps_bind; [apply _ | apply steps_get; apply _ |]. intros c.
    destruct (bool_decide _); [apply steps_ret; apply _|].
    destruct (_ <=? _); [apply steps_ret; apply _|].
    destruct (UnmarshalBlock (E_Data ent)) as [block|] eqn:Hblock;
      [|apply steps_panicf].
    apply steps_bind; [apply _ | | intros ?; solve_steps appends_side].
    apply appends_writeBlock. exists ent. split; [by left|]. done.
  - solve_steps appends_side.
Qed.

Lemma appends_applyLoop ents i appliedb position :
  steps (appends (carried_by ents)) (applyLoop i ents appliedb position).
Proof.
  revert i appliedb position. induction ents as [|ent ents IH]; intros i appliedb position; simpl.
  - apply steps_ret. apply _.
  - apply steps_bind; [apply _ | |].
    + eapply steps_appends_mono; [|apply appends_applyEntry].
      intros b (ent' & Hin & Hrest). exists ent'. split; [|done].
      apply list_elem_of_singleton in Hin as ->. by left.
    + intros [[appliedb' position'] flow].
      apply steps_bind; [apply _ | solve_steps appends_side |].
      intros _. eapply steps_appends_mono; [|apply IH].
      intros b (ent' & Hin & Hrest). exists ent'. split; [by right | done].
Qed.

Lemma appends_apply gcReady ents : steps (appends (carried_by ents)) (apply gcReady ents).
Proof.
  pose proof (appends_applyLoop ents). unfold apply. solve_steps appends_side.
Qed.

(** X20.  [apply] writes to the ledger only blocks that normal entries of
    the batch carry, each with a number that is the successor of the
    number of the block before it, starting after the last block of the
    chain; the last block of the chain is then the last block written.
    So the ledger gets no gap and no block twice through [apply]. *)
Theorem apply_appends_consecutive (gcReady : bool) (ents : list Entry) (c c' : Chain) :
  apply gcReady ents c = Ret (tt, c') →
  ∃ blocks,
    ledger_blocks c' = ledger_blocks c ++ blocks
    ∧ consecutive (Number (Header (lastBlock c))) blocks
    ∧ lastBlock c' = from_option id (lastBlock c) (last blocks)
    ∧ Forall (carried_by ents) blocks.
Proof. apply appends_apply. Qed.

End ApplyLedger.

Section Replay.

Context `{Codec}.

Lemma applyLoop_replay (ents : list Entry) (i : nat) (position : nat) (c : Chain) :
  Forall (fun ent => E_Type ent = EntryNormal ∧ E_Index ent ≤ appliedIndex c) ents →
  applyLoop i ents 0 position c = Ret ((0, position), c).
Proof.
  intros Hall. revert i. induction Hall as [|ent ents [Hty Hidx] Hall IH]; intros i; [done|].
  cbn [applyLoop]. unfold applyEntry. rewrite Hty. unfold_M. simpl.
  assert ((E_Index ent <=? appliedIndex c) = true) as Hle by (by apply N.leb_le).
  assert ((appliedIndex c <? E_Index ent) = false) as Hlt by (apply N.ltb_ge; lia).
  destruct (bool_decide (String.length (E_Data ent) = 0%nat)); simpl;
    rewrite ?Hle; simpl; rewrite Hlt; simpl; apply IH.
Qed.

(** X21.  Entries that are replayed change nothing: when every entry of
    the batch is a normal entry whose index is at most the applied index,
    [apply] returns and leaves the chain as it is, so that no block is
    written a second time. *)
Theorem apply_replay (gcReady : bool) (ents : list Entry) (c : Chain) :
  appliedIndex c < MaxUint64 →
  Forall (fun ent => E_Type ent = EntryNormal ∧ E_Index ent ≤ appliedIndex c) ents →
  apply gcReady ents c = Ret (tt, c).
Proof.
  intros Hmax Hall. unfold apply. destruct ents as [|first rest]; [done|].
  unfold mbind at 1. unfold M_bind at 1. unfold get at 1. cbv beta iota.
  assert ((add64 (appliedIndex c) 1 <? E_Index first) = false) as ->.
  { apply N.ltb_ge. rewrite add64_succ by done.
    apply Forall_cons in Hall as [[_ Hidx] _]. lia. }
  unfold mbind at 1. unfold M_bind at 1. by rewrite applyLoop_replay.
Qed.

End Replay.

(** ** Catching up *)

Section CatchUp.

Context `{Codec}.

#[global] Instance same_ledger_preorder : PreOrder same_ledger.
Proof.
  split; [done|]. intros c1 c2 c3 H12 H23. unfold same_ledger in *. congruence.
Qed.

Lemma ledger_emit (c : Chain) (e : effect) :
  ledger (set_trace (trace c ++ [e]) c) = ledger c ++ (if is_ledger_write e then [e] else []).
Proof.
  rewrite ledger_set_trace. f_equal. rewrite filter_cons.
  destruct (is_ledger_write e); [by rewrite decide_True | by rewrite decide_False].
Qed.

Variables (puller : BlockPuller) (upto : N).
Hypothesis upto_in_range : upto < MaxUint64.

(** The body of the loop of [catchUp] for a block that was pulled. *)
Lemma catchUp_body_ledger (block : Block) (k : M (option string)) (c : Chain) r c' :
  ((if IsConfigBlock block then
      emit (WriteConfigBlock block None);;
      configMembership ← detectConfChange block;
      match configMembership with
      | Some configMembership =>
          if Changed configMembership then
            modify (set_opts_BlockMetadata (NewBlockMetadata configMembership));;
            err ← configureComm;
            match err with
            | Some _ => panicf "Failed to configure communication"
            | None => mret tt
            end
          else mret tt
      | None => mret tt
      end
    else emit (WriteBlock block None));;
   modify (set_lastBlock block);; k) c = Ret (r, c') →
  ∃ c1, ledger c1 = ledger c ++ [catchUp_write block] ∧ lastBlock c1 = block
        ∧ k c1 = Ret (r, c').
Proof.
  unfold catchUp_write. destruct (IsConfigBlock block).
  - assert (steps same_ledger
              (configMembership ← detectConfChange block;
               match configMembership with
               | Some configMembership =>
                   if Changed configMembership then
                     modify (set_opts_BlockMetadata (NewBlockMetadata configMembership));;
                     err ← configureComm;
                     match err with
                     | Some _ => panicf "Failed to configure communication"
                     | None => mret tt
                     end
                   else mret tt
               | None => mret tt
               end)) as Hrest.
    { unfold detectConfChange, newConfigMetadata.
      solve_steps ltac:(first [reflexivity | unfold same_ledger; rewrite ledger_emit;
                               apply app_nil_r]). }
    unfold mbind at 1 2. unfold M_bind at 1 2. unfold mbind at 1. unfold M_bind at 1.
    change (emit (WriteConfigBlock block None) c)
      with (Ret (S := Chain) (tt, set_trace (trace c ++ [WriteConfigBlock block None]) c)).
    cbv beta iota.
    match goal with
    | |- context [match ?m ?c1 with Ret _ => _ | PanicAt _ _ => _ | OutOfFuel => _ end] =>
        destruct (m c1) as [[[] c2]| |] eqn:Hm; [|done|done]
    end.
    apply Hrest in Hm. unfold same_ledger in Hm. rewrite ledger_emit in Hm. simpl in Hm.
    unfold_M. intros Hk. eexists. split; [|split; [|exact Hk]]; [|done]. exact Hm.
  - unfold_M. intros Hk. eexists. split; [|split; [|exact Hk]]; [|done].
    apply (ledger_emit c (WriteBlock block None)).
Qed.

(** What the loop of [catchUp] has done when it returns: it has pulled
    the blocks of the first sequence numbers and written them in order,
    all of them when it returns no error, and up to a block it could not
    pull otherwise. *)
Lemma catchUpLoop_ledger (fuel : nat) (next : N) (c : Chain) r c' :
  catchUpLoop fuel puller upto next c = Ret (r, c') →
  ∃ blocks,
    Forall2 (fun seq block => BP_PullBlock puller seq = Some block)
            (take (length blocks) (seq_range next upto)) blocks
    ∧ ledger c' = ledger c ++ (catchUp_write <$> blocks)
    ∧ lastBlock c' = from_option id (lastBlock c) (last blocks)
    ∧ match r with
      | None => length blocks = length (seq_range next upto)
      | Some _ => ∃ seq, seq_range next upto !! length blocks = Some seq
                         ∧ BP_PullBlock puller seq = None
      end.
Proof.
  revert next c. induction fuel as [|fuel IH]; intros next c; [done|].
  cbn [catchUpLoop]. destruct (next <=? upto) eqn:Hle.
  2:{ apply N.leb_gt in Hle. intros [= <- <-]. exists []. rewrite seq_range_nil by done.
      simpl. by rewrite app_nil_r. }
  apply N.leb_le in Hle. rewrite seq_range_cons by done.
  unfold mbind at 1. unfold M_bind at 1.
  change (emit (PullBlock next) c) with (Ret (S := Chain) (tt, set_trace (trace c ++ [PullBlock next]) c)).
  cbv beta iota.
  destruct (BP_PullBlock puller next) as [block|] eqn:Hpull.
  2:{ intros [= <- <-]. exists []. simpl. rewrite ledger_emit. simpl.
      rewrite app_nil_r. repeat split; try done. by exists next. }
  intros Hbody. apply catchUp_body_ledger in Hbody as (c1 & Hl1 & Hb1 & Hloop).
  rewrite ledger_emit in Hl1. simpl in Hl1. rewrite app_nil_r in Hl1.
  apply IH in Hloop as (blocks & Hpulled & Hl & Hlast & Hr).
  rewrite add64_succ in * by lia.
  exists (block :: blocks). simpl. split; [by constructor|]. split; [|split].
  - by rewrite Hl, Hl1, <- app_assoc.
  - rewrite Hlast, Hb1, last_cons. by destruct (last blocks).
  - destruct r; [done|]. by rewrite Hr.
Qed.

(** With fuel for every sequence number, and every block there and not
    a config block, the loop returns without an error. *)
Lemma catchUpLoop_returns (fuel : nat) (next : N) (c : Chain) :
  (∀ seq, next ≤ seq → seq ≤ upto →
          ∃ block, BP_PullBlock puller seq = Some block ∧ IsConfigBlock block = false) →
  (N.to_nat (upto + 1 - next) < fuel)%nat →
  ∃ c', catchUpLoop fuel puller upto next c = Ret (None, c').
Proof.
  revert next c. induction fuel as [|fuel IH]; intros next c Hblocks Hfuel; [lia|].
  cbn [catchUpLoop]. destruct (next <=? upto) eqn:Hle; [|by eauto].
  apply N.leb_le in Hle.
  destruct (Hblocks next) as (block & Hpull & Hconfig); [lia|done|].
  unfold_M. simpl. rewrite Hpull, Hconfig. simpl.
  apply IH.
  - intros seq Hge Hle'. rewrite add64_succ in Hge by lia. apply Hblocks; lia.
  - rewrite add64_succ by lia. lia.
Qed.

End CatchUp.

Section CatchUpTheorem.

Context `{Codec}.

(** X22.  [catchUp] to a snapshot of a block the chain does not have
    yet, numbered below [MaxUint64].  When it returns, the ledger has got the blocks the puller
    answered for the sequence numbers that follow the last block, in
    order, each written without block metadata, up to the block of the
    snapshot if it returns no error and up to the first block the puller
    did not answer otherwise; the last of them is the last block of the
    chain, and the puller is closed in the end.  And it does return
    without an error when the puller has every block up to that of the
    snapshot and none is a config block. *)
Theorem catchUp_ledger (fuel : nat) (snap : Snapshot) (b : Block) (puller : BlockPuller)
    (c : Chain) :
  UnmarshalBlock (Snap_Data snap) = Ok b →
  Number (Header (lastBlock c)) < Number (Header b) →
  Number (Header b) < MaxUint64 →
  chain_createPuller c (trace c) = Ok puller →
  let missing := seq_range (Number (Header (lastBlock c)) + 1) (Number (Header b)) in
  (∀ r c',
     catchUp fuel snap c = Ret (r, c') →
     ∃ blocks,
       Forall2 (fun seq block => BP_PullBlock puller seq = Some block)
               (take (length blocks) missing) blocks
       ∧ ledger c' = ledger c ++ (catchUp_write <$> blocks)
       ∧ lastBlock c' = from_option id (lastBlock c) (last blocks)
       ∧ last (trace c') = Some PullerClose
       ∧ match r with
         | None => length blocks = length missing
         | Some _ => ∃ seq, missing !! length blocks = Some seq
                            ∧ BP_PullBlock puller seq = None
         end)
  ∧ ((∀ seq, seq ∈ missing →
             ∃ block, BP_PullBlock puller seq = Some block ∧ IsConfigBlock block = false) →
     (length missing < fuel)%nat →
     ∃ c', catchUp fuel snap c = Ret (None, c')).
Proof.
  intros Hb Hlt Hmax Hpuller missing. unfold catchUp. rewrite Hb.
  assert ((Number (Header b) <=? Number (Header (lastBlock c))) = false) as Hle
    by (apply N.leb_gt; lia).
  assert (add64 (Number (Header (lastBlock c))) 1 = Number (Header (lastBlock c)) + 1) as Hnext
    by (apply add64_succ; lia).
  split.
  - intros r c'. unfold mbind at 1. unfold M_bind at 1. unfold get at 1. cbv beta iota.
    rewrite Hle. unfold mbind at 1. unfold M_bind at 1.
    change (emit CreatePuller c) with (Ret (S := Chain) (tt, set_trace (trace c ++ [CreatePuller]) c)).
    cbv beta iota. rewrite Hpuller, Hnext. unfold defer.
    destruct (catchUpLoop _ _ _ _ _) as [[r1 c1]| |] eqn:Hloop; [|done|done].
    unfold_M. intros [= <- <-].
    apply catchUpLoop_ledger in Hloop as (blocks & Hpulled & Hl & Hlast & Hr); [|done].
    exists blocks. split; [done|]. split; [|split; [done|split; [|done]]].
    + rewrite ledger_emit, Hl, ledger_emit. simpl. by rewrite !app_nil_r.
    + simpl. by rewrite last_snoc.
  - intros Hblocks Hfuel. unfold defer. unfold_M. simpl. rewrite Hle. simpl.
    rewrite Hpuller, Hnext.
    match goal with
    | |- context [catchUpLoop fuel puller ?l ?n ?c1] =>
        destruct (catchUpLoop_returns puller l Hmax fuel n c1) as [c' ->]
    end.
    + intros seq Hge Hle'. apply Hblocks. unfold missing, seq_range.
      apply list_elem_of_fmap. exists (N.to_nat (seq - (Number (Header (lastBlock c)) + 1))).
      split; [lia|]. apply elem_of_seq. lia.
    + unfold missing in Hfuel. rewrite seq_range_length in Hfuel. lia.
    + by eauto.
Qed.

End CatchUpTheorem.

(** Raft commits block 5 on the chain whose last block is 4: the ledger
    gets block 5. *)
Lemma apply_appends_consecutive_witness :
  ∃ c' blocks,
    apply (H := Examples.codec) true [MoreExamples.entry_block_5] Examples.chain_at_4
    = Ret (tt, c')
    ∧ ledger_blocks c' = ledger_blocks Examples.chain_at_4 ++ blocks
    ∧ consecutive 4 blocks
    ∧ lastBlock c' = from_option id (Examples.block 4 ["tx"]) (last blocks).
Proof.
  eexists. 
  edestruct (apply_appends_consecutive (H := Examples.codec) true [MoreExamples.entry_block_5]
               Examples.chain_at_4) as (blocks & Hledger & Hnumbers & Hlast & _).
  - vm_compute. reflexivity.
  - exists blocks. split; [reflexivity|]. split; [exact Hledger|].
    split; [exact Hnumbers | exact Hlast].
Defined.

(** Block 1, committed at index 3, comes again on the chain that has
    applied index 7. *)
Lemma apply_replay_witness :
  apply (H := Examples.codec) true [MoreExamples.entry_block_1] Examples.chain_at_4
  = Ret (tt, Examples.chain_at_4).
Proof.
  apply (apply_replay (H := Examples.codec) true [MoreExamples.entry_block_1]
           Examples.chain_at_4).
  - vm_compute. reflexivity.
  - constructor; [|constructor]. split; [reflexivity|]. vm_compute. discriminate.
Defined.

(** The chain whose last block is 4 catches up with a snapshot of block 5:
    it pulls block 5 and writes it. *)
Lemma catchUp_ledger_witness :
  ∃ c',
    catchUp (H := Examples.codec) 10
      (SnapshotOfData (Examples.marshal (Examples.block 5 ["tx"]))) Examples.chain_at_4
    = Ret (None, c').
Proof.
  edestruct (catchUp_ledger (H := Examples.codec) 10
               (SnapshotOfData (Examples.marshal (Examples.block 5 ["tx"])))
               (Examples.block 5 ["tx"]) MoreExamples.tx_puller Examples.chain_at_4)
    as [_ Hreturns].
  - vm_compute. reflexivity.
  - vm_compute. reflexivity.
  - vm_compute. reflexivity.
  - reflexivity.
  - apply Hreturns.
    + intros seq _. eexists. split; [reflexivity|]. reflexivity.
    + vm_compute. lia.
Defined.

(** ** Invariants of the main loop *)

Section Relations.

Context `{Codec}.

#[global] Instance quiet_preorder : PreOrder quiet.
Proof.
  split; [done|]. unfold quiet.
  intros c1 c2 c3 (? & ? & ? & ? & ?) (? & ? & ? & ? & ?). repeat split; congruence.
Qed.

#[global] Instance calls_since_preorder Q : PreOrder (calls_since Q).
Proof.
  split.
  - intros c. exists []. by rewrite app_nil_r.
  - intros c1 c2 c3 (es1 & H1 & Hq1) (es2 & H2 & Hq2). exists (es1 ++ es2).
    split; [by rewrite H2, H1, app_assoc | by apply Forall_app].
Qed.

#[global] Instance progress_preorder self halts : PreOrder (progress self halts).
Proof.
  split.
  - intros c Hself. repeat split; try done.
  - intros c1 c2 c3 H12 H23 Hself.
    destruct (H12 Hself) as (Hself2 & Hidx & Hbi & Hcalls).
    destruct (H23 Hself2) as (Hself3 & Hidx' & Hbi' & Hcalls').
    split; [done|]. split; [lia|]. split; [by auto|]. by etransitivity.
Qed.

Lemma progress_mono self (halts halts' : Prop) c c' :
  (halts → halts') → progress self halts c c' → progress self halts' c c'.
Proof.
  intros Himpl Hp Hself. destruct (Hp Hself) as (? & ? & ? & es & ? & Hq).
  repeat split; try done. exists es. split; [done|].
  eapply Forall_impl; [done|]. simpl. by auto.
Qed.

Lemma steps_progress_mono {A} self (halts halts' : Prop) (m : M A) :
  (halts → halts') → steps (progress self halts) m → steps (progress self halts') m.
Proof. intros Himpl Hm c a c' Hc. eapply progress_mono; [done|]. by eapply Hm. Qed.

(** A method that starts by reading the chain. *)
Lemma steps_get_bind {A} (R : relation Chain) (k : Chain → M A) :
  (∀ c a c', k c c = Ret (a, c') → R c c') → steps R (get ≫= k).
Proof. intros Hk c a c'. unfold_M. apply Hk. Qed.

(** An update that keeps the raft id, the applied index, the number of
    blocks in flight and the trace. *)
Lemma progress_same self halts (c c' : Chain) :
  raftID c' = raftID c → appliedIndex c ≤ appliedIndex c' →
  ((0 ≤ blockInflight c)%Z → (0 ≤ blockInflight c')%Z) →
  (∃ es, trace c' = trace c ++ es ∧ Forall (fun e => e ≠ GoHalt) es) →
  progress self halts c c'.
Proof.
  intros Hid Hidx Hbi (es & Htr & Hes) Hself. split; [congruence|]. split; [done|].
  split; [done|]. exists es. split; [done|]. eapply Forall_impl; [done|]. simpl. done.
Qed.

End Relations.

(** An update of the chain that is progress, and one that is quiet. *)
Ltac progress_side :=
  apply progress_same;
  [ reflexivity
  | simpl; lia
  | simpl; lia
  | first [ exists []; split; [symmetry; apply app_nil_r | constructor]
          | eexists [_]; split; [reflexivity | constructor; [discriminate | constructor]] ] ].

Ltac quiet_side :=
  unfold quiet; repeat split; try reflexivity; rewrite ledger_emit; apply app_nil_r.

Section Progress.

Context `{Codec} `{BlockCreator}.
Variable self : N.

Lemma progress_detectConfChange block : steps (progress self False) (detectConfChange block).
Proof. unfold detectConfChange, newConfigMetadata. solve_steps progress_side. Qed.

Lemma progress_writeConfigBlock block index : steps (progress self False) (writeConfigBlock block index).
Proof.
  pose proof progress_detectConfChange. unfold writeConfigBlock. solve_steps progress_side.
Qed.

Lemma progress_writeBlock block index : steps (progress self False) (writeBlock block index).
Proof.
  pose proof progress_writeConfigBlock as Hconfig. unfold writeBlock.
  apply steps_get_bind. intros c a c'.
  destruct (_ <? Number (Header block)); [done|].
  destruct (Number (Header block) <? _); [by intros [= <- <-]|].
  set (rest := (modify (set_lastBlock block);; _)).
  assert (steps (progress self False) rest) as Hrest by (unfold rest; solve_steps progress_side).
  unfold mbind at 1. unfold M_bind at 1.
  destruct (bool_decide (0 < blockInflight c)%Z) eqn:Hpos; simpl.
  - apply bool_decide_eq_true in Hpos. intros Hrun. apply Hrest in Hrun.
    etransitivity; [|exact Hrun]. progress_side.
  - intros Hrun. by apply Hrest in Hrun.
Qed.

Lemma progress_catchUpLoop fuel puller upto next :
  steps (progress self False) (catchUpLoop fuel puller upto next).
Proof.
  pose proof progress_detectConfChange.
  revert next. induction fuel as [|fuel IH]; intros next; simpl; solve_steps progress_side.
Qed.

Lemma progress_catchUp fuel snap : steps (progress self False) (catchUp fuel snap).
Proof. pose proof progress_catchUpLoop. unfold catchUp. solve_steps progress_side. Qed.

Lemma progress_onSnapshot fuel sn s : steps (progress self False) (onSnapshot fuel sn s).
Proof.
  pose proof progress_catchUp as Hcatch. unfold onSnapshot.
  apply steps_get_bind. intros c a c'.
  set (rest := fun proceed : bool => if proceed then _ else mret s).
  assert (∀ proceed, steps (progress self False) (rest proceed)) as Hrest
    by (intros proceed; unfold rest; solve_steps progress_side).
  unfold mbind at 1. unfold M_bind at 1.
  destruct (negb (Index (Snap_Metadata sn) =? 0)); [|apply Hrest].
  destruct (Index (Snap_Metadata sn) <=? appliedIndex c) eqn:Hle; [apply Hrest|].
  apply N.leb_gt in Hle. intros Hrun.
  assert (rest true (set_appliedIndex (Index (Snap_Metadata sn))
                       (set_confState (SM_ConfState (Snap_Metadata sn)) c))
          = Ret (a, c')) as Hrun' by exact Hrun.
  apply Hrest in Hrun'. etransitivity; [|exact Hrun']. progress_side.
Qed.

Lemma progress_checkConsentersSet configValue : steps (progress self False) (checkConsentersSet configValue).
Proof. unfold checkConsentersSet. solve_steps progress_side. Qed.

Lemma progress_checkConfigUpdateValidity ctx : steps (progress self False) (checkConfigUpdateValidity ctx).
Proof.
  pose proof progress_checkConsentersSet. unfold checkConfigUpdateValidity.
  solve_steps progress_side.
Qed.

Lemma progress_ordered msg : steps (progress self False) (ordered msg).
Proof.
  pose proof progress_checkConfigUpdateValidity. unfold ordered, isConfig.
  solve_steps progress_side.
Qed.

Lemma progress_propose room ch creator batches : steps (progress self False) (propose room ch creator batches).
Proof.
  revert room creator. induction batches as [|batch batches IH]; intros room creator; simpl;
    solve_steps progress_side.
Qed.

Lemma progress_onSubmit room msg s : steps (progress self False) (onSubmit room msg s).
Proof.
  pose proof progress_ordered. pose proof progress_propose. unfold onSubmit.
  solve_steps progress_side.
Qed.

Lemma progress_onTimer room s : steps (progress self False) (onTimer room s).
Proof. pose proof progress_propose. unfold onTimer. solve_steps progress_side. Qed.

Lemma progress_onDone s : steps (progress self False) (onDone s).
Proof. unfold onDone, close_errorC. solve_steps progress_side. Qed.

Lemma progress_detectMigration : steps (progress self False) detectMigration.
Proof. unfold detectMigration. solve_steps progress_side. Qed.

Lemma progress_getInFlightConfChange : steps (progress self False) getInFlightConfChange.
Proof.
  pose proof progress_detectMigration. unfold getInFlightConfChange.
  solve_steps progress_side.
Qed.

Lemma progress_becomeLeader s : steps (progress self False) (becomeLeader s).
Proof.
  pose proof progress_getInFlightConfChange. unfold becomeLeader. solve_steps progress_side.
Qed.

Lemma progress_becomeFollower s : steps (progress self False) (becomeFollower s).
Proof. unfold becomeFollower. solve_steps progress_side. Qed.

Lemma progress_onSoftState newSoft s : steps (progress self False) (onSoftState newSoft s).
Proof.
  pose proof progress_becomeLeader. pose proof progress_becomeFollower.
  unfold onSoftState, make_errorC, close_errorC. solve_steps progress_side.
Qed.

Lemma progress_applyEntry i ent appliedb position :
  steps (progress self (removes self ent)) (applyEntry i ent appliedb position).
Proof.
  pose proof (progress_writeBlock) as Hwrite.
  unfold applyEntry. destruct (E_Type ent) eqn:Hty.
  - apply (steps_progress_mono self False); [by intros []|]. solve_steps progress_side.
  - destruct (UnmarshalConfChange (E_Data ent)) as [cc|] eqn:Hcc; [|apply steps_ret; apply _].
    apply steps_bind; [apply _ | apply steps_get; apply _ |]. intros c0.
    apply steps_bind; [apply _ | solve_steps progress_side |]. intros _.
    apply steps_bind; [apply _ | solve_steps progress_side |]. intros _.
    apply steps_bind; [apply _ | solve_steps progress_side |]. intros _.
    apply steps_get_bind. intros c1 a c' Hrun. cbv beta in Hrun. unfold progress. intros Hself.
    match type of Hrun with
    | ?m c1 = _ => assert (steps (progress self (removes self ent)) m) as Hs
    end; [|exact (Hs c1 a c' Hrun Hself)].
    destruct (bool_decide (Type_ cc = ConfChangeRemoveNode)) eqn:Hremove; simpl.
    + destruct (bool_decide (NodeID cc = raftID c1)) eqn:Hid; simpl.
      * apply bool_decide_eq_true in Hremove, Hid.
        assert (removes self ent) as Hhalts.
        { split; [done|]. rewrite Hcc. destruct cc; simpl in *. congruence. }
        solve_steps ltac:(first
          [ progress_side
          | intros ?; split; [done|]; split; [simpl; lia|]; split; [done|];
            exists [GoHalt]; split; [reflexivity|];
            constructor; [intros _; exact Hhalts | constructor] ]).
      * apply (steps_progress_mono self False); [by intros []|]. solve_steps progress_side.
    + apply (steps_progress_mono self False); [by intros []|]. solve_steps progress_side.
Qed.

Lemma progress_applyLoop ents i appliedb position :
  steps (progress self (∃ ent, ent ∈ ents ∧ removes self ent))
    (applyLoop i ents appliedb position).
Proof.
  revert i appliedb position. induction ents as [|ent ents IH]; intros i appliedb position; simpl.
  - apply steps_ret. apply _.
  - apply steps_bind; [apply _ | |].
    + eapply steps_progress_mono; [|apply progress_applyEntry].
      intros Hent. exists ent. split; [by left | done].
    + intros [[appliedb' position'] flow]. apply steps_bind; [apply _ | |].
      * destruct flow; [|apply steps_ret; apply _].
        apply steps_get_bind. intros c a c'. unfold when.
        destruct (appliedIndex c <? E_Index ent) eqn:Hlt; [|by intros [= <- <-]].
        apply N.ltb_lt in Hlt. unfold_M. intros [= <- <-].
        apply (progress_mono self False); [by intros []|]. progress_side.
      * intros _. eapply steps_progress_mono; [|apply IH].
        intros (ent' & Hin & Hent). exists ent'. split; [by right | done].
Qed.

Lemma progress_apply gcReady ents :
  steps (progress self (∃ ent, ent ∈ ents ∧ removes self ent)) (apply gcReady ents).
Proof.
  pose proof (progress_applyLoop ents). unfold apply.
  solve_steps ltac:(apply (progress_mono self False); [by intros []|]; progress_side).
Qed.

(** The entries of an event of the main loop. *)
Lemma progress_onApply gcReady lastIndex app s :
  steps (progress self (∃ ent, ent ∈ entries app ∧ removes self ent))
    (onApply gcReady lastIndex app s).
Proof.
  pose proof (progress_apply gcReady (entries app)).
  assert (∀ newSoft s,
            steps (progress self (∃ ent, ent ∈ entries app ∧ removes self ent))
              (onSoftState newSoft s)) as Hsoft.
  { intros newSoft s0. apply (steps_progress_mono self False); [by intros []|].
    apply progress_onSoftState. }
  unfold onApply.
  solve_steps ltac:(apply (progress_mono self False); [by intros []|]; progress_side).
Qed.

Lemma progress_serveRequest_arm fuel ev s :
  steps (progress self
           (∃ gcReady lastIndex app ent,
              ev = EvApply gcReady lastIndex app ∧ ent ∈ entries app ∧ removes self ent))
    (serveRequest_arm fuel ev s).
Proof.
  destruct ev as [room msg|gcReady lastIndex app|room|sn|]; simpl.
  - apply (steps_progress_mono self False); [by intros []|]. apply progress_onSubmit.
  - eapply steps_progress_mono; [|apply progress_onApply].
    intros (ent & Hin & Hent). by exists gcReady, lastIndex, app, ent.
  - apply (steps_progress_mono self False); [by intros []|]. apply progress_onTimer.
  - apply (steps_progress_mono self False); [by intros []|]. apply progress_onSnapshot.
  - apply (steps_progress_mono self False); [by intros []|]. apply progress_onDone.
Qed.

End Progress.

Section Quiet.

Context `{Codec} `{BlockCreator}.

Lemma quiet_checkConsentersSet configValue : steps quiet (checkConsentersSet configValue).
Proof. unfold checkConsentersSet. solve_steps quiet_side. Qed.

Lemma quiet_checkConfigUpdateValidity ctx : steps quiet (checkConfigUpdateValidity ctx).
Proof.
  pose proof quiet_checkConsentersSet. unfold checkConfigUpdateValidity. solve_steps quiet_side.
Qed.

Lemma quiet_ordered msg : steps quiet (ordered msg).
Proof.
  pose proof quiet_checkConfigUpdateValidity. unfold ordered, isConfig. solve_steps quiet_side.
Qed.

Lemma quiet_propose room ch creator batches : steps quiet (propose room ch creator batches).
Proof.
  revert room creator. induction batches as [|batch batches IH]; intros room creator; simpl;
    solve_steps quiet_side.
Qed.

Lemma quiet_onSubmit room msg s : steps quiet (onSubmit room msg s).
Proof.
  pose proof quiet_ordered. pose proof quiet_propose. unfold onSubmit. solve_steps quiet_side.
Qed.

Lemma quiet_onTimer room s : steps quiet (onTimer room s).
Proof. pose proof quiet_propose. unfold onTimer. solve_steps quiet_side. Qed.

Lemma quiet_onDone s : steps quiet (onDone s).
Proof. unfold onDone, close_errorC. solve_steps quiet_side. Qed.

(** X23.  In the main loop the applied index never decreases, whatever
    the arm and the event; the raft id of the node never changes. *)
Theorem serveRequest_appliedIndex_monotone fuel (ev : event) (s s' : serveState) (c c' : Chain) :
  serveRequest_arm fuel ev s c = Ret (s', c') →
  appliedIndex c ≤ appliedIndex c' ∧ raftID c' = raftID c.
Proof.
  intros Harm. apply (progress_serveRequest_arm (raftID c)) in Harm.
  destruct Harm as (? & ? & _); done.
Qed.

(** X24.  The number of blocks in flight never becomes negative in the
    main loop: a leader counts a block when it proposes it, a block that
    is written is counted off only while the number is positive, and a
    change of leader sets the number to zero. *)
Theorem serveRequest_blockInflight_nonneg fuel (ev : event) (s s' : serveState)
    (c c' : Chain) :
  (0 ≤ blockInflight c)%Z →
  serveRequest_arm fuel ev s c = Ret (s', c') →
  (0 ≤ blockInflight c')%Z.
Proof.
  intros Hbi Harm. apply (progress_serveRequest_arm (raftID c)) in Harm.
  destruct Harm as (_ & _ & Hnonneg & _); auto.
Qed.

(** X25.  The main loop tells the chain to halt only when it applies the
    removal of its own node: an arm only adds calls to those made before,
    and the call to halt is among those it adds only if the event is a
    batch of committed entries one of which is a configuration change
    that removes the node with the raft id of this chain. *)
Theorem serveRequest_halts_only_when_removed fuel (ev : event) (s s' : serveState)
    (c c' : Chain) :
  serveRequest_arm fuel ev s c = Ret (s', c') →
  ∃ calls,
    trace c' = trace c ++ calls
    ∧ (GoHalt ∈ calls →
       ∃ gcReady lastIndex app ent,
         ev = EvApply gcReady lastIndex app ∧ ent ∈ entries app ∧ removes (raftID c) ent).
Proof.
  intros Harm. apply (progress_serveRequest_arm (raftID c)) in Harm.
  destruct Harm as (_ & _ & _ & calls & Htrace & Hcalls); [done|].
  exists calls. split; [done|]. intros Hin.
  eapply Forall_forall in Hcalls; [|exact Hin]. by apply Hcalls.
Qed.

(** X26.  Ordering does not touch the ledger: the arms of the main loop
    that take a submission, the batch timer or the halt leave the ledger,
    the last block, the applied index, the block metadata and the
    configuration state of Raft as they are.  Blocks reach the ledger
    only through the entries Raft commits and through catching up. *)
Theorem serveRequest_ordering_quiet fuel (ev : event) (s s' : serveState) (c c' : Chain) :
  (∀ gcReady lastIndex app, ev ≠ EvApply gcReady lastIndex app) →
  (∀ sn, ev ≠ EvSnapshot sn) →
  serveRequest_arm fuel ev s c = Ret (s', c') →
  ledger c' = ledger c ∧ lastBlock c' = lastBlock c ∧ appliedIndex c' = appliedIndex c
  ∧ opts_BlockMetadata c' = opts_BlockMetadata c ∧ confState c' = confState c.
Proof.
  intros Happ Hsnap. destruct ev as [room msg|gcReady lastIndex app|room|sn|]; simpl.
  - apply quiet_onSubmit.
  - by destruct (Happ gcReady lastIndex app).
  - apply quiet_onTimer.
  - by destruct (Hsnap sn).
  - apply quiet_onDone.
Qed.

End Quiet.

(** Raft commits block 5 at index 8 on the chain that has applied index 7. *)
Lemma serveRequest_appliedIndex_monotone_witness :
  ∃ s' c',
    serveRequest_arm (H := Examples.codec) (H0 := Examples.block_creator) 10
      (EvApply true 8 MoreExamples.batch_block_5) serveState_init Examples.chain_at_4
    = Ret (s', c')
    ∧ appliedIndex Examples.chain_at_4 ≤ appliedIndex c'
    ∧ raftID c' = 1.
Proof.
  eexists _, _. split; [vm_compute; reflexivity|].
  eapply (serveRequest_appliedIndex_monotone (H := Examples.codec) (H0 := Examples.block_creator)
            10 (EvApply true 8 MoreExamples.batch_block_5) serveState_init _ Examples.chain_at_4 _).
  vm_compute. reflexivity.
Defined.

(** The same batch on a chain with no block in flight. *)
Lemma serveRequest_blockInflight_nonneg_witness :
  ∃ s' c',
    serveRequest_arm (H := Examples.codec) (H0 := Examples.block_creator) 10
      (EvApply true 8 MoreExamples.batch_block_5) serveState_init Examples.chain_at_4
    = Ret (s', c')
    ∧ (0 ≤ blockInflight c')%Z.
Proof.
  eexists _, _. split; [vm_compute; reflexivity|].
  eapply (serveRequest_blockInflight_nonneg (H := Examples.codec) (H0 := Examples.block_creator)
            10 (EvApply true 8 MoreExamples.batch_block_5) serveState_init _ Examples.chain_at_4 _).
  - vm_compute. discriminate.
  - vm_compute. reflexivity.
Defined.

(** The same batch removes no node, and the chain is not told to halt. *)
Lemma serveRequest_halts_only_when_removed_witness :
  ∃ s' c' calls,
    serveRequest_arm (H := Examples.codec) (H0 := Examples.block_creator) 10
      (EvApply true 8 MoreExamples.batch_block_5) serveState_init Examples.chain_at_4
    = Ret (s', c')
    ∧ trace c' = trace Examples.chain_at_4 ++ calls
    ∧ (GoHalt ∈ calls →
       ∃ gcReady lastIndex app ent,
         EvApply true 8 MoreExamples.batch_block_5 = EvApply gcReady lastIndex app
         ∧ ent ∈ entries app ∧ removes (H := Examples.codec) 1 ent).
Proof.
  assert (∃ s' c',
            serveRequest_arm (H := Examples.codec) (H0 := Examples.block_creator) 10
              (EvApply true 8 MoreExamples.batch_block_5) serveState_init Examples.chain_at_4
            = Ret (s', c')) as (s' & c' & Harm)
    by (eexists _, _; vm_compute; reflexivity).
  exists s', c'.
  destruct (serveRequest_halts_only_when_removed
              (H := Examples.codec) (H0 := Examples.block_creator)
              10 (EvApply true 8 MoreExamples.batch_block_5) serveState_init s'
              Examples.chain_at_4 c' Harm) as (calls & Htrace & Hhalt).
  exists calls. split; [exact Harm|]. split; [exact Htrace | exact Hhalt].
Defined.

(** The batch timer fires on a follower with nothing to cut. *)
Lemma serveRequest_ordering_quiet_witness :
  ∃ s' c',
    serveRequest_arm (H := Examples.codec) (H0 := Examples.block_creator) 10
      (EvTimer 1) serveState_init Examples.chain_at_4
    = Ret (s', c')
    ∧ ledger c' = ledger Examples.chain_at_4
    ∧ lastBlock c' = lastBlock Examples.chain_at_4.
Proof.
  assert (∃ s' c',
            serveRequest_arm (H := Examples.codec) (H0 := Examples.block_creator) 10
              (EvTimer 1) serveState_init Examples.chain_at_4
            = Ret (s', c')) as (s' & c' & Harm)
    by (eexists _, _; vm_compute; reflexivity).
  exists s', c'.
  destruct (serveRequest_ordering_quiet (H := Examples.codec) (H0 := Examples.block_creator)
              10 (EvTimer 1) serveState_init s' Examples.chain_at_4 c') as (Hledger & Hlast & _).
  - intros gcReady lastIndex app. discriminate.
  - intros sn. discriminate.
  - exact Harm.
  - split; [exact Harm|]. split; [exact Hledger | exact Hlast].
Defined.

(** ** The leader the chain knows *)

Section KnownLeader.

Context `{Codec} `{BlockCreator}.

Lemma view_detectConfChange block : preserves eviction_view (detectConfChange block).
Proof. unfold detectConfChange, newConfigMetadata. solve_preserves. Qed.

Lemma view_writeConfigBlock block index : preserves eviction_view (writeConfigBlock block index).
Proof. pose proof view_detectConfChange. unfold writeConfigBlock. solve_preserves. Qed.

Lemma view_writeBlock block index : preserves eviction_view (writeBlock block index).
Proof. pose proof view_writeConfigBlock. unfold writeBlock. solve_preserves. Qed.

Lemma view_applyEntry i ent appliedb position :
  preserves eviction_view (applyEntry i ent appliedb position).
Proof. pose proof view_writeBlock. unfold applyEntry. solve_preserves. Qed.

Lemma view_applyLoop ents i appliedb position :
  preserves eviction_view (applyLoop i ents appliedb position).
Proof.
  pose proof view_applyEntry.
  revert i appliedb position. induction ents as [|ent ents IH]; intros i appliedb position; simpl;
    solve_preserves.
Qed.

Lemma view_apply gcReady ents : preserves eviction_view (apply gcReady ents).
Proof. pose proof view_applyLoop. unfold apply. solve_preserves. Qed.

Lemma view_catchUpLoop fuel puller upto next :
  preserves eviction_view (catchUpLoop fuel puller upto next).
Proof.
  pose proof view_detectConfChange.
  revert next. induction fuel as [|fuel IH]; intros next; simpl; solve_preserves.
Qed.

Lemma view_catchUp fuel snap : preserves eviction_view (catchUp fuel snap).
Proof. pose proof view_catchUpLoop. unfold catchUp. solve_preserves. Qed.

Lemma view_onSnapshot fuel sn s : preserves eviction_view (onSnapshot fuel sn s).
Proof. pose proof view_catchUp. unfold onSnapshot. solve_preserves. Qed.

Lemma view_checkConsentersSet configValue : preserves eviction_view (checkConsentersSet configValue).
Proof. unfold checkConsentersSet. solve_preserves. Qed.

Lemma view_checkConfigUpdateValidity ctx : preserves eviction_view (checkConfigUpdateValidity ctx).
Proof.
  pose proof view_checkConsentersSet. unfold checkConfigUpdateValidity. solve_preserves.
Qed.

Lemma view_ordered msg : preserves eviction_view (ordered msg).
Proof. pose proof view_checkConfigUpdateValidity. unfold ordered, isConfig. solve_preserves. Qed.

Lemma view_propose room ch creator batches : preserves eviction_view (propose room ch creator batches).
Proof.
  revert room creator. induction batches as [|batch batches IH]; intros room creator; simpl;
    solve_preserves.
Qed.

Lemma view_onSubmit room msg s : preserves eviction_view (onSubmit room msg s).
Proof. pose proof view_ordered. pose proof view_propose. unfold onSubmit. solve_preserves. Qed.

Lemma view_onTimer room s : preserves eviction_view (onTimer room s).
Proof. pose proof view_propose. unfold onTimer. solve_preserves. Qed.

Lemma view_onDone s : preserves eviction_view (onDone s).
Proof. unfold onDone, close_errorC. solve_preserves. Qed.

Lemma view_errorC : preserves eviction_view make_errorC ∧ preserves eviction_view close_errorC.
Proof. split; unfold make_errorC, close_errorC; solve_preserves. Qed.

(** The handling of a new soft state leaves the leader [leader_after]
    tells as the one the chain knows. *)
Lemma onSoftState_leader newSoft s c s' c' :
  onSoftState newSoft s c = Ret (s', c') →
  lastKnownLeader c' = leader_after (soft s) newSoft (lastKnownLeader c)
  ∧ running_view c' = running_view c.
Proof.
  unfold onSoftState, leader_after.
  pose proof (preserves_becomeLeader eviction_view) as HL.
  pose proof (preserves_becomeFollower eviction_view) as HF.
  destruct view_errorC as [Hmake Hclose].
  (* the change of leader *)
  match goal with
  | |- (?lc ≫= ?k) c = _ → _ =>
      assert (∀ s1 c1, lc c = Ret (s1, c1) →
                       lastKnownLeader c1
                       = (if decide (Lead newSoft = Lead (soft s)) then lastKnownLeader c
                          else Lead newSoft)
                       ∧ running_view c1 = running_view c) as Hlc;
        [|generalize dependent lc; intros leaderChange Hlc]
  end.
  { intros s1 c1. destruct (decide (Lead newSoft = Lead (soft s))) as [Heq|Hne].
    - rewrite bool_decide_eq_false_2 by (intros Hne; by apply Hne). by intros [= <- <-].
    - rewrite bool_decide_eq_true_2 by done.
      unfold mbind at 1. unfold M_bind at 1. unfold modify at 1. cbv beta iota.
      intros Hrest.
      assert (eviction_view c1 = eviction_view (set_lastKnownLeader (Lead newSoft) c)) as Hview.
      { revert Hrest. apply (preserves_bind eviction_view); [apply preserves_get|intros c0].
        apply preserves_bind; [|intros s2].
        - destruct (bool_decide (Lead newSoft = raftID c0)); [by apply HL|apply preserves_ret].
        - destruct (bool_decide (Lead (soft s) = raftID c0)); [by apply HF|apply preserves_ret]. }
      split; [exact (f_equal fst Hview) | exact (f_equal snd Hview)]. }
  unfold mbind at 1. unfold M_bind at 1.
  destruct (leaderChange c) as [[s1 c1]| |] eqn:Hc1; [|done|done].
  destruct (Hlc s1 c1 eq_refl) as [Hleader Hrunning].
  rewrite <- Hleader, <- Hrunning. clear Hlc Hleader Hrunning Hc1.
  (* the errored channel *)
  unfold mbind at 1. unfold M_bind at 1.
  match goal with
  | |- match ?m c1 with _ => _ end = _ → _ =>
      assert (preserves eviction_view m) as Hm by (by apply preserves_when);
      destruct (m c1) as [[[] c2]| |] eqn:Hc2; [|done|done]
  end.
  apply Hm in Hc2.
  assert (lastKnownLeader c2 = lastKnownLeader c1 ∧ running_view c2 = running_view c1)
    as [Hl2 Hr2] by (split; [exact (f_equal fst Hc2) | exact (f_equal snd Hc2)]).
  rewrite <- Hl2, <- Hr2. clear Hm Hc2 Hl2 Hr2.
  rewrite leaderless_bool.
  unfold mbind at 1. unfold M_bind at 1.
  destruct (decide (leaderless newSoft)) as [Hless|Hless].
  - rewrite bool_decide_eq_true_2 by done. unfold when.
    unfold mbind at 1. unfold M_bind at 1. unfold modify at 1. cbv beta iota.
    match goal with
    | |- match ?m ?c3 with _ => _ end = _ → _ =>
        assert (preserves eviction_view m) as Hm
          by (apply preserves_bind; [apply preserves_get|intros c0];
              destruct (errorC_closed c0); [apply preserves_ret|];
              destruct (bool_decide _); [done|apply preserves_ret]);
        destruct (m c3) as [[[] c4]| |] eqn:Hc4; [|done|done]
    end.
    apply Hm in Hc4.
    assert (lastKnownLeader c4 = raft_None ∧ running_view c4 = running_view c2)
      as [Hl4 Hr4] by (split; [exact (f_equal fst Hc4) | exact (f_equal snd Hc4)]).
    unfold_M. intros [= <- <-]. by split.
  - rewrite bool_decide_eq_false_2 by done. unfold_M. by intros [= <- <-].
Qed.

(** X27.  The leader the chain knows follows the soft states of Raft.
    Only a batch from Raft that carries a soft state changes it: to none
    when the state is that of a candidate or names no leader, to the
    leader of the state when that is another one than the loop knew
    before, and not at all otherwise.  No arm of the main loop changes
    what [isRunning] answers, so that after an arm a running chain
    suspects its eviction exactly when it knows no leader. *)
Theorem serveRequest_known_leader fuel (ev : event) (s s' : serveState) (c c' : Chain) :
  serveRequest_arm fuel ev s c = Ret (s', c') →
  lastKnownLeader c'
  = match ev with
    | EvApply _ _ {| app_soft := Some newSoft |} =>
        leader_after (soft s) newSoft (lastKnownLeader c)
    | _ => lastKnownLeader c
    end
  ∧ isRunning c' = isRunning c
  ∧ (suspectEviction c' = true ↔ isRunning c = None ∧ lastKnownLeader c' = raft_None).
Proof.
  intros Harm.
  assert (lastKnownLeader c'
          = match ev with
            | EvApply _ _ {| app_soft := Some newSoft |} =>
                leader_after (soft s) newSoft (lastKnownLeader c)
            | _ => lastKnownLeader c
            end
          ∧ running_view c' = running_view c) as [Hleader Hrunning].
  { assert (∀ {A} (m : M A) (a : A),
              preserves eviction_view m → m c = Ret (a, c') →
              lastKnownLeader c' = lastKnownLeader c ∧ running_view c' = running_view c)
      as Hsame.
    { intros A m a Hm Hc. apply Hm in Hc.
      split; [exact (f_equal fst Hc) | exact (f_equal snd Hc)]. }
    destruct ev as [room msg|gcReady lastIndex app|room|sn|]; simpl in Harm.
    - by eapply Hsame; [apply view_onSubmit|].
    - revert Harm. unfold onApply. unfold mbind at 1. unfold M_bind at 1.
      match goal with
      | |- match ?m c with _ => _ end = _ → _ =>
          destruct (m c) as [[s1 c1]| |] eqn:Hsoft; [|done|done]
      end.
      intros Hrest.
      assert (eviction_view c' = eviction_view c1) as Hview.
      { revert Hrest. apply (preserves_bind eviction_view); [apply view_apply|intros _].
        solve_preserves. }
      assert (lastKnownLeader c' = lastKnownLeader c1 ∧ running_view c' = running_view c1)
        as [-> ->] by (split; [exact (f_equal fst Hview) | exact (f_equal snd Hview)]).
      destruct app as [ents [newSoft|]]; simpl in *.
      + by apply onSoftState_leader in Hsoft.
      + by injection Hsoft as <- <-.
    - by eapply Hsame; [apply view_onTimer|].
    - by eapply Hsame; [apply view_onSnapshot|].
    - by eapply Hsame; [apply view_onDone|]. }
  split; [done|].
  assert (isRunning c' = isRunning c) as Hrun.
  { unfold isRunning. unfold running_view in Hrunning. by injection Hrunning as -> ->. }
  split; [done|]. unfold suspectEviction. rewrite Hrun.
  destruct (isRunning c) as [err|].
  - rewrite bool_decide_eq_true_2 by done. split; [done | by intros [? _]].
  - rewrite bool_decide_eq_false_2 by (intros Hne; by apply Hne).
    rewrite bool_decide_eq_true. unfold raft_None. tauto.
Qed.

End KnownLeader.

(** A batch from Raft tells the chain, which knew no leader, that node 2
    leads. *)
Lemma serveRequest_known_leader_witness :
  ∃ s' c',
    serveRequest_arm (H := Examples.codec) (H0 := Examples.block_creator) 10
      (EvApply true 8 MoreExamples.batch_block_5) serveState_init Examples.chain_at_4
    = Ret (s', c')
    ∧ lastKnownLeader c' = 2
    ∧ isRunning c' = isRunning Examples.chain_at_4.
Proof.
  assert (∃ s' c',
            serveRequest_arm (H := Examples.codec) (H0 := Examples.block_creator) 10
              (EvApply true 8 MoreExamples.batch_block_5) serveState_init Examples.chain_at_4
            = Ret (s', c')) as (s' & c' & Harm)
    by (eexists _, _; vm_compute; reflexivity).
  exists s', c'.
  destruct (serveRequest_known_leader (H := Examples.codec) (H0 := Examples.block_creator)
              10 (EvApply true 8 MoreExamples.batch_block_5) serveState_init s'
              Examples.chain_at_4 c' Harm) as (Hleader & Hrunning & _).
  split; [exact Harm|]. split; [exact Hleader | exact Hrunning].
Defined.

(** ** The node that is removed, and the leader that takes over *)

Section Removal.

Context `{Codec} `{BlockCreator}.

Lemma applyEntry_halts i ent appliedb position (c c' : Chain) r :
  removes (raftID c) ent →
  applyEntry i ent appliedb position c = Ret (r, c') →
  raftID c' = raftID c ∧ ∃ calls, trace c' = trace c ++ calls ∧ GoHalt ∈ calls.
Proof.
  intros [Hty Hcc]. unfold applyEntry. rewrite Hty, Hcc.
  unfold mbind at 1. unfold M_bind at 1. unfold get at 1. cbv beta iota.
  unfold mbind at 1. unfold M_bind at 1.
  change (emit (ApplyConfChange {| Type_ := ConfChangeRemoveNode; NodeID := raftID c |}) c)
    with (Ret (S := Chain) (tt, set_trace (trace c ++ [ApplyConfChange
                                            {| Type_ := ConfChangeRemoveNode;
                                               NodeID := raftID c |}]) c)).
  cbv beta iota.
  unfold mbind at 1. unfold M_bind at 1. unfold modify at 1. cbv beta iota.
  unfold mbind at 1. unfold M_bind at 1. cbn [Type_]. unfold mret at 1. unfold M_ret at 1.
  cbv beta iota.
  unfold mbind at 1. unfold M_bind at 1. unfold get at 1. cbv beta iota.
  unfold mbind at 1. unfold M_bind at 1.
  match goal with
  | |- match ?m ?c1 with _ => _ end = _ → _ =>
      assert (steps (progress (raftID c) False) m) as Hm;
        [|destruct (m c1) as [[[] c2]| |] eqn:Hc2; [|done|done]]
  end.
  { solve_steps progress_side. }
  apply Hm in Hc2. destruct Hc2 as (Hid & _ & _ & calls & Htrace & _); [done|].
  simpl in Htrace. cbn [NodeID Type_].
  rewrite !bool_decide_eq_true_2 by done. unfold_M. simpl. intros [= <- <-]. simpl.
  split; [done|]. rewrite Htrace, <- !app_assoc. eexists. split; [done|].
  rewrite !elem_of_app. right. right. by left.
Qed.

Lemma progress_trace {A} (m : M A) (halts : Prop) (c c' : Chain) (a : A) :
  steps (progress (raftID c) halts) m → m c = Ret (a, c') →
  raftID c' = raftID c ∧ ∃ calls, trace c' = trace c ++ calls.
Proof.
  intros Hm Hc. apply Hm in Hc. destruct Hc as (Hid & _ & _ & calls & Htrace & _); [done|].
  by eauto.
Qed.

Lemma applyLoop_halts ents i appliedb position (c c' : Chain) r ent :
  ent ∈ ents → removes (raftID c) ent →
  applyLoop i ents appliedb position c = Ret (r, c') →
  ∃ calls, trace c' = trace c ++ calls ∧ GoHalt ∈ calls.
Proof.
  revert i appliedb position c. induction ents as [|ent' ents IH];
    intros i appliedb position c Hin Hremoves; [by apply elem_of_nil in Hin|].
  cbn [applyLoop]. unfold mbind at 1. unfold M_bind at 1.
  destruct (applyEntry i ent' appliedb position c) as [[[[appliedb' position'] flow] c1]| |]
    eqn:Hentry; [|done|done].
  unfold mbind at 1. unfold M_bind at 1.
  match goal with
  | |- match ?m c1 with _ => _ end = _ → _ =>
      assert (steps (progress (raftID c1) False) m) as Hm;
        [|destruct (m c1) as [[[] c2]| |] eqn:Hc2; [|done|done]]
  end.
  { destruct flow; [|apply steps_ret; apply _].
    apply steps_get_bind. intros c0 a c0'. unfold when.
    destruct (appliedIndex c0 <? E_Index ent') eqn:Hlt; [|by intros [= <- <-]].
    apply N.ltb_lt in Hlt. unfold_M. intros [= <- <-]. progress_side. }
  destruct (progress_trace _ _ _ _ _ Hm Hc2) as (Hid2 & calls2 & Htrace2).
  intros Hrest.
  apply elem_of_cons in Hin as [->|Hin].
  - destruct (applyEntry_halts _ _ _ _ _ _ _ Hremoves Hentry) as (Hid1 & calls1 & Htrace1 & Hhalt).
    destruct (progress_trace _ _ _ _ _
                (progress_applyLoop (raftID c2) ents (S i) appliedb' position') Hrest)
      as (_ & calls3 & Htrace3).
    exists (calls1 ++ calls2 ++ calls3). split.
    + by rewrite Htrace3, Htrace2, Htrace1, <- !app_assoc.
    + rewrite elem_of_app. by left.
  - destruct (progress_trace _ _ _ _ _
                (progress_applyEntry (raftID c) i ent' appliedb position) Hentry)
      as (Hid1 & calls1 & Htrace1).
    destruct (IH (S i) appliedb' position' c2 Hin) as (calls3 & Htrace3 & Hhalt).
    { by rewrite Hid2, Hid1. }
    { exact Hrest. }
    exists (calls1 ++ calls2 ++ calls3). split.
    + by rewrite Htrace3, Htrace2, Htrace1, <- !app_assoc.
    + rewrite !elem_of_app. by right; right.
Qed.

(** X28.  A node that applies its own removal halts: when [apply]
    returns from a batch one of whose entries is a configuration change
    that removes the node with the raft id of this chain, the chain has
    been told to halt. *)
Theorem apply_own_removal_halts (gcReady : bool) (ents : list Entry) (ent : Entry)
    (c c' : Chain) :
  ent ∈ ents → removes (raftID c) ent →
  apply gcReady ents c = Ret (tt, c') →
  ∃ calls, trace c' = trace c ++ calls ∧ GoHalt ∈ calls.
Proof.
  intros Hin Hremoves. unfold apply. destruct ents as [|first rest]; [by apply elem_of_nil in Hin|].
  unfold mbind at 1. unfold M_bind at 1. unfold get at 1. cbv beta iota.
  destruct (_ <? E_Index first); [done|].
  unfold mbind at 1. unfold M_bind at 1.
  destruct (applyLoop 0 (first :: rest) 0 0 c) as [[[appliedb position] c1]| |] eqn:Hloop;
    [|done|done].
  destruct (applyLoop_halts _ _ _ _ _ _ _ _ Hin Hremoves Hloop) as (calls1 & Htrace1 & Hhalt).
  match goal with
  | |- ?m c1 = _ → _ =>
      assert (steps (progress (raftID c1) False) m) as Hm by solve_steps progress_side
  end.
  intros Hrest. destruct (progress_trace _ _ _ _ _ Hm Hrest) as (_ & calls2 & Htrace2).
  exists (calls1 ++ calls2). split; [by rewrite Htrace2, Htrace1, app_assoc|].
  rewrite elem_of_app. by left.
Qed.

End Removal.

Section TakeOver.

Context `{Codec} `{BlockCreator}.

Lemma becomeLeader_bc s c s' c' : becomeLeader s c = Ret (s', c') → bc s' = bc s.
Proof.
  unfold becomeLeader. unfold_M. simpl.
  destruct (getInFlightConfChange _) as [[[cc|] c1]| |]; simpl; [| |done|done];
    by intros [= <- <-].
Qed.

Lemma becomeFollower_bc s c s' c' : becomeFollower s c = Ret (s', c') → bc s' = None.
Proof.
  unfold becomeFollower. unfold_M. simpl. destruct (cancelProp s); simpl; by intros [= <- <-].
Qed.

(** The handling of a soft state leaves the block creator or drops it. *)
Lemma onSoftState_bc newSoft s c s' c' :
  onSoftState newSoft s c = Ret (s', c') → bc s' = bc s ∨ bc s' = None.
Proof.
  unfold onSoftState. unfold mbind at 1. unfold M_bind at 1.
  match goal with
  | |- match ?lc c with _ => _ end = _ → _ =>
      assert (∀ s1 c1, lc c = Ret (s1, c1) → bc s1 = bc s ∨ bc s1 = None) as Hlc;
        [|destruct (lc c) as [[s1 c1]| |]; [|done|done]]
  end.
  { intros s1 c1. destruct (bool_decide (Lead newSoft ≠ Lead (soft s))); [|by intros [= <- <-]; left].
    unfold mbind at 1. unfold M_bind at 1. unfold modify at 1. cbv beta iota.
    unfold mbind at 1. unfold M_bind at 1. unfold get at 1. cbv beta iota.
    unfold mbind at 1. unfold M_bind at 1.
    match goal with
    | |- match (if ?b then _ else _) ?c0 with _ => _ end = _ → _ =>
        destruct b;
          [destruct (becomeLeader s c0) as [[s2 c2]| |] eqn:Hleader; [|done|done];
           apply becomeLeader_bc in Hleader
          |assert (bc s = bc s) as Hleader by done; unfold mret at 1; unfold M_ret at 1;
           cbv beta iota]
    end.
    - match goal with
      | |- (if ?b then _ else _) c2 = _ → _ =>
          destruct b; [intros ?%becomeFollower_bc; by right | intros [= <- <-]; by left]
      end.
    - match goal with
      | |- (if ?b then _ else _) _ = _ → _ =>
          destruct b; [intros ?%becomeFollower_bc; by right | intros [= <- <-]; by left]
      end. }
  destruct (Hlc s1 c1 eq_refl) as [Hbc|Hbc]; rewrite <- Hbc || idtac;
    unfold mbind, M_bind;
    repeat match goal with
           | |- match ?m ?c0 with _ => _ end = _ → _ =>
               destruct (m c0) as [[[] ?]| |]; [|done|done]
           end;
    unfold_M; intros [= <- <-]; simpl; auto.
Qed.

(** The flag [justElected] is left alone by the application of entries. *)
Lemma elected_detectConfChange block : preserves justElected (detectConfChange block).
Proof. unfold detectConfChange, newConfigMetadata. solve_preserves. Qed.

Lemma elected_writeConfigBlock block index : preserves justElected (writeConfigBlock block index).
Proof. pose proof elected_detectConfChange. unfold writeConfigBlock. solve_preserves. Qed.

Lemma elected_writeBlock block index : preserves justElected (writeBlock block index).
Proof. pose proof elected_writeConfigBlock. unfold writeBlock. solve_preserves. Qed.

Lemma elected_applyEntry i ent appliedb position :
  preserves justElected (applyEntry i ent appliedb position).
Proof. pose proof elected_writeBlock. unfold applyEntry. solve_preserves. Qed.

Lemma elected_applyLoop ents i appliedb position :
  preserves justElected (applyLoop i ents appliedb position).
Proof.
  pose proof elected_applyEntry.
  revert i appliedb position. induction ents as [|ent ents IH]; intros i appliedb position; simpl;
    solve_preserves.
Qed.

Lemma elected_apply gcReady ents : preserves justElected (apply gcReady ents).
Proof. pose proof elected_applyLoop. unfold apply. solve_preserves. Qed.

Lemma elected_becomeFollower s : preserves justElected (becomeFollower s).
Proof. unfold becomeFollower. solve_preserves. Qed.

(** The handling of a soft state leaves the flag alone unless the state
    names this node as the new leader; stepping down does not clear it. *)
Lemma onSoftState_justElected newSoft s c s' c' :
  onSoftState newSoft s c = Ret (s', c') →
  justElected c' = justElected c
  ∨ (Lead newSoft = raftID c ∧ Lead newSoft ≠ Lead (soft s)).
Proof.
  destruct (decide (Lead newSoft = raftID c ∧ Lead newSoft ≠ Lead (soft s))) as [?|Hnot];
    [by right|]. intros Hrun. left. revert Hrun.
  pose proof elected_becomeFollower as HF.
  unfold onSoftState. unfold mbind at 1. unfold M_bind at 1.
  match goal with
  | |- match ?lc c with _ => _ end = _ → _ =>
      assert (∀ s1 c1, lc c = Ret (s1, c1) → justElected c1 = justElected c) as Hlc;
        [|destruct (lc c) as [[s1 c1]| |]; [|done|done]]
  end.
  { intros s1 c1.
    destruct (decide (Lead newSoft = Lead (soft s))) as [Heq|Hne].
    - rewrite bool_decide_eq_false_2 by (intros Hne; by apply Hne). by intros [= <- <-].
    - rewrite bool_decide_eq_true_2 by done.
      unfold mbind at 1. unfold M_bind at 1. unfold modify at 1. cbv beta iota.
      unfold mbind at 1. unfold M_bind at 1. unfold get at 1. cbv beta iota.
      change (raftID (set_lastKnownLeader (Lead newSoft) c)) with (raftID c).
      rewrite (bool_decide_eq_false_2 (Lead newSoft = raftID c)) by (intros Hl; by apply Hnot).
      intros Hrest.
      change (justElected c) with (justElected (set_lastKnownLeader (Lead newSoft) c)).
      revert Hrest. apply (preserves_bind justElected); [apply preserves_ret|intros s2].
      destruct (bool_decide _); [by apply HF|apply preserves_ret]. }
  rewrite <- (Hlc s1 c1 eq_refl).
  match goal with
  | |- ?m c1 = _ → _ => assert (preserves justElected m) as Hm; [|by apply Hm]
  end.
  unfold make_errorC, close_errorC. solve_preserves.
Qed.

(** X29.  After the arm of the main loop for a batch from Raft, the
    block creator is the one the loop had, or is made anew from the last
    block of the chain: with its number and the hash of its header.  It
    is made anew only when the flag [justElected] is set at the end of the
    arm, every entry of the Raft log is applied and no config block or
    configuration change is in flight; the flag is cleared then and the
    loop accepts submissions again.  The flag is set only by the election
    of this node: it was set before the arm, or the batch carries a soft
    state that names this node as the new leader.  It is not cleared when
    the node steps down, so that the node need not be the leader any more
    when the creator is made. *)
Theorem onApply_block_creator fuel (gcReady : bool) (lastIndex : N) (app : applyMsg)
    (s s' : serveState) (c c' : Chain) (creator : blockCreator) :
  serveRequest_arm fuel (EvApply gcReady lastIndex app) s c = Ret (s', c') →
  bc s' = Some creator →
  bc s' = bc s
  ∨ (creator = {| bc_hash := HeaderHash (Header (lastBlock c'));
                  bc_number := Number (Header (lastBlock c')) |}
     ∧ lastIndex ≤ appliedIndex c'
     ∧ configInflight c' = false
     ∧ justElected c' = false
     ∧ submitC s' = true
     ∧ (justElected c = true
        ∨ ∃ newSoft,
            app_soft app = Some newSoft
            ∧ Lead newSoft = raftID c
            ∧ Lead newSoft ≠ Lead (soft s))).
Proof.
  simpl. unfold onApply. unfold mbind at 1. unfold M_bind at 1.
  match goal with
  | |- match ?m c with _ => _ end = _ → _ =>
      assert (∀ s1 c1, m c = Ret (s1, c1) →
                       (bc s1 = bc s ∨ bc s1 = None)
                       ∧ (justElected c1 = justElected c
                          ∨ ∃ newSoft,
                              app_soft app = Some newSoft
                              ∧ Lead newSoft = raftID c
                              ∧ Lead newSoft ≠ Lead (soft s))) as Hsoft;
        [|destruct (m c) as [[s1 c1]| |]; [|done|done]]
  end.
  { intros s1 c1. destruct (app_soft app) as [newSoft|].
    - intros Hrun. split; [by eapply onSoftState_bc|].
      apply onSoftState_justElected in Hrun as [?|?]; [by left|]. right. by exists newSoft.
    - intros [= <- <-]. split; by left. }
  destruct (Hsoft s1 c1 eq_refl) as [Hbc1 Hflag]. clear Hsoft.
  unfold mbind at 1. unfold M_bind at 1.
  destruct (apply gcReady (entries app) c1) as [[[] c2]| |] eqn:Happly; [|done|done].
  apply elected_apply in Happly.
  unfold mbind at 1. unfold M_bind at 1. unfold get at 1. cbv beta iota.
  destruct (justElected c2) eqn:Helected.
  - destruct (appliedIndex c2 <? lastIndex) eqn:Hinflight.
    { intros [= <- <-] Hbc. left. destruct Hbc1 as [->|Hnone]; [done|congruence]. }
    destruct (configInflight c2) eqn:Hconfig.
    { intros [= <- <-] Hbc. left. destruct Hbc1 as [->|Hnone]; [done|congruence]. }
    unfold_M. intros [= <- <-]. simpl. intros [= <-]. right.
    apply N.ltb_ge in Hinflight.
    split; [done|]. split; [done|]. split; [done|]. split; [done|]. split; [done|].
    destruct Hflag as [Hsame|?]; [left; congruence | by right].
  - destruct (configInflight c2).
    { intros [= <- <-] Hbc. left. simpl in *. destruct Hbc1 as [->|Hnone]; [done|congruence]. }
    destruct (bool_decide _);
      intros [= <- <-] Hbc; left; simpl in *; (destruct Hbc1 as [->|Hnone]; [done|congruence]).
Qed.

End TakeOver.

(** Node 1 applies its own removal. *)
Lemma apply_own_removal_halts_witness :
  ∃ c' calls,
    apply (H := MoreExamples.removal_codec) true [MoreExamples.entry_remove_1] Examples.chain_at_4
    = Ret (tt, c')
    ∧ trace c' = trace Examples.chain_at_4 ++ calls ∧ GoHalt ∈ calls.
Proof.
  assert (∃ c', apply (H := MoreExamples.removal_codec) true [MoreExamples.entry_remove_1]
                  Examples.chain_at_4 = Ret (tt, c')) as [c' Happly]
    by (eexists; vm_compute; reflexivity).
  exists c'.
  destruct (apply_own_removal_halts (H := MoreExamples.removal_codec) true
              [MoreExamples.entry_remove_1] MoreExamples.entry_remove_1
              Examples.chain_at_4 c') as (calls & Htrace & Hhalt).
  - left.
  - split; reflexivity.
  - exact Happly.
  - exists calls. split; [exact Happly|]. split; [exact Htrace | exact Hhalt].
Defined.

(** Node 1 was elected, has applied index 7, the last of the log, and a
    batch tells it that node 2 is the leader now: it steps down, and the
    arm still makes a block creator from block 4, as the flag was set. *)
Lemma onApply_block_creator_witness :
  ∃ s' c',
    serveRequest_arm (H := Examples.codec) (H0 := Examples.block_creator) 10
      (EvApply true 7 MoreExamples.step_down_batch)
      MoreExamples.elected_state MoreExamples.just_elected_chain
    = Ret (s', c')
    ∧ bc s' = Some MoreExamples.creator_at_4
    ∧ Lead (soft s') = 2 ∧ raftID c' = 1
    ∧ MoreExamples.creator_at_4
      = {| bc_hash := HeaderHash (Codec := Examples.codec) (Header (lastBlock c'));
           bc_number := Number (Header (lastBlock c')) |}
    ∧ justElected MoreExamples.just_elected_chain = true
    ∧ justElected c' = false
    ∧ submitC s' = true.
Proof.
  assert (∃ s' c',
            serveRequest_arm (H := Examples.codec) (H0 := Examples.block_creator) 10
              (EvApply true 7 MoreExamples.step_down_batch)
              MoreExamples.elected_state MoreExamples.just_elected_chain
            = Ret (s', c')
            ∧ bc s' = Some MoreExamples.creator_at_4
            ∧ Lead (soft s') = 2 ∧ raftID c' = 1) as (s' & c' & Harm & Hbc & Hlead & Hid)
    by (eexists _, _; vm_compute; repeat split; reflexivity).
  exists s', c'. split; [exact Harm|]. split; [exact Hbc|]. split; [exact Hlead|].
  split; [exact Hid|].
  destruct (onApply_block_creator (H := Examples.codec) (H0 := Examples.block_creator)
              10 true 7 MoreExamples.step_down_batch MoreExamples.elected_state s'
              MoreExamples.just_elected_chain c' MoreExamples.creator_at_4 Harm Hbc)
    as [Hsame|(Hcreator & _ & _ & Hcleared & Hsubmit & _)].
  - rewrite Hbc in Hsame. discriminate Hsame.
  - split; [exact Hcreator|]. split; [reflexivity|]. split; [exact Hcleared | exact Hsubmit].
Defined.
